(** * snwsnwsnw/utils: the auto-scaling worker pool and the SafeMap

    A shallow embedding of [pool/autoScaleWorkerPool.go] and [safeMap.go].

    - [int32] values are integers of [Z] with the wrap-around of Go's
      fixed-width arithmetic written out ([wrap32]).
    - [float64] values are the binary64 numbers of the Standard Library's
      [SpecFloat] (precision 53, [emax] 1024, round to nearest even).
    - The goroutines of a pool (the workers, the scaling loop started by
      [Start], and [Start] itself running [readChan]) are program counters
      in one state record; an [Action] names the goroutine that moves and,
      at a [select], the case that fires.  [exec] runs one action and a
      schedule is a list of actions, so every interleaving is a schedule.
    - The map of a [SafeMap] is the list of its entries, looked up with the
      [==] of the key type, which need not be reflexive (a NaN) and is not
      defined on every key of an interface type (a key that cannot be
      hashed makes the operation panic).  The methods are functions on the
      map; [Range] is the loop over the entries in any order.  The locking
      itself is modelled apart: goroutines that take the lock, run the body
      of a method and release the lock, one step at a time. *)

From Stdlib Require Import ZArith Lia Bool.
From Stdlib Require Import Floats.SpecFloat.
From stdpp Require Import base option list.

Open Scope Z_scope.

(** ** Fixed-width integers *)

Definition min_int32 : Z := - 2 ^ 31.
Definition max_int32 : Z := 2 ^ 31 - 1.

(** The value an [int32] computation keeps of the exact result [z]. *)
Definition wrap32 (z : Z) : Z := (z - min_int32) mod 2 ^ 32 + min_int32.

Definition in_int32 (z : Z) : Prop := min_int32 <= z <= max_int32.

(** ** float64 *)

Definition float64 : Type := spec_float.
Definition prec : Z := 53.
Definition emax : Z := 1024.

(** [float64(n)] for an [int32] [n]: exact, every such [n] has a binary64
    representation. *)
Definition float64_of_int32 (z : Z) : float64 :=
  binary_normalize prec emax z 0 false.

Definition float64_one : float64 := float64_of_int32 1.

Definition float64_mul (x y : float64) : float64 := SFmul prec emax x y.

(** [x / y].  Go evaluates a float division with a zero divisor to an
    infinity or to NaN; here it is the error [None], so that the scaling
    loop can be shown never to perform it. *)
Definition float64_quo (x y : float64) : option float64 :=
  match y with
  | S754_zero _ => None
  | _ => Some (SFdiv prec emax x y)
  end.

(** Truncation toward zero of a finite number. *)
Definition float64_trunc (f : float64) : option Z :=
  match f with
  | S754_zero _ => Some 0
  | S754_finite s m e =>
      Some (cond_Zopp s (if e <? 0 then Z.pos m / 2 ^ (- e) else Z.pos m * 2 ^ e))
  | _ => None
  end.

(** [int32(f)]: the truncation when it fits.  Go leaves the other cases to
    the implementation; amd64 yields the most negative integer. *)
Definition int32_of_float64 (f : float64) : Z :=
  match float64_trunc f with
  | Some z => if (min_int32 <=? z) && (z <=? max_int32) then z else min_int32
  | None => min_int32
  end.

(** ** Configuration and [NewAutoScaleWorkerPool] *)

Definition DefaultMinWorkers : Z := 1.
Definition DefaultMinQueueSize : Z := 1.
(** [5 * time.Second], a [time.Duration] counts nanoseconds. *)
Definition DefaultIdleTimeout : Z := 5 * 1000000000.
(** The period of the scaling loop's ticker, [2 * time.Second]. *)
Definition TickerPeriod : Z := 2 * 1000000000.

(** The fields of [AutoScaleWorkerPool] that never change after
    construction. *)
Record Config : Type := mkConfig {
  MinWorkers : Z;
  MaxWorkers : Z;
  QueueSize : Z;
  ScaleThreshold : Z;
  IdleTimeout : Z
}.

Definition newConfig (minWorkers maxWorkers queueSize scaleThreshold idleTimeout : Z)
  : Config :=
  {| MinWorkers := Z.max DefaultMinWorkers minWorkers;
     MaxWorkers := Z.max DefaultMinWorkers maxWorkers;
     QueueSize := Z.max DefaultMinQueueSize queueSize;
     ScaleThreshold := Z.min (Z.max scaleThreshold 1) 100;
     IdleTimeout := Z.max DefaultIdleTimeout idleTimeout |}.

(** What the constructor guarantees of its result when its arguments are
    [int32] values, see [newConfig_wf]. *)
Definition wf_config (c : Config) : Prop :=
  1 <= MinWorkers c <= max_int32 /\ 1 <= MaxWorkers c <= max_int32 /\
  1 <= QueueSize c <= max_int32 /\ 1 <= ScaleThreshold c <= 100.

(** The [int32] product [QueueSize * ScaleThreshold] does not wrap around.
    It does for a queue of more than 21474836 slots and a threshold of 100. *)
Definition no_overflow (c : Config) : Prop :=
  QueueSize c * ScaleThreshold c <= max_int32.

(** ** One tick of the scaling loop *)

Inductive Tick : Type :=
| Idle                       (* the [if] is not taken *)
| Spawn (additional : Z).    (* [additional] workers are started and added *)

(** [pool.QueueSize * pool.ScaleThreshold / 100] on [int32]: the product
    wraps around, the division truncates toward zero. *)
Definition thresholdCount (c : Config) : Z :=
  Z.quot (wrap32 (QueueSize c * ScaleThreshold c)) 100.

(** [maxExcess := pool.QueueSize - thresholdCount] on [int32], the divisor
    of [ratio]. *)
Definition maxExcess (c : Config) : Z := wrap32 (QueueSize c - thresholdCount c).

Definition ratio (c : Config) (qLen : Z) : option float64 :=
  let excess := wrap32 (qLen - thresholdCount c) in
  let maxExcess := wrap32 (QueueSize c - thresholdCount c) in
  if maxExcess =? 0 then Some float64_one
  else float64_quo (float64_of_int32 excess) (float64_of_int32 maxExcess).

Definition potentialAdditional (c : Config) (qLen currentWorkers : Z) : option Z :=
  r ← ratio c qLen;
  Some (int32_of_float64
          (float64_mul r (float64_of_int32 (wrap32 (MaxWorkers c - currentWorkers))))).

(** The body of [case <-ticker.C], from the snapshot [qLen],
    [currentWorkers] to the value of [additional]. *)
Definition tick (c : Config) (qLen currentWorkers : Z) : option Tick :=
  if (thresholdCount c <=? qLen) && (currentWorkers <? MaxWorkers c) then
    potential ← potentialAdditional c qLen currentWorkers;
    let additional := Z.max 1 potential in
    let additional :=
      if wrap32 (currentWorkers + additional) >? MaxWorkers c
      then wrap32 (MaxWorkers c - currentWorkers)
      else additional in
    Some (Spawn additional)
  else Some Idle.

(** The number of workers a tick adds. *)
Definition added (t : Tick) : Z :=
  match t with
  | Idle => 0
  | Spawn additional => additional
  end.

(** The rule of the specification, in exact arithmetic: nothing below the
    threshold or at the maximum, else the floor of the exact product, at
    least one and at most what is missing to the maximum. *)
Definition spec_added (c : Config) (qLen cur : Z) : Z :=
  let thresholdCount := QueueSize c * ScaleThreshold c / 100 in
  if (qLen <? thresholdCount) || (MaxWorkers c <=? cur) then 0
  else
    let room := MaxWorkers c - cur in
    let scaled :=
      if QueueSize c =? thresholdCount then room
      else (qLen - thresholdCount) * room / (QueueSize c - thresholdCount) in
    Z.min room (Z.max 1 scaled).

(** ** The running pool *)

Section Pool.

Context {T : Type}.

(** A Go channel: the values sent and not yet received, oldest first, and
    whether it was closed. *)
Record Chan : Type := mkChan {
  buf : list T;
  closed : bool
}.

(** Where a goroutine running [worker] stands. *)
Inductive WorkerPC : Type :=
| WStart                 (* spawned, [time.NewTimer] not yet run *)
| WSelect                (* blocked in the [select] *)
| WRun (payload : T)     (* [payload] taken: the timer is reset, then
                            [pool.WorkFunc(pool.Ctx, payload)] runs *)
| WDeferAdd              (* left the loop, the deferred [AddInt32(-1)] is next *)
| WDeferDone             (* decremented, the deferred [WG.Done] is next *)
| WExited.

(** [deadline] is the instant at which the worker's idle timer fires:
    [<-timer.C] is ready from then on. *)
Record Worker : Type := mkWorker {
  pc : WorkerPC;
  deadline : Z
}.

(** Where the scaling goroutine of [Start] stands.  In the [for range
    additional] loop, [remaining] iterations are left. *)
Inductive ScalerPC : Type :=
| SStart                        (* [time.NewTicker] not yet run *)
| SSelect                       (* blocked in the [select] *)
| SGotLen (qLen : Z)            (* [qLen] read, [CurrentWorkers] not yet loaded *)
| SLoop (additional remaining : Z)   (* at the loop head *)
| SGo (additional remaining : Z)     (* [WG.Add(1)] done, [go pool.worker()] is next *)
| SReturned.

(** Where [Start] itself stands: [readChan], then [close], then [Wait]. *)
Inductive StartPC : Type :=
| BOuter                 (* [readChan], outer [select] *)
| BInner (data : T)      (* [readChan], inner [select], holding [data] *)
| BClose                 (* [readChan] returned, [close(pool.Queue)] is next *)
| BWait                  (* in [pool.WG.Wait()] *)
| BReturned.

Record Pool : Type := mkPool {
  cfg : Config;
  CurrentWorkers : Z;
  WG : Z;                     (* the counter of the WaitGroup *)
  Done : bool;                (* [pool.Ctx.Done()] is closed *)
  Queue : Chan;
  InputChan : Chan;
  workers : list Worker;      (* every worker goroutine, in spawn order *)
  scaler : ScalerPC;
  ticker : Z;                 (* the instant of the earliest tick not yet received *)
  starter : StartPC;
  now : Z;                    (* the clock, in nanoseconds *)
  invoked : list T;           (* the payloads the workers took from the queue, in the
                                 order taken; the worker that took one calls [WorkFunc]
                                 on it next *)
  abandoned : list T          (* the item [readChan] held when it returned on cancellation *)
}.

Definition set_CurrentWorkers (v : Z) (p : Pool) : Pool :=
  mkPool (cfg p) v (WG p) (Done p) (Queue p) (InputChan p) (workers p)
         (scaler p) (ticker p) (starter p) (now p) (invoked p) (abandoned p).
Definition set_WG (v : Z) (p : Pool) : Pool :=
  mkPool (cfg p) (CurrentWorkers p) v (Done p) (Queue p) (InputChan p) (workers p)
         (scaler p) (ticker p) (starter p) (now p) (invoked p) (abandoned p).
Definition set_Done (v : bool) (p : Pool) : Pool :=
  mkPool (cfg p) (CurrentWorkers p) (WG p) v (Queue p) (InputChan p) (workers p)
         (scaler p) (ticker p) (starter p) (now p) (invoked p) (abandoned p).
Definition set_Queue (v : Chan) (p : Pool) : Pool :=
  mkPool (cfg p) (CurrentWorkers p) (WG p) (Done p) v (InputChan p) (workers p)
         (scaler p) (ticker p) (starter p) (now p) (invoked p) (abandoned p).
Definition set_InputChan (v : Chan) (p : Pool) : Pool :=
  mkPool (cfg p) (CurrentWorkers p) (WG p) (Done p) (Queue p) v (workers p)
         (scaler p) (ticker p) (starter p) (now p) (invoked p) (abandoned p).
Definition set_workers (v : list Worker) (p : Pool) : Pool :=
  mkPool (cfg p) (CurrentWorkers p) (WG p) (Done p) (Queue p) (InputChan p) v
         (scaler p) (ticker p) (starter p) (now p) (invoked p) (abandoned p).
Definition set_scaler (v : ScalerPC) (p : Pool) : Pool :=
  mkPool (cfg p) (CurrentWorkers p) (WG p) (Done p) (Queue p) (InputChan p) (workers p)
         v (ticker p) (starter p) (now p) (invoked p) (abandoned p).
Definition set_ticker (v : Z) (p : Pool) : Pool :=
  mkPool (cfg p) (CurrentWorkers p) (WG p) (Done p) (Queue p) (InputChan p) (workers p)
         (scaler p) v (starter p) (now p) (invoked p) (abandoned p).
Definition set_starter (v : StartPC) (p : Pool) : Pool :=
  mkPool (cfg p) (CurrentWorkers p) (WG p) (Done p) (Queue p) (InputChan p) (workers p)
         (scaler p) (ticker p) v (now p) (invoked p) (abandoned p).
Definition set_now (v : Z) (p : Pool) : Pool :=
  mkPool (cfg p) (CurrentWorkers p) (WG p) (Done p) (Queue p) (InputChan p) (workers p)
         (scaler p) (ticker p) (starter p) v (invoked p) (abandoned p).
Definition set_invoked (v : list T) (p : Pool) : Pool :=
  mkPool (cfg p) (CurrentWorkers p) (WG p) (Done p) (Queue p) (InputChan p) (workers p)
         (scaler p) (ticker p) (starter p) (now p) v (abandoned p).
Definition set_abandoned (v : list T) (p : Pool) : Pool :=
  mkPool (cfg p) (CurrentWorkers p) (WG p) (Done p) (Queue p) (InputChan p) (workers p)
         (scaler p) (ticker p) (starter p) (now p) (invoked p) v.

Definition set_worker (i : nat) (w : Worker) (p : Pool) : Pool :=
  set_workers (<[i := w]> (workers p)) p.

(** [atomic.AddInt32(&pool.CurrentWorkers, delta)]. *)
Definition AddInt32 (delta : Z) (p : Pool) : Pool :=
  set_CurrentWorkers (wrap32 (CurrentWorkers p + delta)) p.

(** The pool as [NewAutoScaleWorkerPool] returns it: the counter is set to
    [MinWorkers] first, then one worker per unit is registered with the
    WaitGroup and started, then [Start] is started.  No goroutine has run
    yet. *)
Definition NewAutoScaleWorkerPool
    (minWorkers maxWorkers queueSize scaleThreshold idleTimeout : Z)
    (input : Chan) : Pool :=
  let c := newConfig minWorkers maxWorkers queueSize scaleThreshold idleTimeout in
  {| cfg := c;
     CurrentWorkers := MinWorkers c;
     WG := MinWorkers c;
     Done := false;
     Queue := mkChan [] false;
     InputChan := input;
     workers := replicate (Z.to_nat (MinWorkers c)) (mkWorker WStart 0);
     scaler := SStart;
     ticker := 0;
     starter := BOuter;
     now := 0;
     invoked := [];
     abandoned := [] |}.

(** *** Actions *)

Inductive WorkerAct : Type :=
| WBegin       (* [timer := time.NewTimer(pool.IdleTimeout)] *)
| WRecv        (* [case payload, ok := <-pool.Queue] *)
| WTimer       (* [case <-timer.C] *)
| WCtxDone     (* [case <-pool.Ctx.Done()] *)
| WReturn      (* [pool.WorkFunc] returns *)
| WDecrement   (* deferred [atomic.AddInt32(&pool.CurrentWorkers, -1)] *)
| WWgDone.     (* deferred [pool.WG.Done()] *)

Inductive ScalerAct : Type :=
| SBegin       (* [ticker := time.NewTicker(2 * time.Second)] *)
| STick        (* [case <-ticker.C] and [qLen := int32(len(pool.Queue))] *)
| SCtxDone     (* [case <-pool.Ctx.Done()] *)
| SLoad        (* [atomic.LoadInt32] and the computation of [additional] *)
| SWgAdd       (* [pool.WG.Add(1)] *)
| SSpawn       (* [go pool.worker()] *)
| SAtomicAdd.  (* [atomic.AddInt32(&pool.CurrentWorkers, additional)] *)

Inductive StartAct : Type :=
| BRecv        (* outer [case data, ok := <-pool.InputChan] *)
| BSend        (* inner [case pool.Queue <- data] *)
| BCtxDone     (* [case <-pool.Ctx.Done()], outer or inner *)
| BCloseQueue  (* [close(pool.Queue)] *)
| BWaitReturn. (* [pool.WG.Wait()] returns *)

Inductive Action : Type :=
| AElapse (d : Z)                   (* time passes *)
| AStop                             (* [pool.Stop()], or the parent context is cancelled *)
| AProduce (x : T)                  (* the producer sends [x] on the input channel *)
| ACloseInput                       (* the producer closes the input channel *)
| AWorker (i : nat) (a : WorkerAct)
| AScaler (a : ScalerAct)
| AStart (a : StartAct).

(** The tick following the one received at [now]: the ticker's channel
    holds one tick, the ticks that fell due meanwhile were dropped. *)
Definition next_tick (t now : Z) : Z :=
  t + TickerPeriod * ((now - t) / TickerPeriod + 1).

Definition exec_worker (i : nat) (a : WorkerAct) (p : Pool) : option Pool :=
  w ← workers p !! i;
  let reset := now p + IdleTimeout (cfg p) in
  match a, pc w with
  | WBegin, WStart => Some (set_worker i (mkWorker WSelect reset) p)
  | WRecv, WSelect =>
      match buf (Queue p) with
      | payload :: rest =>
          (* the timer is stopped, drained and reset, then the work runs; two
             workers that have taken one item each can make their calls in
             either order *)
          Some (set_worker i (mkWorker (WRun payload) reset)
                  (set_Queue (mkChan rest (closed (Queue p)))
                     (set_invoked (invoked p ++ [payload]) p)))
      | [] =>
          if closed (Queue p) then Some (set_worker i (mkWorker WDeferAdd (deadline w)) p)
          else None
      end
  | WTimer, WSelect =>
      if deadline w <=? now p then
        if CurrentWorkers p >? MinWorkers (cfg p)
        then Some (set_worker i (mkWorker WDeferAdd (deadline w)) p)
        else Some (set_worker i (mkWorker WSelect reset) p)
      else None
  | WCtxDone, WSelect =>
      if Done p then Some (set_worker i (mkWorker WDeferAdd (deadline w)) p) else None
  | WReturn, WRun _ => Some (set_worker i (mkWorker WSelect (deadline w)) p)
  | WDecrement, WDeferAdd =>
      Some (set_worker i (mkWorker WDeferDone (deadline w)) (AddInt32 (-1) p))
  | WWgDone, WDeferDone =>
      Some (set_worker i (mkWorker WExited (deadline w)) (set_WG (WG p - 1) p))
  | _, _ => None
  end.

Definition exec_scaler (a : ScalerAct) (p : Pool) : option Pool :=
  match a, scaler p with
  | SBegin, SStart => Some (set_scaler SSelect (set_ticker (now p + TickerPeriod) p))
  | STick, SSelect =>
      if ticker p <=? now p then
        Some (set_scaler (SGotLen (wrap32 (Z.of_nat (length (buf (Queue p))))))
                (set_ticker (next_tick (ticker p) (now p)) p))
      else None
  | SCtxDone, SSelect => if Done p then Some (set_scaler SReturned p) else None
  | SLoad, SGotLen qLen =>
      t ← tick (cfg p) qLen (CurrentWorkers p);
      match t with
      | Idle => Some (set_scaler SSelect p)
      | Spawn additional => Some (set_scaler (SLoop additional additional) p)
      end
  | SWgAdd, SLoop additional remaining =>
      if 0 <? remaining then Some (set_scaler (SGo additional remaining) (set_WG (WG p + 1) p))
      else None
  | SSpawn, SGo additional remaining =>
      Some (set_scaler (SLoop additional (remaining - 1))
              (set_workers (workers p ++ [mkWorker WStart 0]) p))
  | SAtomicAdd, SLoop additional remaining =>
      if 0 <? remaining then None
      else Some (set_scaler SSelect (AddInt32 additional p))
  | _, _ => None
  end.

Definition exec_start (a : StartAct) (p : Pool) : option Pool :=
  match a, starter p with
  | BRecv, BOuter =>
      match buf (InputChan p) with
      | data :: rest =>
          Some (set_starter (BInner data)
                  (set_InputChan (mkChan rest (closed (InputChan p))) p))
      | [] => if closed (InputChan p) then Some (set_starter BClose p) else None
      end
  | BSend, BInner data =>
      if Z.of_nat (length (buf (Queue p))) <? QueueSize (cfg p) then
        Some (set_starter BOuter
                (set_Queue (mkChan (buf (Queue p) ++ [data]) (closed (Queue p))) p))
      else None
  | BCtxDone, BOuter => if Done p then Some (set_starter BClose p) else None
  | BCtxDone, BInner data =>
      (* [data] is given up *)
      if Done p then Some (set_starter BClose (set_abandoned (abandoned p ++ [data]) p))
      else None
  | BCloseQueue, BClose =>
      Some (set_starter BWait (set_Queue (mkChan (buf (Queue p)) true) p))
  | BWaitReturn, BWait => if WG p =? 0 then Some (set_starter BReturned p) else None
  | _, _ => None
  end.

(** One step of the pool; [None] when the action is not enabled. *)
Definition exec (a : Action) (p : Pool) : option Pool :=
  match a with
  | AElapse d => if 0 <? d then Some (set_now (now p + d) p) else None
  | AStop => Some (set_Done true p)
  | AProduce x =>
      if closed (InputChan p) then None
      else Some (set_InputChan (mkChan (buf (InputChan p) ++ [x]) false) p)
  | ACloseInput =>
      if closed (InputChan p) then None
      else Some (set_InputChan (mkChan (buf (InputChan p)) true) p)
  | AWorker i a => exec_worker i a p
  | AScaler a => exec_scaler a p
  | AStart a => exec_start a p
  end.

(** A schedule, run from the left. *)
Fixpoint run (sched : list Action) (p : Pool) : option Pool :=
  match sched with
  | [] => Some p
  | a :: rest => p' ← exec a p; run rest p'
  end.

Definition reachable (p0 p : Pool) : Prop :=
  ∃ sched, run sched p0 = Some p.

(** *** Observations *)

(** The worker has run its deferred decrement. *)
Definition decremented (w : Worker) : bool :=
  match pc w with
  | WDeferDone | WExited => true
  | _ => false
  end.

(** What a worker contributes to the number of workers: one until its
    deferred decrement has run. *)
Definition counts (w : Worker) : Z := if decremented w then 0 else 1.

Definition tally (ws : list Worker) : Z := foldr (λ w n, counts w + n) 0 ws.

(** The workers that are started and have not yet decremented the count. *)
Definition live (p : Pool) : Z := tally (workers p).

(** The workers the scaling loop has started in the tick under way and not
    yet added to the count. *)
Definition pending (p : Pool) : Z :=
  match scaler p with
  | SLoop additional remaining => additional - remaining
  | SGo additional remaining => additional - remaining
  | _ => 0
  end.

(** [pool.WG.Wait()] would return now: this is what [Join] waits for. *)
Definition joined (p : Pool) : bool := WG p =? 0.

(** The idle-timer case of worker [i]'s select is ready. *)
Definition timer_ready (i : nat) (p : Pool) : bool :=
  match workers p !! i with
  | Some w => match pc w with WSelect => deadline w <=? now p | _ => false end
  | None => false
  end.

(** What [readChan] holds between its two selects. *)
Definition held (p : Pool) : list T :=
  match starter p with
  | BInner data => [data]
  | _ => []
  end.

(** Every item the pool has seen, oldest first: those the workers have
    taken, those queued, the one [readChan] holds, the one it gave up,
    those waiting in the input. *)
Definition items (p : Pool) : list T :=
  invoked p ++ buf (Queue p) ++ held p ++ abandoned p ++ buf (InputChan p).

(** The items the producer sends in a schedule. *)
Fixpoint produced (sched : list Action) : list T :=
  match sched with
  | [] => []
  | AProduce x :: rest => x :: produced rest
  | _ :: rest => produced rest
  end.

(** *** Invariants *)

(** What the scaling loop knows where it stands. *)
Definition scaler_inv (p : Pool) : Prop :=
  match scaler p with
  | SGotLen qLen => 0 <= qLen <= QueueSize (cfg p) /\ CurrentWorkers p <= MaxWorkers (cfg p)
  | SLoop additional remaining =>
      0 <= remaining <= additional /\ additional <= MaxWorkers (cfg p) /\
      CurrentWorkers p + additional <= MaxWorkers (cfg p)
  | SGo additional remaining =>
      1 <= remaining <= additional /\ additional <= MaxWorkers (cfg p) /\
      CurrentWorkers p + additional <= MaxWorkers (cfg p)
  | _ => CurrentWorkers p <= MaxWorkers (cfg p)
  end.

(** The invariant of a pool built with configuration [c]: the
    configuration is kept, the queue holds at most [QueueSize] items, the
    count is the number of live workers less those started in the tick
    under way, and the scaling loop is within its bounds. *)
Definition pool_inv (c : Config) (p : Pool) : Prop :=
  cfg p = c /\
  Z.of_nat (length (buf (Queue p))) <= QueueSize c /\
  CurrentWorkers p + pending p = live p /\
  scaler_inv p.

(** [readChan] gives up at most one item, on cancellation only, and none
    while it is still reading. *)
Definition abandoned_inv (p : Pool) : Prop :=
  match starter p with
  | BOuter | BInner _ => abandoned p = []
  | _ => (length (abandoned p) <= 1)%nat /\ (abandoned p <> [] -> Done p = true)
  end.

(** [Start] has run its [close(pool.Queue)]. *)
Definition closed_by_start (p : Pool) : bool :=
  match starter p with
  | BWait | BReturned => true
  | _ => false
  end.

End Pool.

Arguments Chan : clear implicits.
Arguments Worker : clear implicits.
Arguments WorkerPC : clear implicits.
Arguments StartPC : clear implicits.
Arguments Pool : clear implicits.
Arguments Action : clear implicits.
Arguments ScalerPC : clear implicits.
Arguments tally {T} ws : simpl never.

(** *** More observations and invariants *)

Section PoolGoroutines.

Context {T : Type}.

(** The worker has run its deferred [pool.WG.Done()]. *)
Definition exited (w : Worker T) : bool :=
  match pc w with WExited => true | _ => false end.

(** The workers that have not yet called [pool.WG.Done()]. *)
Definition unfinished (ws : list (Worker T)) : Z :=
  foldr (λ w n, (if exited w then 0 else 1) + n) 0 ws.

(** What the wait group was told of: the workers that have not called
    [Done], and the one the scaling loop has added and not yet started. *)
Definition registered (p : Pool T) : Z :=
  unfinished (workers p) + match scaler p with SGo _ _ => 1 | _ => 0 end.

(** [readChan] has returned. *)
Definition readChan_returned (p : Pool T) : bool :=
  match starter p with
  | BClose | BWait | BReturned => true
  | _ => false
  end.

(** Why the goroutines that have returned did so: the scaling loop on
    cancellation only, [readChan] on cancellation or at the end of the
    input. *)
Definition return_inv (p : Pool T) : Prop :=
  (scaler p = SReturned -> Done p = true) /\
  (readChan_returned p = true -> Done p = true \/ InputChan p = mkChan [] true).

(** A step of one of the pool's goroutines, as opposed to the producer,
    the caller of [Stop] and the clock. *)
Definition goroutine_step (a : Action T) : bool :=
  match a with
  | AWorker _ _ | AScaler _ | AStart _ => true
  | _ => false
  end.

(** A step of the scaling loop. *)
Definition scaler_step (a : Action T) : bool :=
  match a with
  | AScaler _ => true
  | _ => false
  end.

(** Steps of the kind [ok] alone can take the pool from [p] to [p']. *)
Definition settles_by (ok : Action T → bool) (p p' : Pool T) : Prop :=
  ∃ sched, forallb ok sched = true ∧ run sched p = Some p'.

(** The goroutines alone can take the pool from [p] to [p']. *)
Definition settles (p p' : Pool T) : Prop := settles_by goroutine_step p p'.

(** Every goroutine of the pool has returned. *)
Definition at_rest (p : Pool T) : Prop :=
  starter p = BReturned ∧ scaler p = SReturned ∧
  Forall (λ w, pc w = WExited) (workers p).

(** How far a worker is from its return under cancellation. *)
Definition rank (w : Worker T) : nat :=
  match pc w with
  | WStart | WRun _ => 5
  | WSelect => 4
  | WDeferAdd => 3
  | WDeferDone => 2
  | WExited => 0
  end.

(** No idle timer is set further ahead than [IdleTimeout]. *)
Definition timer_inv (p : Pool T) : Prop :=
  0 <= now p /\ 0 < IdleTimeout (cfg p) /\
  Forall (λ w, deadline w <= now p + IdleTimeout (cfg p)) (workers p).

(** The worker is on its way out: it has left its loop. *)
Definition leaving (w : Worker T) : bool :=
  match pc w with
  | WDeferAdd | WDeferDone | WExited => true
  | _ => false
  end.

(** No worker leaves while there is work: unless the context is
    cancelled, a worker has left its loop only if the queue is closed and
    empty. *)
Definition leave_inv (p : Pool T) : Prop :=
  Done p = true \/
  (closed (Queue p) = true /\ buf (Queue p) = []) \/
  Forall (λ w, leaving w = false) (workers p).

(** The first worker is there, and has returned if [Start] has. *)
Definition first_worker_inv (p : Pool T) : Prop :=
  exists w, workers p !! 0%nat = Some w /\ (starter p = BReturned -> pc w = WExited).

(** The ticks the scaling loop receives in a schedule. *)
Fixpoint ticks (sched : list (Action T)) : nat :=
  match sched with
  | [] => 0
  | AScaler STick :: rest => S (ticks rest)
  | _ :: rest => ticks rest
  end.

(** A step of the scaling loop, or time passing. *)
Definition scaler_or_clock (a : Action T) : bool :=
  match a with
  | AScaler _ | AElapse _ => true
  | _ => false
  end.

(** The worker has taken an item and has not yet returned from the work
    function. *)
Definition running (w : Worker T) : bool :=
  match pc w with
  | WRun _ => true
  | _ => false
  end.

(** Once [Start] has returned no worker is at work, unless the context
    was cancelled. *)
Definition work_done_inv (p : Pool T) : Prop :=
  Done p = false -> starter p = BReturned ->
  Forall (λ w, running w = false) (workers p).

End PoolGoroutines.

Arguments unfinished {T} ws : simpl never.

(** ** SafeMap *)

(** The constraint [comparable] of the key type, as far as a map uses it:
    whether a key can be hashed, and [==].  A key of an interface type whose
    dynamic type is not comparable cannot be hashed, and every map operation
    on it panics.  [==] is symmetric and transitive; it is not reflexive: a
    floating-point NaN is not equal to itself.  A comparison with a key
    that cannot be hashed is not [true]: it is [false] or panics. *)
Class Comparable (KEY : Type) : Type := {
  hashable : KEY → bool;
  eqK : KEY → KEY → bool;
  eqK_hashable : ∀ k k', eqK k k' = true → hashable k = true;
  eqK_sym : ∀ k k', eqK k k' = eqK k' k;
  eqK_trans : ∀ k1 k2 k3, eqK k1 k2 = true → eqK k2 k3 = true → eqK k1 k3 = true
}.

Section SafeMap.

Context `{Comparable KEY} {VALUE : Type}.

(** The zero value of [VALUE], what a Go map lookup yields for an absent
    key. *)
Context (zero : VALUE).

(** The entries of [data], each key with its value.  The order of the
    list is not observable: [Range] takes the entries in any order. *)
Record SafeMap : Type := mkSafeMap {
  data : list (KEY * VALUE)
}.

(** Both branches make an empty map, [size] is only a capacity hint. *)
Definition NewSafeMap (size : list Z) : SafeMap :=
  match size with
  | n :: _ => if 0 <? n then mkSafeMap [] else mkSafeMap []
  | [] => mkSafeMap []
  end.

(** The expression [m.data[key]] on a key that can be hashed: the value
    stored under a key equal to [key]. *)
Definition mapaccess (d : list (KEY * VALUE)) (key : KEY) : option VALUE :=
  snd <$> find (λ e, eqK e.1 key) d.

(** The assignment [m.data[key] = value] on a key that can be hashed: the
    entry of a key equal to [key] gets the new key and value, and if there
    is none an entry is added. *)
Fixpoint mapassign (d : list (KEY * VALUE)) (key : KEY) (value : VALUE)
  : list (KEY * VALUE) :=
  match d with
  | [] => [(key, value)]
  | (k, v) :: rest =>
      if eqK k key then (key, value) :: rest
      else (k, v) :: mapassign rest key value
  end.

(** [delete(m.data, key)] on a key that can be hashed. *)
Definition mapdelete (d : list (KEY * VALUE)) (key : KEY) : list (KEY * VALUE) :=
  filter (λ e, eqK e.1 key = false) d.

(** How a call ends. *)
Inductive Outcome (A : Type) : Type :=
| Returns (a : A)
| Panics.

(** What a call that writes leaves: the map, and whether the call
    returned or panicked. *)
Record Effect : Type := mkEffect {
  after : SafeMap;
  returned : bool
}.

Definition Get (m : SafeMap) (key : KEY) : Outcome (VALUE * bool) :=
  if hashable key then
    Returns _ (match mapaccess (data m) key with
               | Some value => (value, true)
               | None => (zero, false)
               end)
  else Panics _.

(** The method [Set]. *)
Definition Set_ (m : SafeMap) (key : KEY) (value : VALUE) : Effect :=
  if hashable key then mkEffect (mkSafeMap (mapassign (data m) key value)) true
  else mkEffect m false.

(** The loop of [Delete]: it stops with a panic at the first key that
    cannot be hashed, the keys before it deleted. *)
Fixpoint delete_loop (d : list (KEY * VALUE)) (keys : list KEY)
  : list (KEY * VALUE) * bool :=
  match keys with
  | [] => (d, true)
  | key :: keys =>
      if hashable key then delete_loop (mapdelete d key) keys else (d, false)
  end.

Definition Delete (m : SafeMap) (keys : list KEY) : Effect :=
  mkEffect (mkSafeMap (delete_loop (data m) keys).1) (delete_loop (data m) keys).2.

Definition Len (m : SafeMap) : Z := Z.of_nat (length (data m)).

(** The loop of [Range] over the entries in the order the runtime yields
    them.  The callback [f] acts on the variables it has captured, the
    state [St], and answers whether the iteration goes on. *)
Fixpoint range_loop {St : Type} (f : KEY → VALUE → St → St * bool)
    (entries : list (KEY * VALUE)) (s : St) : St :=
  match entries with
  | [] => s
  | (k, v) :: rest =>
      let (s', continue) := f k v s in
      if continue then range_loop f rest s' else s'
  end.

(** Go does not specify the order in which [range] yields the entries of
    a map: any order, every entry once. *)
Definition iteration_order (m : SafeMap) (entries : list (KEY * VALUE)) : Prop :=
  entries ≡ₚ data m.

(** The method [Range]: the callback's state before and after. *)
Definition Range {St : Type} (m : SafeMap) (f : KEY → VALUE → St → St * bool)
    (s s' : St) : Prop :=
  ∃ entries, iteration_order m entries ∧ range_loop f entries s = s'.

(** A callback together with a record of the calls made to it and of its
    answers. *)
Definition traced {St : Type} (f : KEY → VALUE → St → St * bool)
    (k : KEY) (v : VALUE) (sl : St * list (KEY * VALUE * bool))
  : (St * list (KEY * VALUE * bool)) * bool :=
  let (s', continue) := f k v (fst sl) in
  ((s', snd sl ++ [(k, v, continue)]), continue).

(** The callback that looks for [key] and stops when it has found it. *)
Definition find_key (key : KEY) (k : KEY) (v : VALUE) (r : option VALUE)
  : option VALUE * bool :=
  if eqK k key then (Some v, false) else (r, true).

(** A call that changes the map. *)
Inductive Op : Type :=
| OpSet (key : KEY) (value : VALUE)
| OpDelete (keys : list KEY).

Definition apply_op (m : SafeMap) (o : Op) : SafeMap :=
  match o with
  | OpSet key value => after (Set_ m key value)
  | OpDelete keys => after (Delete m keys)
  end.

(** The map after a history of calls, those that panicked included. *)
Definition apply_ops (ops : list Op) : SafeMap :=
  foldl apply_op (NewSafeMap []) ops.

(** The keys a [Delete] gets to: those before the first that cannot be
    hashed. *)
Fixpoint hashed (keys : list KEY) : list KEY :=
  match keys with
  | [] => []
  | key :: keys => if hashable key then key :: hashed keys else []
  end.

(** In the words of the claim: a key equal to [key] was set by some call
    of the history and no later call deleted a key equal to it. *)
Definition set_and_kept (ops : list Op) (key : KEY) : Prop :=
  ∃ (i : nat) k value,
    ops !! i = Some (OpSet k value) ∧ hashable k = true ∧ eqK k key = true ∧
    ∀ (j : nat) keys k', (i < j)%nat → ops !! j = Some (OpDelete keys) →
      k' ∈ hashed keys → eqK k' key = false.

(** The value the history leaves under [key]: that of the latest [Set] of
    a key equal to it, unless a later [Delete] named such a key. *)
Definition stored_step (key : KEY) (cur : option VALUE) (o : Op) : option VALUE :=
  match o with
  | OpSet k value => if hashable k && eqK k key then Some value else cur
  | OpDelete keys => if existsb (λ k, eqK k key) (hashed keys) then None else cur
  end.

Definition stored (ops : list Op) (key : KEY) : option VALUE :=
  foldl (stored_step key) None ops.

(** A [Set] of a key that is not equal to itself. *)
Definition irreflexive_set (o : Op) : bool :=
  match o with
  | OpSet k _ => hashable k && negb (eqK k k)
  | OpDelete _ => false
  end.

(** The number of such calls in a history. *)
Definition irreflexive_sets (ops : list Op) : nat :=
  length (filter (λ o, irreflexive_set o = true) ops).

(** No two keys of the list are equal. *)
Fixpoint distinct (keys : list KEY) : Prop :=
  match keys with
  | [] => True
  | k :: rest => (∀ k', k' ∈ rest → eqK k k' = false) ∧ distinct rest
  end.

(** The keys of the map that are equal to themselves, and the entries
    whose key is not. *)
Definition reflexive_keys (m : SafeMap) : list KEY :=
  filter (λ k, eqK k k = true) (data m).*1.

Definition irreflexive_entries (d : list (KEY * VALUE)) : list (KEY * VALUE) :=
  filter (λ e, eqK e.1 e.1 = false) d.

(** The entries whose key is equal to one of [keys]. *)
Definition named (keys : list KEY) (d : list (KEY * VALUE)) : list (KEY * VALUE) :=
  filter (λ e, existsb (eqK e.1) keys = true) d.

(** What holds of a map that was made by [NewSafeMap] and changed by the
    methods: its keys can be hashed and no two of them are equal. *)
Definition wf_map (m : SafeMap) : Prop :=
  Forall (λ e, hashable e.1 = true) (data m) ∧ distinct (data m).*1.

End SafeMap.

Arguments SafeMap KEY VALUE : clear implicits.
Arguments Op : clear implicits.
Arguments Effect KEY VALUE : clear implicits.
Arguments Returns {A} a.
Arguments Panics {A}.
Arguments mapaccess : simpl never.
Arguments mapdelete : simpl never.

(** *** The mutex *)

Section Mutex.

Context `{Comparable KEY} {VALUE St : Type} (zero : VALUE).

(** A call of a method; [Range] with its callback and the state of the
    variables the callback has captured. *)
Inductive Call : Type :=
| CallGet (key : KEY)
| CallSet (key : KEY) (value : VALUE)
| CallDelete (keys : list KEY)
| CallLen
| CallRange (f : KEY → VALUE → St → St * bool) (s : St).

(** How a call ends: with its results, or with the panic of a map
    operation on a key that cannot be hashed. *)
Inductive Result : Type :=
| RetGet (value : VALUE) (ok : bool)
| RetSet
| RetDelete
| RetLen (n : Z)
| RetRange (s : St)
| Panicked.

Inductive Mode : Type := Reading | Writing.

(** The lock a method takes on entry: [m.mu.RLock()] or [m.mu.Lock()]. *)
Definition lock_of (c : Call) : Mode :=
  match c with
  | CallGet _ => Reading
  | CallSet _ _ => Writing
  | CallDelete _ => Writing
  | CallLen => Reading
  | CallRange _ _ => Reading
  end.

(** The unlock it defers: [m.mu.RUnlock()] or [m.mu.Unlock()]. *)
Definition unlock_of (c : Call) : Mode :=
  match c with
  | CallGet _ => Reading
  | CallSet _ _ => Writing
  | CallDelete _ => Writing
  | CallLen => Reading
  | CallRange _ _ => Reading
  end.

(** What a method does between its lock and its unlock: the map it
    leaves and how it ends.  A panic leaves the body at once; the deferred
    unlock runs all the same. *)
Inductive body : Call → SafeMap KEY VALUE → SafeMap KEY VALUE → Result → Prop :=
| body_Get m key :
    body (CallGet key) m m
      (match Get zero m key with
       | Returns (value, ok) => RetGet value ok
       | Panics => Panicked
       end)
| body_Set m key value :
    body (CallSet key value) m (after (Set_ m key value))
      (if returned (Set_ m key value) then RetSet else Panicked)
| body_Delete m keys :
    body (CallDelete keys) m (after (Delete m keys))
      (if returned (Delete m keys) then RetDelete else Panicked)
| body_Len m : body CallLen m m (RetLen (Len m))
| body_Range m f s s' : Range m f s s' → body (CallRange f s) m m (RetRange s').

(** A [sync.RWMutex]: the number of readers that hold it and whether a
    writer holds it. *)
Record RWMutex : Type := mkRWMutex {
  readers : nat;
  writer : bool
}.

(** A goroutine that calls a method. *)
Inductive Goroutine : Type :=
| Calling (c : Call)               (* before the lock *)
| Holding (c : Call)               (* the lock taken, the unlock deferred *)
| Leaving (c : Call) (r : Result)  (* the body left, the deferred unlock next *)
| Returned (r : Result)           (* returned to its caller, or panicking in it *)
| Fatal.                           (* unlock of a mutex that is not locked *)

(** A map shared by goroutines. *)
Record Shared : Type := mkShared {
  mu : RWMutex;
  safeMap : SafeMap KEY VALUE;
  goroutines : list Goroutine
}.

Definition move (i : nat) (g : Goroutine) (l : RWMutex) (m : SafeMap KEY VALUE)
    (st : Shared) : Shared :=
  mkShared l m (<[i := g]> (goroutines st)).

(** One step of one goroutine.  [RLock] goes through when no writer holds
    the mutex, [Lock] when nobody holds it; which of the goroutines that
    can go does is left open. *)
Inductive step : Shared → Shared → Prop :=
| step_RLock st (i : nat) c :
    goroutines st !! i = Some (Calling c) → lock_of c = Reading →
    writer (mu st) = false →
    step st (move i (Holding c) (mkRWMutex (S (readers (mu st))) false) (safeMap st) st)
| step_Lock st (i : nat) c :
    goroutines st !! i = Some (Calling c) → lock_of c = Writing →
    writer (mu st) = false → readers (mu st) = 0%nat →
    step st (move i (Holding c) (mkRWMutex 0 true) (safeMap st) st)
| step_body st (i : nat) c m' r :
    goroutines st !! i = Some (Holding c) → body c (safeMap st) m' r →
    step st (move i (Leaving c r) (mu st) m' st)
| step_RUnlock st (i : nat) c r n :
    goroutines st !! i = Some (Leaving c r) → unlock_of c = Reading →
    readers (mu st) = S n →
    step st (move i (Returned r) (mkRWMutex n (writer (mu st))) (safeMap st) st)
| step_RUnlock_fatal st (i : nat) c r :
    goroutines st !! i = Some (Leaving c r) → unlock_of c = Reading →
    readers (mu st) = 0%nat →
    step st (move i Fatal (mu st) (safeMap st) st)
| step_Unlock st (i : nat) c r :
    goroutines st !! i = Some (Leaving c r) → unlock_of c = Writing →
    writer (mu st) = true →
    step st (move i (Returned r) (mkRWMutex (readers (mu st)) false) (safeMap st) st)
| step_Unlock_fatal st (i : nat) c r :
    goroutines st !! i = Some (Leaving c r) → unlock_of c = Writing →
    writer (mu st) = false →
    step st (move i Fatal (mu st) (safeMap st) st).

Inductive steps : Shared → Shared → Prop :=
| steps_refl st : steps st st
| steps_step st st' st'' : steps st st' → step st' st'' → steps st st''.

(** The goroutines are about to make their calls on the map [m]. *)
Definition shared (m : SafeMap KEY VALUE) (calls : list Call) : Shared :=
  mkShared (mkRWMutex 0 false) m (Calling <$> calls).

(** The goroutine is inside a method that reads, that writes. *)
Definition reads (g : Goroutine) : nat :=
  match g with
  | Holding c | Leaving c _ => match lock_of c with Reading => 1 | Writing => 0 end
  | _ => 0
  end.

Definition writes (g : Goroutine) : nat :=
  match g with
  | Holding c | Leaving c _ => match lock_of c with Reading => 0 | Writing => 1 end
  | _ => 0
  end.

(** The mutex agrees with the goroutines. *)
Definition lock_inv (st : Shared) : Prop :=
  readers (mu st) = sum_list_with reads (goroutines st) ∧
  (if writer (mu st)
   then sum_list_with writes (goroutines st) = 1%nat ∧
        sum_list_with reads (goroutines st) = 0%nat
   else sum_list_with writes (goroutines st) = 0%nat) ∧
  Fatal ∉ goroutines st.

End Mutex.

Arguments Call : clear implicits.
Arguments Result : clear implicits.
Arguments Goroutine : clear implicits.
Arguments Shared : clear implicits.

(** *** Key types *)

(** Integer keys: every key can be hashed and is equal to itself. *)
#[export] Instance Comparable_int : Comparable Z.
Proof.
  refine {| hashable := λ _, true; eqK := Z.eqb |}.
  - reflexivity.
  - apply Z.eqb_sym.
  - intros k1 k2 k3 H1 H2. apply Z.eqb_eq in H1, H2. apply Z.eqb_eq. congruence.
Defined.

(** Keys of type [float64]: every key can be hashed, [==] is the equality
    of IEEE 754, under which a NaN is not equal to itself and the two zeros
    are equal. *)
#[export] Instance Comparable_float64 : Comparable float64.
Proof.
  refine {| hashable := λ _, true; eqK := SFeqb |};
    assert (Hfin : ∀ s m e s' m' e',
              SFeqb (S754_finite s m e) (S754_finite s' m' e') = true →
              s = s' ∧ m = m' ∧ e = e')
      by (intros s m e s' m' e'; unfold SFeqb, SFcompare;
          destruct s, s'; try discriminate; destruct (e ?= e') eqn:He; try discriminate;
          apply Z.compare_eq in He; subst e';
          destruct (Pos.compare_cont Eq m m') eqn:Hm; try discriminate;
          apply Pos.compare_eq in Hm; now subst).
  - reflexivity.
  - intros f f'.
    destruct (SFeqb f f') eqn:H1, (SFeqb f' f) eqn:H2; try reflexivity; exfalso;
      destruct f as [s| s| |s m e], f' as [s'| s'| |s' m' e']; try discriminate;
      try (destruct s, s'; discriminate).
    + destruct (Hfin _ _ _ _ _ _ H1) as (-> & -> & ->). congruence.
    + destruct (Hfin _ _ _ _ _ _ H2) as (-> & -> & ->). congruence.
  - intros f1 f2 f3 H12 H23.
    destruct f1 as [s1| s1| |s1 m1 e1], f2 as [s2| s2| |s2 m2 e2],
      f3 as [s3| s3| |s3 m3 e3];
      try discriminate H12; try discriminate H23; try reflexivity;
      try (destruct s1, s2; discriminate H12); try (destruct s2, s3; discriminate H23);
      try (destruct s1; discriminate H12); try (destruct s2; discriminate H12);
      try (destruct s2; discriminate H23); try (destruct s3; discriminate H23).
    + destruct s1, s2, s3; try discriminate; reflexivity.
    + destruct (Hfin _ _ _ _ _ _ H12) as (-> & -> & ->). assumption.
Defined.

(** Keys of an interface type that holds an integer or a slice: a slice
    cannot be hashed. *)
Inductive AnyKey : Type :=
| AnyInt (z : Z)
| AnySlice (l : list Z).

#[export] Instance Comparable_any : Comparable AnyKey.
Proof.
  refine {| hashable := λ k, match k with AnyInt _ => true | AnySlice _ => false end;
            eqK := λ k k', match k, k' with
                           | AnyInt z, AnyInt z' => z =? z'
                           | _, _ => false
                           end |}.
  - intros [z|l] [z'|l'] Heq; try discriminate. reflexivity.
  - intros [z|l] [z'|l']; try reflexivity. apply Z.eqb_sym.
  - intros [z1|l1] [z2|l2] [z3|l3] H1 H2; try discriminate.
    apply Z.eqb_eq in H1, H2. apply Z.eqb_eq. congruence.
Defined.

(** ** Scenarios *)

Definition second : Z := 1000000000.

(** A pool of one to two workers, a queue of one slot and a threshold of
    one per cent, so that [thresholdCount] is zero; the input is open and
    empty. *)
Definition small_pool : Pool Z :=
  NewAutoScaleWorkerPool 1 2 1 1 0 (mkChan [] false).

(** The first worker starts, the scaling loop starts and, at its first
    tick, decides to add one worker, registers it and starts it. *)
Definition spawn_schedule : list (Action Z) :=
  [ AWorker 0 WBegin; AScaler SBegin; AElapse (2 * second);
    AScaler STick; AScaler SLoad; AScaler SWgAdd; AScaler SSpawn ].

(** The new worker is running before the count includes it. *)
Definition uncounted_schedule : list (Action Z) :=
  spawn_schedule ++ [ AWorker 1 WBegin ].

(** The count is raised to two, then both workers take one item each at
    the third second. *)
Definition busy_schedule : list (Action Z) :=
  spawn_schedule ++
  [ AScaler SAtomicAdd; AWorker 1 WBegin; AElapse second;
    AProduce 7; AProduce 8;
    AStart BRecv; AStart BSend; AWorker 0 WRecv;
    AStart BRecv; AStart BSend; AWorker 1 WRecv ].

(** The ticks of the fourth, sixth and eighth second, every one idle. *)
Definition idle_ticks : list (Action Z) :=
  [ AElapse second; AScaler STick; AScaler SLoad;
    AElapse (2 * second); AScaler STick; AScaler SLoad;
    AElapse (2 * second); AScaler STick; AScaler SLoad ].

(** Both work functions run for six seconds, one second more than the
    idle timeout; the second worker returns at the ninth second. *)
Definition long_work_schedule : list (Action Z) :=
  busy_schedule ++ idle_ticks ++ [ AElapse second; AWorker 1 WReturn ].

(** Both work functions return at once; the idle timers of both workers
    fire together at the eighth second and both workers test the count
    before either decrements it; a third item arrives afterwards and the
    input is closed. *)
Definition race_schedule : list (Action Z) :=
  busy_schedule ++ [ AWorker 0 WReturn; AWorker 1 WReturn ] ++ idle_ticks ++
  [ AWorker 0 WTimer; AWorker 1 WTimer;
    AWorker 0 WDecrement; AWorker 1 WDecrement;
    AWorker 0 WWgDone; AWorker 1 WWgDone;
    AElapse second; AProduce 9; ACloseInput;
    AStart BRecv; AStart BSend; AStart BRecv;
    AStart BCloseQueue; AStart BWaitReturn ].

(** [Stop] is called while the input still holds an item; [readChan]
    returns at its outer [select] and [Start] goes on. *)
Definition stop_schedule : list (Action Z) :=
  [ AStop; AStart BCtxDone; AStart BCloseQueue ].

(** The input is closed and empty from the start: [readChan] returns,
    [Start] closes the queue and the only worker leaves. *)
Definition drain_schedule : list (Action Z) :=
  [ AWorker 0 WBegin; AStart BRecv; AStart BCloseQueue;
    AWorker 0 WRecv; AWorker 0 WDecrement ].

(** A pool of one to five workers with a queue of two slots and a
    threshold of 100 per cent; the scaling loop has started, two items
    have arrived and were relayed while no worker has run yet, and the
    first tick is due. *)
Definition full_queue_schedule : list (Action Z) :=
  [ AScaler SBegin; AProduce 7; AProduce 8;
    AStart BRecv; AStart BSend; AStart BRecv; AStart BSend; AElapse (2 * second) ].

(** The scaling loop of the small pool has started and its first tick is
    due; the queue is empty. *)
Definition first_tick_schedule : list (Action Z) :=
  [ AScaler SBegin; AElapse (2 * second) ].

(** Two workers, no more; the input holds two items and is closed.  Each
    worker takes one item; the second worker returns from the work function
    before the first. *)
Definition two_workers_schedule : list (Action Z) :=
  [ AWorker 0 WBegin; AWorker 1 WBegin;
    AStart BRecv; AStart BSend; AStart BRecv; AStart BSend;
    AWorker 0 WRecv; AWorker 1 WRecv; AWorker 1 WReturn; AWorker 0 WReturn;
    AStart BRecv; AStart BCloseQueue;
    AWorker 0 WRecv; AWorker 1 WRecv;
    AWorker 0 WDecrement; AWorker 1 WDecrement;
    AWorker 0 WWgDone; AWorker 1 WWgDone; AStart BWaitReturn ].

(** A map with two entries. *)
Definition two_entries : SafeMap Z Z := apply_ops [OpSet 1 10; OpSet 2 20].

(** A NaN of [float64]. *)
Definition NaN : float64 := S754_nan.

(** The map after two [Set]s of a NaN. *)
Definition nan_map : SafeMap float64 Z := apply_ops [OpSet NaN 1; OpSet NaN 2].

(** A callback that adds up the values. *)
Definition add_up {KEY : Type} (k : KEY) (v n : Z) : Z * bool := (n + v, true).

(** ** Notions used in the proofs about rounding *)

(** Bits were lost by the right shifts recorded in [r]. *)
Definition inexact (r : shr_record) : bool := shr_r r || shr_s r.

(** [f] is zero or positive and its value is at most the integer [B]. *)
Definition le_int (f : spec_float) (B : Z) : Prop :=
  match f with
  | S754_zero _ => True
  | S754_finite false m e => e <= 0 /\ Z.pos m <= B * 2 ^ (- e)
  | _ => False
  end.

(** * Facts *)

(** ** Rounding in binary64 *)

Lemma digits2_pos_size p : digits2_pos p = Pos.size p.
Proof. induction p; simpl; congruence. Qed.

Lemma Zdigits2_bounds p :
  2 ^ (Z.pos (digits2_pos p) - 1) <= Z.pos p < 2 ^ Z.pos (digits2_pos p).
Proof.
  rewrite digits2_pos_size. split.
  - pose proof (Pos.size_le p) as Hle.
    assert (Z.pos (2 ^ Pos.size p) <= Z.pos (p~0)) by exact Hle.
    rewrite Pos2Z.inj_pow in H.
    replace (Z.pos (Pos.size p)) with (Z.succ (Z.pos (Pos.size p) - 1)) in H by lia.
    rewrite Z.pow_succ_r in H by lia. lia.
  - pose proof (Pos.size_gt p) as Hgt.
    assert (Z.pos p < Z.pos (2 ^ Pos.size p)) by exact Hgt.
    now rewrite Pos2Z.inj_pow in H.
Qed.

Lemma Zdigits2_le m n : 0 <= m -> 0 <= n -> m < 2 ^ n -> Zdigits2 m <= n.
Proof.
  intros Hm Hn Hlt. destruct m as [|p|p]; simpl; [lia| |lia].
  destruct (Z_le_gt_dec (Z.pos (digits2_pos p)) n) as [|Hgt]; [assumption|exfalso].
  pose proof (Zdigits2_bounds p) as [Hlo _].
  assert (2 ^ n <= 2 ^ (Z.pos (digits2_pos p) - 1)) by (apply Z.pow_le_mono_r; lia).
  lia.
Qed.

Lemma shr_1_m r : 0 <= shr_m r -> shr_m (shr_1 r) = shr_m r / 2.
Proof.
  destruct r as [m b s]; simpl. intros Hm.
  destruct m as [|[p|p|]|p]; simpl; try lia.
  - reflexivity.
  - change (Z.pos p~1) with (2 * Z.pos p + 1). apply Z.div_unique with 1; lia.
  - change (Z.pos p~0) with (2 * Z.pos p). apply Z.div_unique with 0; lia.
  - reflexivity.
Qed.

Lemma shr_1_inexact r :
  0 <= shr_m r -> inexact (shr_1 r) = inexact r || Z.odd (shr_m r).
Proof.
  destruct r as [m b s]; unfold inexact; simpl. intros Hm.
  destruct m as [|[p|p|]|p]; simpl; try lia; destruct b, s; reflexivity.
Qed.

Lemma nat_iter_shift {A} (f : A -> A) n x : Nat.iter n f (f x) = f (Nat.iter n f x).
Proof. induction n; simpl; congruence. Qed.

Lemma iter_pos_nat {A} (f : A -> A) p x :
  SpecFloat.iter_pos f p x = Nat.iter (Pos.to_nat p) f x.
Proof.
  revert x. induction p as [p IH|p IH|]; intros x; cbn [SpecFloat.iter_pos].
  - rewrite !IH, Pos2Nat.inj_xI.
    replace (S (2 * Pos.to_nat p)) with (S (Pos.to_nat p + Pos.to_nat p))%nat by lia.
    rewrite !nat_iter_shift.
    change (Nat.iter (S (Pos.to_nat p + Pos.to_nat p)) f x)
      with (f (Nat.iter (Pos.to_nat p + Pos.to_nat p) f x)).
    now rewrite Nat.iter_add.
  - rewrite !IH, Pos2Nat.inj_xO.
    replace (2 * Pos.to_nat p)%nat with (Pos.to_nat p + Pos.to_nat p)%nat by lia.
    now rewrite Nat.iter_add.
  - reflexivity.
Qed.

Lemma shr_iter n r :
  0 <= shr_m r ->
  let r' := Nat.iter n shr_1 r in
  shr_m r' = shr_m r / 2 ^ Z.of_nat n /\
  inexact r' = inexact r || negb (shr_m r mod 2 ^ Z.of_nat n =? 0).
Proof.
  intros Hm. induction n as [|n [IHm IHi]]; simpl.
  - split; [now rewrite Z.div_1_r|]. rewrite Z.mod_1_r. simpl. now rewrite orb_false_r.
  - assert (H0 : 0 <= shr_m (Nat.iter n shr_1 r)).
    { rewrite IHm. apply Z.div_pos; lia. }
    rewrite shr_1_m, shr_1_inexact by assumption.
    rewrite IHm, IHi.
    replace (2 ^ Z.of_nat (S n)) with (2 ^ Z.of_nat n * 2) by (rewrite Nat2Z.inj_succ, Z.pow_succ_r; lia).
    assert (Hp : 0 < 2 ^ Z.of_nat n) by (apply Z.pow_pos_nonneg; lia).
    split.
    + rewrite Z.div_div by lia. reflexivity.
    + rewrite <- orb_assoc. f_equal.
      set (m := shr_m r) in *. set (P := 2 ^ Z.of_nat n) in *.
      pose proof (Z.div_mod m P ltac:(lia)) as Hdm.
      pose proof (Z.mod_pos_bound m P Hp) as Hb.
      rewrite (Z.rem_mul_r m P 2) by lia.
      pose proof (Z.mod_pos_bound (m / P) 2 ltac:(lia)) as Hb2.
      rewrite <- Z.negb_even, Zeven_mod.
      destruct (Z.eqb_spec (m mod P) 0), (Z.eqb_spec ((m / P) mod 2) 0), (Z.eqb_spec (m mod P + P * ((m / P) mod 2)) 0); simpl; try reflexivity; try nia.
Qed.

Lemma shr_spec r e n :
  0 <= shr_m r ->
  exists r', shr r e n = (r', e + Z.max 0 n) /\
    shr_m r' = shr_m r / 2 ^ Z.max 0 n /\
    inexact r' = inexact r || negb (shr_m r mod 2 ^ Z.max 0 n =? 0).
Proof.
  intros Hm. destruct n as [|p|p]; cbn [shr].
  - exists r. rewrite Z.max_id, Z.add_0_r, Z.pow_0_r, Z.div_1_r, Z.mod_1_r.
    cbn. now rewrite orb_false_r.
  - exists (SpecFloat.iter_pos shr_1 p r).
    rewrite Z.max_r by lia. split; [reflexivity|].
    rewrite iter_pos_nat. rewrite <- (positive_nat_Z p).
    now apply shr_iter.
  - exists r. rewrite Z.max_l by lia. rewrite Z.add_0_r, Z.pow_0_r, Z.div_1_r, Z.mod_1_r.
    cbn. now rewrite orb_false_r.
Qed.

Lemma shr_record_of_loc_m m l : shr_m (shr_record_of_loc m l) = m.
Proof. destruct l as [|[]]; reflexivity. Qed.

Lemma loc_of_exact r : inexact r = false -> loc_of_shr_record r = loc_Exact.
Proof. destruct r as [m [] []]; cbn; congruence. Qed.

Lemma round_nearest_even_bounds m l :
  m <= round_nearest_even m l <= m + 1.
Proof. destruct l as [|[]]; cbn; try destruct (Z.even m); lia. Qed.

Lemma fexp_eq e : fexp prec emax e = Z.max (e - 53) (-1074).
Proof. reflexivity. Qed.

Lemma shr_fexp_spec m e l :
  0 <= m ->
  exists r', shr_fexp prec emax m e l =
               (r', e + Z.max 0 (fexp prec emax (Zdigits2 m + e) - e)) /\
    shr_m r' = m / 2 ^ Z.max 0 (fexp prec emax (Zdigits2 m + e) - e) /\
    inexact r' = inexact (shr_record_of_loc m l)
                 || negb (m mod 2 ^ Z.max 0 (fexp prec emax (Zdigits2 m + e) - e) =? 0).
Proof.
  intros Hm. unfold shr_fexp.
  destruct (shr_spec (shr_record_of_loc m l) e (fexp prec emax (Zdigits2 m + e) - e))
    as (r' & Hs & Hm' & Hi).
  { now rewrite shr_record_of_loc_m. }
  rewrite shr_record_of_loc_m in Hm', Hi. eauto.
Qed.

(** One shift: a mantissa below [B * 2 ^ -e] stays below the bound at the
    new exponent. *)
Lemma shift_le m e B K :
  0 <= m -> 0 <= K -> K <= - e -> m <= B * 2 ^ (- e) ->
  m / 2 ^ K <= B * 2 ^ (- (e + K)) /\
  (m / 2 ^ K = B * 2 ^ (- (e + K)) -> m = B * 2 ^ (- e) /\ m mod 2 ^ K = 0).
Proof.
  intros Hm HK HKe Hle.
  assert (Hp : 0 < 2 ^ K) by (apply Z.pow_pos_nonneg; lia).
  assert (Hsplit : 2 ^ (- e) = 2 ^ (- (e + K)) * 2 ^ K).
  { rewrite <- Z.pow_add_r by lia. f_equal. lia. }
  pose proof (Z.div_mod m (2 ^ K) ltac:(lia)) as Hdm.
  pose proof (Z.mod_pos_bound m (2 ^ K) Hp) as Hb.
  set (C := B * 2 ^ (- (e + K))) in *.
  assert (HC : B * 2 ^ (- e) = C * 2 ^ K) by (unfold C; rewrite Hsplit; ring).
  rewrite HC in *.
  split.
  - apply Z.div_le_upper_bound; lia.
  - intros Heq. rewrite Heq in Hdm. nia.
Qed.

Lemma kshift_bound m e B :
  0 <= m -> e <= 0 -> 0 <= B < 2 ^ 53 -> m <= B * 2 ^ (- e) ->
  Z.max 0 (fexp prec emax (Zdigits2 m + e) - e) <= - e.
Proof.
  intros Hm He HB Hle. rewrite fexp_eq.
  assert (Hd : Zdigits2 m <= 53 - e).
  { apply Zdigits2_le; [lia|lia|].
    assert (0 < 2 ^ (- e)) by (apply Z.pow_pos_nonneg; lia).
    replace (53 - e) with (53 + - e) by lia. rewrite Z.pow_add_r by lia. nia. }
  lia.
Qed.

Lemma binary_round_aux_le mx ex lx B :
  0 <= mx -> ex <= 0 -> 0 <= B < 2 ^ 53 -> mx <= B * 2 ^ (- ex) ->
  (mx = B * 2 ^ (- ex) -> lx = loc_Exact) ->
  le_int (binary_round_aux prec emax false mx ex lx) B.
Proof.
  intros Hmx Hex HB Hle Hexact. unfold binary_round_aux.
  destruct (shr_fexp_spec mx ex lx Hmx) as (r1 & -> & Hm1 & Hi1).
  set (K1 := Z.max 0 (fexp prec emax (Zdigits2 mx + ex) - ex)) in *.
  assert (HK1 : K1 <= - ex) by (apply kshift_bound with B; assumption).
  assert (HK1' : 0 <= K1) by (unfold K1; lia).
  destruct (shift_le mx ex B K1 Hmx HK1' HK1 Hle) as [Hle1 Heq1].
  rewrite <- Hm1 in Hle1, Heq1.
  set (mr := round_nearest_even (shr_m r1) (loc_of_shr_record r1)).
  assert (Hm1pos : 0 <= shr_m r1).
  { rewrite Hm1. apply Z.div_pos; [lia|]. apply Z.pow_pos_nonneg; lia. }
  assert (Hmr : shr_m r1 <= mr <= B * 2 ^ (- (ex + K1))).
  { pose proof (round_nearest_even_bounds (shr_m r1) (loc_of_shr_record r1)) as Hb.
    fold mr in Hb. split; [lia|].
    destruct (Z.eq_dec (shr_m r1) (B * 2 ^ (- (ex + K1)))) as [Heq|Hne]; [|lia].
    destruct (Heq1 Heq) as [Hmxeq Hmod].
    assert (Hin : inexact r1 = false).
    { rewrite Hi1, (Hexact Hmxeq), Hmod. reflexivity. }
    unfold mr. rewrite (loc_of_exact _ Hin). cbn. lia. }
  destruct (shr_fexp_spec mr (ex + K1) loc_Exact ltac:(lia)) as (r2 & -> & Hm2 & _).
  set (K2 := Z.max 0 (fexp prec emax (Zdigits2 mr + (ex + K1)) - (ex + K1))) in *.
  assert (HK2 : K2 <= - (ex + K1)) by (apply kshift_bound with B; lia).
  assert (HK2' : 0 <= K2) by (unfold K2; lia).
  destruct (shift_le mr (ex + K1) B K2 ltac:(lia) HK2' HK2 ltac:(lia)) as [Hle2 _].
  rewrite <- Hm2 in Hle2.
  assert (Hm2pos : 0 <= shr_m r2).
  { rewrite Hm2. apply Z.div_pos; [lia|]. apply Z.pow_pos_nonneg; lia. }
  destruct (shr_m r2) as [|m2|m2] eqn:E2; [exact I| |lia].
  replace (ex + K1 + K2 <=? emax - prec) with true
    by (symmetry; apply Z.leb_le; unfold emax, prec; lia).
  cbn. split; [lia|assumption].
Qed.

Lemma Zdigits2_unique x d :
  2 ^ (d - 1) <= x < 2 ^ d -> 1 <= d -> Zdigits2 x = d.
Proof.
  intros [Hlo Hhi] Hd.
  assert (0 < 2 ^ (d - 1)) by (apply Z.pow_pos_nonneg; lia).
  destruct x as [|p|p]; try lia. cbn.
  pose proof (Zdigits2_bounds p) as [Hlo' Hhi'].
  set (n := Z.pos (digits2_pos p)) in *.
  destruct (Z_lt_le_dec n d) as [Hlt|Hge].
  - assert (2 ^ n <= 2 ^ (d - 1)) by (apply Z.pow_le_mono_r; lia). lia.
  - destruct (Z_lt_le_dec d n) as [Hlt|Hle]; [|lia].
    assert (2 ^ d <= 2 ^ (n - 1)) by (apply Z.pow_le_mono_r; lia). lia.
Qed.

Lemma Zdigits2_mul_pow2 m k :
  0 <= k -> Zdigits2 (Z.pos m * 2 ^ k) = Z.pos (digits2_pos m) + k.
Proof.
  intros Hk. pose proof (Zdigits2_bounds m) as [Hlo Hhi].
  assert (0 < 2 ^ k) by (apply Z.pow_pos_nonneg; lia).
  apply Zdigits2_unique; [|lia]. split.
  - replace (Z.pos (digits2_pos m) + k - 1) with (Z.pos (digits2_pos m) - 1 + k) by lia.
    rewrite Z.pow_add_r by lia. nia.
  - rewrite Z.pow_add_r by lia. nia.
Qed.

(** A mantissa of 53 digits times a power of two is representable: the
    rounding only renormalises it. *)
Lemma binary_round_aux_exact sx m k ex :
  digits2_pos m = 53%positive -> 0 <= k -> -1074 <= ex + k <= 971 ->
  binary_round_aux prec emax sx (Z.pos m * 2 ^ k) ex loc_Exact = S754_finite sx m (ex + k).
Proof.
  intros Hd Hk Hrange.
  assert (Hp : 0 < 2 ^ k) by (apply Z.pow_pos_nonneg; lia).
  unfold binary_round_aux.
  destruct (shr_fexp_spec (Z.pos m * 2 ^ k) ex loc_Exact ltac:(lia)) as (r1 & -> & Hm1 & Hi1).
  rewrite Zdigits2_mul_pow2, Hd, fexp_eq in Hm1, Hi1 |- * by assumption.
  replace (Z.max 0 (Z.max (53 + k + ex - 53) (-1074) - ex)) with k in * by lia.
  rewrite Z.div_mul in Hm1 by lia.
  rewrite Z.mod_mul in Hi1 by lia. cbn in Hi1.
  rewrite (loc_of_exact _ Hi1), Hm1. cbn [round_nearest_even].
  destruct (shr_fexp_spec (Z.pos m) (ex + k) loc_Exact ltac:(lia)) as (r2 & -> & Hm2 & _).
  cbn [Zdigits2] in Hm2 |- *. rewrite Hd, fexp_eq in Hm2 |- *.
  replace (Z.max 0 (Z.max (53 + (ex + k) - 53) (-1074) - (ex + k))) with 0 in * by lia.
  rewrite Z.pow_0_r, Z.div_1_r in Hm2. rewrite Hm2, Z.add_0_r.
  replace (ex + k <=? emax - prec) with true
    by (symmetry; apply Z.leb_le; unfold emax, prec; lia).
  reflexivity.
Qed.

Lemma pos_iter_xO p q :
  Z.pos (Pos.iter xO p q) = Z.pos p * 2 ^ Z.pos q /\
  digits2_pos (Pos.iter xO p q) = (digits2_pos p + q)%positive.
Proof.
  induction q as [|q [IH1 IH2]] using Pos.peano_ind.
  - cbn [Pos.iter]. split; [rewrite Pos2Z.inj_xO; lia|cbn; lia].
  - rewrite Pos.iter_succ. split.
    + rewrite Pos2Z.inj_xO, IH1, Pos2Z.inj_succ, Z.pow_succ_r by lia. ring.
    + cbn [digits2_pos]. rewrite IH2. lia.
Qed.

(** [float64(z)] for a nonzero [z] below [2 ^ 53] in magnitude: the sign,
    a mantissa of 53 digits and the exponent that makes the value [z]. *)
Lemma binary_round_int s p :
  Z.pos p < 2 ^ 53 ->
  exists m e, binary_round prec emax s p 0 = S754_finite s m e /\
    digits2_pos m = 53%positive /\ -52 <= e <= 0 /\ Z.pos m = Z.pos p * 2 ^ (- e).
Proof.
  intros Hlt. unfold binary_round, shl_align.
  assert (Hd : 1 <= Z.pos (digits2_pos p) <= 53).
  { split; [lia|]. change (Zdigits2 (Z.pos p) <= 53). apply Zdigits2_le; lia. }
  rewrite fexp_eq.
  replace (Z.max (Z.pos (digits2_pos p) + 0 - 53) (-1074) - 0)
    with (Z.pos (digits2_pos p) - 53) by lia.
  replace (Z.max (Z.pos (digits2_pos p) + 0 - 53) (-1074))
    with (Z.pos (digits2_pos p) - 53) by lia.
  destruct (Z.pos (digits2_pos p) - 53) as [|q|q] eqn:E; [|lia|].
  - exists p, 0.
    assert (Hx : binary_round_aux prec emax s (Z.pos p) 0 loc_Exact = S754_finite s p 0).
    { pose proof (binary_round_aux_exact s p 0 0) as Hx.
      rewrite Z.pow_0_r, Z.mul_1_r, Z.add_0_r in Hx. apply Hx; lia. }
    rewrite Hx. repeat split; try lia.
  - destruct (pos_iter_xO p q) as [Hv Hdig].
    exists (Pos.iter xO p q), (Z.neg q).
    assert (Hdig' : digits2_pos (Pos.iter xO p q) = 53%positive) by lia.
    assert (Hx : binary_round_aux prec emax s (Z.pos (Pos.iter xO p q)) (Z.neg q) loc_Exact
                 = S754_finite s (Pos.iter xO p q) (Z.neg q)).
    { pose proof (binary_round_aux_exact s (Pos.iter xO p q) 0 (Z.neg q) Hdig') as Hx.
      rewrite Z.pow_0_r, Z.mul_1_r, Z.add_0_r in Hx. apply Hx; lia. }
    rewrite Hx. repeat split; try lia. rewrite Hv. reflexivity.
Qed.

Lemma float64_of_int32_pos z :
  0 < z < 2 ^ 53 ->
  exists m e, float64_of_int32 z = S754_finite false m e /\
    digits2_pos m = 53%positive /\ -52 <= e <= 0 /\ Z.pos m = z * 2 ^ (- e).
Proof.
  intros [Hz Hlt]. destruct z as [|p|p]; try lia.
  exact (binary_round_int false p Hlt).
Qed.

Lemma float64_of_int32_neg z :
  - 2 ^ 53 < z < 0 ->
  exists m e, float64_of_int32 z = S754_finite true m e /\
    digits2_pos m = 53%positive /\ -52 <= e <= 0 /\ Z.pos m = - z * 2 ^ (- e).
Proof.
  intros [Hz Hlt]. destruct z as [|p|p]; try lia.
  apply (binary_round_int true p). lia.
Qed.

Lemma trunc_exact (s : bool) m e z :
  -52 <= e <= 0 -> Z.pos m = z * 2 ^ (- e) ->
  float64_trunc (S754_finite s m e) = Some (cond_Zopp s z).
Proof.
  intros He Hm. cbn [float64_trunc]. f_equal. f_equal.
  destruct (Z.ltb_spec e 0).
  - rewrite Hm. apply Z.div_mul. apply Z.pow_nonzero; lia.
  - replace e with 0 in * by lia. rewrite Hm. cbn. lia.
Qed.

Lemma int32_of_float64_of_int32 z :
  in_int32 z -> int32_of_float64 (float64_of_int32 z) = z.
Proof.
  unfold in_int32, min_int32, max_int32. intros Hz. unfold int32_of_float64.
  destruct (Z.lt_total z 0) as [Hneg|[->|Hpos]].
  - destruct (float64_of_int32_neg z ltac:(lia)) as (m & e & -> & _ & He & Hm).
    rewrite (trunc_exact true m e (- z) He Hm). cbn [cond_Zopp]. rewrite Z.opp_involutive.
    unfold min_int32, max_int32.
    destruct (Z.leb_spec (- 2 ^ 31) z), (Z.leb_spec z (2 ^ 31 - 1)); cbn; lia.
  - reflexivity.
  - destruct (float64_of_int32_pos z ltac:(lia)) as (m & e & -> & _ & He & Hm).
    rewrite (trunc_exact false m e z He Hm). cbn [cond_Zopp].
    unfold min_int32, max_int32.
    destruct (Z.leb_spec (- 2 ^ 31) z), (Z.leb_spec z (2 ^ 31 - 1)); cbn; lia.
Qed.

Lemma float64_one_eq : float64_one = S754_finite false (2 ^ 52) (-52).
Proof. reflexivity. Qed.

Lemma float64_mul_one_l z :
  - 2 ^ 53 < z < 2 ^ 53 ->
  float64_mul float64_one (float64_of_int32 z) = float64_of_int32 z.
Proof.
  intros Hz. rewrite float64_one_eq. unfold float64_mul.
  destruct (Z.lt_total z 0) as [Hneg|[->|Hpos]].
  - destruct (float64_of_int32_neg z ltac:(lia)) as (m & e & -> & Hd & He & _).
    cbn [SFmul xorb]. rewrite Pos.mul_comm, Pos2Z.inj_mul.
    change (Z.pos (2 ^ 52)) with (2 ^ 52).
    rewrite binary_round_aux_exact by (assumption || lia). f_equal. lia.
  - reflexivity.
  - destruct (float64_of_int32_pos z ltac:(lia)) as (m & e & -> & Hd & He & _).
    cbn [SFmul xorb]. rewrite Pos.mul_comm, Pos2Z.inj_mul.
    change (Z.pos (2 ^ 52)) with (2 ^ 52).
    rewrite binary_round_aux_exact by (assumption || lia). f_equal. lia.
Qed.

Lemma SFdiv_core_normal mx ex my ey :
  digits2_pos mx = 53%positive -> digits2_pos my = 53%positive ->
  -52 <= ex <= 0 -> -52 <= ey <= 0 ->
  SFdiv_core_binary prec emax (Z.pos mx) ex (Z.pos my) ey =
    (Z.pos mx * 2 ^ 53 / Z.pos my, ex - ey - 53,
     new_location (Z.pos my) ((Z.pos mx * 2 ^ 53) mod Z.pos my)).
Proof.
  intros Hdx Hdy Hex Hey. unfold SFdiv_core_binary. cbn [Zdigits2].
  rewrite Hdx, Hdy, fexp_eq.
  replace (Z.min (Z.max (53 + ex - (53 + ey) - 53) (-1074)) (ex - ey)) with (ex - ey - 53) by lia.
  replace (ex - ey - (ex - ey - 53)) with 53 by lia.
  rewrite Z.shiftl_mul_pow2 by lia.
  unfold Z.div, Z.modulo.
  destruct (Z.div_eucl (Z.pos mx * 2 ^ 53) (Z.pos my)) as [q r]. reflexivity.
Qed.

Lemma new_location_0 n : new_location n 0 = loc_Exact.
Proof. unfold new_location. destruct (Z.even n); reflexivity. Qed.

Lemma float64_quo_self z :
  z <> 0 -> - 2 ^ 53 < z < 2 ^ 53 ->
  float64_quo (float64_of_int32 z) (float64_of_int32 z) = Some float64_one.
Proof.
  intros Hnz Hz.
  assert (Hfin : exists s m e, float64_of_int32 z = S754_finite s m e /\
            digits2_pos m = 53%positive /\ -52 <= e <= 0).
  { destruct (Z.lt_total z 0) as [Hneg|[->|Hpos]]; [|lia|].
    - destruct (float64_of_int32_neg z ltac:(lia)) as (m & e & ? & ? & ? & _); eauto 7.
    - destruct (float64_of_int32_pos z ltac:(lia)) as (m & e & ? & ? & ? & _); eauto 7. }
  destruct Hfin as (s & m & e & -> & Hd & He).
  unfold float64_quo. f_equal. cbn [SFdiv].
  rewrite SFdiv_core_normal by assumption.
  rewrite Z.mul_comm, Z.div_mul, Z.mod_mul, new_location_0 by lia.
  replace (e - e - 53) with (-53) by lia.
  destruct s; reflexivity.
Qed.

(** [float64(E) / float64(M)] for [0 < E <= M] is at most one. *)
Lemma float64_quo_le_one E M :
  0 < E <= M -> M < 2 ^ 53 ->
  exists ratio, float64_quo (float64_of_int32 E) (float64_of_int32 M) = Some ratio /\
    le_int ratio 1.
Proof.
  intros [HE HEM] HM.
  destruct (float64_of_int32_pos E ltac:(lia)) as (mE & eE & -> & HdE & HeE & HmE).
  destruct (float64_of_int32_pos M ltac:(lia)) as (mM & eM & -> & HdM & HeM & HmM).
  eexists. split; [reflexivity|]. cbn [SFdiv xorb].
  rewrite SFdiv_core_normal by assumption.
  pose proof (Zdigits2_bounds mE) as [HloE HhiE].
  pose proof (Zdigits2_bounds mM) as [HloM HhiM].
  rewrite HdE in HloE, HhiE. rewrite HdM in HloM, HhiM.
  change (2 ^ (53 - 1)) with (2 ^ 52) in *.
  assert (Hee : eE <= eM).
  { destruct (Z_le_gt_dec eE eM) as [|Hgt]; [assumption|exfalso].
    assert (Hs : 2 ^ (- eM) = 2 ^ (- eE) * 2 ^ (eE - eM)).
    { rewrite <- Z.pow_add_r by lia. f_equal. lia. }
    assert (2 ^ 1 <= 2 ^ (eE - eM)) by (apply Z.pow_le_mono_r; lia).
    assert (0 < 2 ^ (- eE)) by (apply Z.pow_pos_nonneg; lia).
    rewrite Hs in HmM. change (2 ^ 1) with 2 in *. nia. }
  assert (Hs : 2 ^ (- eE) = 2 ^ (- eM) * 2 ^ (eM - eE)).
  { rewrite <- Z.pow_add_r by lia. f_equal. lia. }
  assert (Hp1 : 0 < 2 ^ (eM - eE)) by (apply Z.pow_pos_nonneg; lia).
  assert (Hp2 : 0 < 2 ^ (- eM)) by (apply Z.pow_pos_nonneg; lia).
  assert (Hbound : Z.pos mE * 2 ^ 53 <= Z.pos mM * (1 * 2 ^ (- (eE - eM - 53)))).
  { replace (- (eE - eM - 53)) with (53 + (eM - eE)) by lia.
    rewrite Z.pow_add_r by lia. rewrite HmE, HmM, Hs.
    assert (0 < 2 ^ 53) by (apply Z.pow_pos_nonneg; lia). nia. }
  pose proof (Z.div_mod (Z.pos mE * 2 ^ 53) (Z.pos mM) ltac:(lia)) as Hdm.
  pose proof (Z.mod_pos_bound (Z.pos mE * 2 ^ 53) (Z.pos mM) ltac:(lia)) as Hmb.
  apply binary_round_aux_le.
  - apply Z.div_pos; lia.
  - lia.
  - lia.
  - apply Z.div_le_upper_bound; lia.
  - intros Heq.
    replace ((Z.pos mE * 2 ^ 53) mod Z.pos mM) with 0; [apply new_location_0|].
    rewrite Heq in Hdm. nia.
Qed.

(** The product of a ratio that is at most one with [float64(R)] is at
    most [R]. *)
Lemma float64_mul_le ratio R :
  le_int ratio 1 -> 0 < R < 2 ^ 53 ->
  le_int (float64_mul ratio (float64_of_int32 R)) R.
Proof.
  intros Hr HR.
  destruct (float64_of_int32_pos R HR) as (mR & eR & -> & HdR & HeR & HmR).
  destruct ratio as [s| |  |[] mr er]; cbn in Hr; try contradiction.
  - exact I.
  - destruct Hr as [Her Hmr]. unfold float64_mul. cbn [SFmul xorb].
    assert (0 < 2 ^ (- eR)) by (apply Z.pow_pos_nonneg; lia).
    assert (0 < 2 ^ (- er)) by (apply Z.pow_pos_nonneg; lia).
    apply binary_round_aux_le; try lia.
    + rewrite Pos2Z.inj_mul, HmR.
      replace (- (er + eR)) with (- er + - eR) by lia. rewrite Z.pow_add_r by lia.
      nia.
    + intros _. reflexivity.
Qed.

Lemma int32_of_le_int f R :
  le_int f R -> 0 <= R <= max_int32 -> 0 <= int32_of_float64 f <= R.
Proof.
  unfold max_int32. intros Hf HR. unfold int32_of_float64.
  destruct f as [s| | |[] m e]; cbn in Hf; try contradiction.
  - change (0 <= 0 <= R). lia.
  - destruct Hf as [He Hm]. cbn [float64_trunc cond_Zopp].
    assert (Hp : 0 < 2 ^ (- e)) by (apply Z.pow_pos_nonneg; lia).
    set (z := if e <? 0 then Z.pos m / 2 ^ (- e) else Z.pos m * 2 ^ e).
    assert (Hz : 0 <= z <= R).
    { unfold z. destruct (Z.ltb_spec e 0).
      - split; [apply Z.div_pos; lia|apply Z.div_le_upper_bound; lia].
      - replace e with 0 in * by lia. cbn in *. lia. }
    unfold min_int32, max_int32.
    destruct (Z.leb_spec (- 2 ^ 31) z), (Z.leb_spec z (2 ^ 31 - 1)); cbn; lia.
Qed.

(** ** The constructor and the tick *)

Lemma wrap32_id z : in_int32 z -> wrap32 z = z.
Proof.
  unfold in_int32, wrap32, min_int32, max_int32. intros Hz.
  rewrite Z.mod_small by lia. lia.
Qed.

Lemma wrap32_range z : in_int32 (wrap32 z).
Proof.
  unfold in_int32, wrap32, min_int32, max_int32.
  pose proof (Z.mod_pos_bound (z - - 2 ^ 31) (2 ^ 32) ltac:(lia)). lia.
Qed.

Lemma newConfig_wf minWorkers maxWorkers queueSize scaleThreshold idleTimeout :
  in_int32 minWorkers -> in_int32 maxWorkers -> in_int32 queueSize ->
  wf_config (newConfig minWorkers maxWorkers queueSize scaleThreshold idleTimeout).
Proof.
  unfold in_int32, wf_config, newConfig, min_int32, max_int32,
    DefaultMinWorkers, DefaultMinQueueSize; cbn. lia.
Qed.

Lemma thresholdCount_exact c :
  wf_config c -> no_overflow c ->
  thresholdCount c = QueueSize c * ScaleThreshold c / 100 /\
  0 <= thresholdCount c <= QueueSize c.
Proof.
  unfold wf_config, no_overflow, thresholdCount, max_int32.
  intros (_ & _ & HQ & HS) Hno.
  rewrite wrap32_id by (unfold in_int32, min_int32, max_int32; nia).
  rewrite Z.quot_div_nonneg by nia. split; [reflexivity|]. split.
  - apply Z.div_pos; nia.
  - apply Z.div_le_upper_bound; nia.
Qed.

Lemma float64_of_int32_nonzero z :
  in_int32 z -> z <> 0 ->
  exists s m e, float64_of_int32 z = S754_finite s m e.
Proof.
  unfold in_int32, min_int32, max_int32. intros Hz Hnz.
  destruct (Z.lt_total z 0) as [Hneg|[->|Hpos]]; [|lia|].
  - destruct (float64_of_int32_neg z ltac:(lia)) as (m & e & ? & _); eauto.
  - destruct (float64_of_int32_pos z ltac:(lia)) as (m & e & ? & _); eauto.
Qed.

(** The division of the tick never has a zero divisor: [ratio] is always
    defined. *)
Lemma ratio_total c qLen : exists r, ratio c qLen = Some r.
Proof.
  unfold ratio.
  destruct (Z.eqb_spec (wrap32 (QueueSize c - thresholdCount c)) 0) as [|Hnz]; [eauto|].
  destruct (float64_of_int32_nonzero _ (wrap32_range (QueueSize c - thresholdCount c)) Hnz)
    as (s & m & e & ->).
  cbn. eauto.
Qed.

Lemma tick_total c qLen cur : exists t, tick c qLen cur = Some t.
Proof.
  unfold tick, potentialAdditional.
  destruct ((thresholdCount c <=? qLen) && (cur <? MaxWorkers c)); [|eauto].
  destruct (ratio_total c qLen) as [r ->]. cbn. eauto.
Qed.

(** With the queue full, the ratio is one whatever the threshold. *)
Lemma ratio_full c : ratio c (QueueSize c) = Some float64_one.
Proof.
  unfold ratio.
  destruct (Z.eqb_spec (wrap32 (QueueSize c - thresholdCount c)) 0) as [|Hnz]; [reflexivity|].
  pose proof (wrap32_range (QueueSize c - thresholdCount c)) as Hr.
  apply float64_quo_self; [assumption|].
  unfold in_int32, min_int32, max_int32 in Hr. lia.
Qed.

Lemma potentialAdditional_full c cur :
  in_int32 (MaxWorkers c - cur) ->
  potentialAdditional c (QueueSize c) cur = Some (MaxWorkers c - cur).
Proof.
  intros Hr. unfold potentialAdditional. rewrite ratio_full. cbn.
  rewrite (wrap32_id _ Hr), float64_mul_one_l, int32_of_float64_of_int32; [reflexivity|assumption|].
  unfold in_int32, min_int32, max_int32 in Hr. lia.
Qed.

(** Without overflow the truncated product lies between zero and the room
    left below the maximum. *)
Lemma potentialAdditional_bound c qLen cur :
  wf_config c -> no_overflow c ->
  thresholdCount c <= qLen <= QueueSize c -> 0 <= cur < MaxWorkers c ->
  exists p, potentialAdditional c qLen cur = Some p /\ 0 <= p <= MaxWorkers c - cur.
Proof.
  intros Hwf Hno Hq Hcur.
  destruct (thresholdCount_exact c Hwf Hno) as [_ Htc].
  destruct Hwf as (_ & HM & HQ & _). unfold max_int32 in *.
  assert (Hroom : in_int32 (MaxWorkers c - cur))
    by (unfold in_int32, min_int32, max_int32; lia).
  unfold potentialAdditional, ratio.
  rewrite (wrap32_id (qLen - thresholdCount c)),
    (wrap32_id (QueueSize c - thresholdCount c)), (wrap32_id _ Hroom)
    by (unfold in_int32, min_int32, max_int32; lia).
  destruct (Z.eqb_spec (QueueSize c - thresholdCount c) 0) as [Hz|Hnz].
  - cbn. rewrite float64_mul_one_l, int32_of_float64_of_int32 by (assumption || lia).
    eexists; split; [reflexivity|lia].
  - destruct (Z.eq_dec (qLen - thresholdCount c) 0) as [->|Hne].
    + destruct (float64_of_int32_pos (QueueSize c - thresholdCount c) ltac:(lia))
        as (mM & eM & -> & _).
      destruct (float64_of_int32_pos (MaxWorkers c - cur) ltac:(lia))
        as (mR & eR & -> & _).
      cbn. eexists; split; [reflexivity|]. change (0 <= 0 <= MaxWorkers c - cur). lia.
    + destruct (float64_quo_le_one (qLen - thresholdCount c) (QueueSize c - thresholdCount c)
                  ltac:(lia) ltac:(lia)) as (r & -> & Hr).
      cbn. eexists; split; [reflexivity|].
      apply int32_of_le_int; [|unfold max_int32; lia].
      apply float64_mul_le; [assumption|lia].
Qed.

(** The clamp of the tick: as long as [currentWorkers + additional] does
    not wrap around, the result is [max 1 p] capped by the room. *)
Lemma tick_spawn c qLen cur p :
  wf_config c -> thresholdCount c <= qLen -> 0 <= cur < MaxWorkers c ->
  potentialAdditional c qLen cur = Some p -> cur + Z.max 1 p <= max_int32 ->
  tick c qLen cur = Some (Spawn (Z.min (MaxWorkers c - cur) (Z.max 1 p))).
Proof.
  intros (_ & HM & _) Hq Hcur Hp Hfit. unfold tick. rewrite Hp.
  replace ((thresholdCount c <=? qLen) && (cur <? MaxWorkers c)) with true
    by (symmetry; apply andb_true_intro; split; [apply Z.leb_le|apply Z.ltb_lt]; lia).
  cbn. f_equal. f_equal.
  unfold max_int32 in *.
  rewrite (wrap32_id (cur + Z.max 1 p))
    by (unfold in_int32, min_int32, max_int32; lia).
  destruct (Z.gtb_spec (cur + Z.max 1 p) (MaxWorkers c)).
  - rewrite wrap32_id by (unfold in_int32, min_int32, max_int32; lia). lia.
  - lia.
Qed.

(** The two outcomes of a tick when the threshold product does not
    overflow: nothing below the threshold or at [MaxWorkers], otherwise
    [max 1 p] capped by the room, [p] being the truncated product. *)
Lemma tick_cases c qLen cur :
  wf_config c -> no_overflow c -> 0 <= qLen <= QueueSize c -> 0 <= cur ->
  (qLen < thresholdCount c \/ MaxWorkers c <= cur -> tick c qLen cur = Some Idle) /\
  (thresholdCount c <= qLen -> cur < MaxWorkers c ->
   exists p, potentialAdditional c qLen cur = Some p /\
     0 <= p <= MaxWorkers c - cur /\
     tick c qLen cur = Some (Spawn (Z.min (MaxWorkers c - cur) (Z.max 1 p)))).
Proof.
  intros Hwf Hno Hq Hcur. split.
  - intros Hidle. unfold tick.
    replace ((thresholdCount c <=? qLen) && (cur <? MaxWorkers c)) with false;
      [reflexivity|].
    symmetry. apply andb_false_iff.
    destruct Hidle; [left; apply Z.leb_gt|right; apply Z.ltb_ge]; lia.
  - intros Hhigh Hroom.
    destruct (potentialAdditional_bound c qLen cur Hwf Hno ltac:(lia) ltac:(lia))
      as (p & Hp & Hpb).
    pose proof Hwf as (_ & HM & _).
    exists p. repeat split; try assumption; try lia.
    apply tick_spawn; try assumption; lia.
Qed.

(** ** Claims about the constructor and the tick *)

(** Closes an arithmetic side condition about a concrete configuration. *)
Ltac config_arith :=
  unfold wf_config, no_overflow, in_int32, min_int32, max_int32 in *;
  cbn; unfold DefaultMinWorkers, DefaultMinQueueSize, DefaultIdleTimeout in *; lia.

(** C2, counterexample: the constructor raises [maxWorkers] to one, not to
    [MinWorkers]; called with [minWorkers = 5] and [maxWorkers = 2] it
    stores a maximum below the minimum. *)
Lemma NewAutoScaleWorkerPool_max_below_min :
  let p := NewAutoScaleWorkerPool 5 2 10 50 0 (mkChan ([] : list Z) false) in
  MinWorkers (cfg p) = 5 /\ MaxWorkers (cfg p) = 2 /\
  ~ MinWorkers (cfg p) <= MaxWorkers (cfg p).
Proof.
  cbv zeta. split; [reflexivity|]. split; [reflexivity|].
  change (~ 5 <= 2). lia.
Qed.

(** C2, amended: for every input the constructor returns a pool (it is a
    total function) whose configuration has [MinWorkers = max 1 minWorkers],
    [MaxWorkers = max 1 maxWorkers], which is at least one and is at least
    [MinWorkers] exactly when [minWorkers <= maxWorkers] or
    [minWorkers <= 1], [QueueSize = max 1 queueSize], [ScaleThreshold]
    clamped into 1..100 and [IdleTimeout] at least the default; the count
    starts at [MinWorkers], with as many workers started and registered. *)
Theorem NewAutoScaleWorkerPool_config {T : Type}
    (minWorkers maxWorkers queueSize scaleThreshold idleTimeout : Z) (input : Chan T) :
  let p := NewAutoScaleWorkerPool minWorkers maxWorkers queueSize scaleThreshold
             idleTimeout input in
  MinWorkers (cfg p) = Z.max 1 minWorkers /\
  MaxWorkers (cfg p) = Z.max 1 maxWorkers /\
  1 <= MaxWorkers (cfg p) /\
  (MinWorkers (cfg p) <= MaxWorkers (cfg p) <-> minWorkers <= maxWorkers \/ minWorkers <= 1) /\
  QueueSize (cfg p) = Z.max 1 queueSize /\
  1 <= ScaleThreshold (cfg p) <= 100 /\
  (1 <= scaleThreshold <= 100 -> ScaleThreshold (cfg p) = scaleThreshold) /\
  IdleTimeout (cfg p) = Z.max DefaultIdleTimeout idleTimeout /\
  DefaultIdleTimeout <= IdleTimeout (cfg p) /\
  CurrentWorkers p = MinWorkers (cfg p) /\
  WG p = MinWorkers (cfg p) /\
  Z.of_nat (length (workers p)) = MinWorkers (cfg p) /\
  Forall (fun w => pc w = WStart) (workers p).
Proof.
  cbn. unfold DefaultMinWorkers, DefaultMinQueueSize.
  rewrite length_replicate.
  repeat split; try lia.
  apply Forall_forall. intros w Hw.
  apply elem_of_replicate in Hw. destruct Hw as [-> _]. reflexivity.
Qed.

(** C3, counterexample: with a queue of 200 slots, a threshold of 50 per
    cent, 129 items queued, one worker and a maximum of 101, the ratio is
    29/100 and the room is 100; the rule in exact arithmetic gives 29, the
    code computes [0.29 * 100] in binary64, below 29, and adds 28. *)
Lemma tick_rounds_below_floor :
  let c := newConfig 1 101 200 50 0 in
  tick c 129 1 = Some (Spawn 28) /\ spec_added c 129 1 = 29.
Proof. split; vm_compute; reflexivity. Qed.

(** C3, amended: without [int32] overflow in the threshold, a tick adds
    nothing when [qLen < thresholdCount] or [cur >= MaxWorkers]; otherwise
    it adds [min (MaxWorkers - cur) (max 1 p)], where [p] is the binary64
    product [ratio * (MaxWorkers - cur)] truncated, which lies between zero
    and [MaxWorkers - cur], is zero at the threshold and is exactly
    [MaxWorkers - cur] when the queue is full. *)
Theorem tick_added (c : Config) (qLen cur : Z) :
  wf_config c -> no_overflow c -> 0 <= qLen <= QueueSize c -> 0 <= cur ->
  exists t, tick c qLen cur = Some t /\
    (qLen < thresholdCount c \/ MaxWorkers c <= cur -> t = Idle) /\
    (thresholdCount c <= qLen -> cur < MaxWorkers c ->
     exists p, potentialAdditional c qLen cur = Some p /\
       0 <= p <= MaxWorkers c - cur /\
       t = Spawn (Z.min (MaxWorkers c - cur) (Z.max 1 p)) /\
       (qLen = thresholdCount c -> thresholdCount c < QueueSize c -> p = 0) /\
       (qLen = QueueSize c -> p = MaxWorkers c - cur)).
Proof.
  intros Hwf Hno Hq Hcur.
  destruct (Z_lt_le_dec qLen (thresholdCount c)) as [Hlow|Hhigh].
  { exists Idle. unfold tick.
    replace (thresholdCount c <=? qLen) with false by (symmetry; apply Z.leb_gt; lia).
    cbn. split; [reflexivity|]. split; [intros _; reflexivity|intros; lia]. }
  destruct (Z_lt_le_dec cur (MaxWorkers c)) as [Hroom|Hfull].
  2:{ exists Idle. unfold tick.
      replace (cur <? MaxWorkers c) with false by (symmetry; apply Z.ltb_ge; lia).
      rewrite andb_false_r. split; [reflexivity|].
      split; [intros _; reflexivity|intros; lia]. }
  destruct (potentialAdditional_bound c qLen cur Hwf Hno ltac:(lia) ltac:(lia))
    as (p & Hp & Hpb).
  pose proof Hwf as (_ & HM & HQ & _).
  exists (Spawn (Z.min (MaxWorkers c - cur) (Z.max 1 p))). split; [|split].
  - apply tick_spawn; try assumption; lia.
  - intros [?|?]; lia.
  - intros _ _. exists p. repeat split; try assumption; try lia.
    + intros Heq Hlt. revert Hp. unfold potentialAdditional, ratio.
      rewrite Heq, Z.sub_diag.
      destruct (thresholdCount_exact c Hwf Hno) as [_ Htc]. unfold max_int32 in *.
      rewrite (wrap32_id 0), (wrap32_id (QueueSize c - thresholdCount c)),
        (wrap32_id (MaxWorkers c - cur))
        by (unfold in_int32, min_int32, max_int32; lia).
      replace (QueueSize c - thresholdCount c =? 0) with false
        by (symmetry; apply Z.eqb_neq; lia).
      destruct (float64_of_int32_pos (QueueSize c - thresholdCount c) ltac:(lia))
        as (mM & eM & -> & _).
      destruct (float64_of_int32_pos (MaxWorkers c - cur) ltac:(lia))
        as (mR & eR & -> & _).
      cbn. intros [= <-]. reflexivity.
    + intros ->. rewrite potentialAdditional_full in Hp.
      * now injection Hp as <-.
      * unfold in_int32, min_int32, max_int32 in *. lia.
Qed.

(** C3, an instance: the scenario of the specification, two workers, at
    most five, ten slots, fifty per cent, ten items queued; the tick adds
    three workers and brings the count to five. *)
Lemma tick_added_witness :
  let c := newConfig 2 5 10 50 DefaultIdleTimeout in
  (wf_config c /\ no_overflow c /\ 0 <= 10 <= QueueSize c /\ 0 <= 2) /\
  exists t, tick c 10 2 = Some t /\ 2 + added t = 5.
Proof.
  intros c.
  assert (Hwf : wf_config c) by (subst c; config_arith).
  assert (Hno : no_overflow c) by (subst c; config_arith).
  assert (Hq : 0 <= 10 <= QueueSize c) by (subst c; config_arith).
  split; [repeat split; try assumption; subst c; config_arith|].
  destruct (tick_added c 10 2 Hwf Hno Hq ltac:(lia)) as (t & Ht & _ & Hspawn).
  exists t. split; [assumption|].
  destruct (Hspawn ltac:(vm_compute; discriminate) ltac:(subst c; config_arith))
    as (p & _ & _ & -> & _ & Hfull).
  rewrite (Hfull eq_refl). reflexivity.
Defined.

(** ** SafeMap *)

Section SafeMapFacts.

Context `{Comparable KEY} {VALUE : Type} (zero : VALUE).

Implicit Types (m : SafeMap KEY VALUE) (ops : list (Op KEY VALUE))
  (d : list (KEY * VALUE)) (key k : KEY) (keys : list KEY).

(** Equal keys are equal to the same keys. *)
Lemma eqK_congr k1 k2 k3 : eqK k1 k2 = true → eqK k1 k3 = eqK k2 k3.
Proof.
  intros H12. destruct (eqK k1 k3) eqn:H13, (eqK k2 k3) eqn:H23; try reflexivity.
  - rewrite eqK_sym in H12. now rewrite (eqK_trans _ _ _ H12 H13) in H23.
  - now rewrite (eqK_trans _ _ _ H12 H23) in H13.
Qed.

Lemma eqK_refl_l k1 k2 : eqK k1 k2 = true → eqK k1 k1 = true.
Proof. intros H12. apply (eqK_trans _ _ _ H12). now rewrite eqK_sym. Qed.

Lemma mapaccess_cons k v d key :
  mapaccess ((k, v) :: d) key = if eqK k key then Some v else mapaccess d key.
Proof. unfold mapaccess. cbn. destruct (eqK k key); reflexivity. Qed.

Lemma mapaccess_mapassign d k v key :
  mapaccess (mapassign d k v) key = if eqK k key then Some v else mapaccess d key.
Proof.
  induction d as [|[k0 v0] d IH]; simpl mapassign.
  - rewrite mapaccess_cons. reflexivity.
  - destruct (eqK k0 k) eqn:H0.
    + rewrite !mapaccess_cons, (eqK_congr _ _ key H0). destruct (eqK k key); reflexivity.
    + rewrite !mapaccess_cons, IH. destruct (eqK k0 key) eqn:H0k; [|reflexivity].
      destruct (eqK k key) eqn:Hk; [|reflexivity].
      rewrite eqK_sym in Hk. rewrite (eqK_trans _ _ _ H0k Hk) in H0. discriminate.
Qed.

Lemma mapdelete_cons k v d key :
  mapdelete ((k, v) :: d) key
    = if eqK k key then mapdelete d key else (k, v) :: mapdelete d key.
Proof.
  unfold mapdelete. rewrite filter_cons. cbn.
  destruct (eqK k key); [rewrite decide_False by discriminate|rewrite decide_True by reflexivity];
    reflexivity.
Qed.

Lemma mapaccess_mapdelete d k key :
  mapaccess (mapdelete d k) key = if eqK k key then None else mapaccess d key.
Proof.
  induction d as [|[k0 v0] d IH].
  - cbn. destruct (eqK k key); reflexivity.
  - rewrite mapdelete_cons. destruct (eqK k0 k) eqn:H0.
    + rewrite IH, mapaccess_cons, (eqK_congr _ _ key H0). destruct (eqK k key); reflexivity.
    + rewrite !mapaccess_cons, IH. destruct (eqK k0 key) eqn:H0k; [|reflexivity].
      destruct (eqK k key) eqn:Hk; [|reflexivity].
      rewrite eqK_sym in Hk. rewrite (eqK_trans _ _ _ H0k Hk) in H0. discriminate.
Qed.

Lemma delete_loop_hashed d keys :
  delete_loop d keys = (foldl mapdelete d (hashed keys), forallb hashable keys).
Proof.
  revert d. induction keys as [|k keys IH]; intros d; cbn; [reflexivity|].
  destruct (hashable k); cbn; [apply IH|reflexivity].
Qed.

Lemma mapaccess_foldl_mapdelete d ks key :
  mapaccess (foldl mapdelete d ks) key
    = if existsb (λ k, eqK k key) ks then None else mapaccess d key.
Proof.
  revert d. induction ks as [|k ks IH]; intros d; cbn [foldl existsb]; [reflexivity|].
  rewrite IH, mapaccess_mapdelete.
  destruct (eqK k key), (existsb (λ k0, eqK k0 key) ks); reflexivity.
Qed.

Lemma mapaccess_Some d key v :
  mapaccess d key = Some v → ∃ k, (k, v) ∈ d ∧ eqK k key = true.
Proof.
  induction d as [|[k0 v0] d IH]; [discriminate|].
  rewrite mapaccess_cons. destruct (eqK k0 key) eqn:H0.
  - intros [= <-]. exists k0. split; [apply elem_of_cons; now left|assumption].
  - intros Hd. destruct (IH Hd) as (k & Hin & Hk). exists k. split; [|assumption].
    apply elem_of_cons. now right.
Qed.

Lemma mapaccess_None d key :
  mapaccess d key = None ↔ ∀ k v, (k, v) ∈ d → eqK k key = false.
Proof.
  induction d as [|[k0 v0] d IH].
  - split; [intros _ k v Hin; now apply elem_of_nil in Hin|reflexivity].
  - rewrite mapaccess_cons. destruct (eqK k0 key) eqn:H0.
    + split; [discriminate|]. intros Hall.
      rewrite (Hall k0 v0) in H0; [discriminate|apply elem_of_cons; now left].
    + rewrite IH. split.
      * intros Hall k v Hin. apply elem_of_cons in Hin as [[= -> ->]|Hin]; [assumption|].
        now apply (Hall k v).
      * intros Hall k v Hin. apply (Hall k v). apply elem_of_cons. now right.
Qed.

Lemma mapaccess_is_Some d key :
  is_Some (mapaccess d key) ↔ ∃ k v, (k, v) ∈ d ∧ eqK k key = true.
Proof.
  split.
  - intros [v Hv]. destruct (mapaccess_Some d key v Hv) as (k & Hin & Hk). eauto.
  - intros (k & v & Hin & Hk). destruct (mapaccess d key) eqn:Hd; [eauto|].
    rewrite mapaccess_None in Hd. rewrite (Hd k v Hin) in Hk. discriminate.
Qed.

Lemma length_mapassign d k v :
  length (mapassign d k v)
    = match mapaccess d k with Some _ => length d | None => S (length d) end.
Proof.
  induction d as [|[k0 v0] d IH]; [reflexivity|]. cbn. rewrite mapaccess_cons.
  destruct (eqK k0 k); [reflexivity|]. cbn. rewrite IH.
  destruct (mapaccess d k); reflexivity.
Qed.

Lemma elem_of_mapassign d k v k' v' :
  (k', v') ∈ mapassign d k v → (k', v') = (k, v) ∨ (k', v') ∈ d.
Proof.
  induction d as [|[k0 v0] d IH]; cbn.
  - intros Hin. apply list_elem_of_singleton in Hin. now left.
  - destruct (eqK k0 k).
    + intros Hin. apply elem_of_cons in Hin as [Hin|Hin]; [now left|].
      right. apply elem_of_cons. now right.
    + intros Hin. apply elem_of_cons in Hin as [Hin|Hin].
      * right. apply elem_of_cons. now left.
      * destruct (IH Hin) as [Heq|Hd]; [now left|]. right. apply elem_of_cons. now right.
Qed.

Lemma elem_of_mapdelete d k k' v' :
  (k', v') ∈ mapdelete d k ↔ (k', v') ∈ d ∧ eqK k' k = false.
Proof. unfold mapdelete. rewrite list_elem_of_filter. cbn. tauto. Qed.

Lemma distinct_mapassign d k v :
  distinct d.*1 → distinct (mapassign d k v).*1.
Proof.
  induction d as [|[k0 v0] d IH]; cbn.
  - intros _. split; [|exact I]. intros k' Hk'. now apply elem_of_nil in Hk'.
  - intros [Hk0 Hd]. destruct (eqK k0 k) eqn:H0; cbn.
    + split; [|assumption]. intros k' Hk'.
      rewrite <- (eqK_congr _ _ k' H0). now apply Hk0.
    + split; [|now apply IH]. intros k' Hk'.
      apply list_elem_of_fmap in Hk' as ([k1 v1] & -> & Hin). cbn.
      apply elem_of_mapassign in Hin as [[= -> ->]|Hin]; [assumption|].
      apply Hk0. now apply (list_elem_of_fmap_2 fst) in Hin.
Qed.

Lemma distinct_mapdelete d k : distinct d.*1 → distinct (mapdelete d k).*1.
Proof.
  induction d as [|[k0 v0] d IH]; [intros _; exact I|].
  cbn. intros [Hk0 Hd]. rewrite mapdelete_cons.
  destruct (eqK k0 k); [now apply IH|]. cbn. split; [|now apply IH].
  intros k' Hk'. apply list_elem_of_fmap in Hk' as ([k1 v1] & -> & Hin).
  apply elem_of_mapdelete in Hin as [Hin _]. apply Hk0.
  now apply (list_elem_of_fmap_2 fst) in Hin.
Qed.

Lemma wf_map_Set m key value : wf_map m → wf_map (after (Set_ m key value)).
Proof.
  intros [Hh Hd]. unfold Set_. destruct (hashable key) eqn:Hk; [|split; assumption].
  cbn. split; [|now apply distinct_mapassign].
  apply Forall_forall. intros [k' v'] Hin.
  apply elem_of_mapassign in Hin as [[= -> ->]|Hin]; [assumption|].
  apply (proj1 (Forall_forall _ _) Hh _ Hin).
Qed.

Lemma wf_map_foldl_mapdelete d ks :
  Forall (λ e, hashable e.1 = true) d → distinct d.*1 →
  Forall (λ e, hashable e.1 = true) (foldl mapdelete d ks) ∧
  distinct (foldl mapdelete d ks).*1.
Proof.
  revert d. induction ks as [|k ks IH]; intros d Hh Hd; [split; assumption|].
  cbn. apply IH; [|now apply distinct_mapdelete].
  apply Forall_forall. intros [k' v'] Hin. apply elem_of_mapdelete in Hin as [Hin _].
  apply (proj1 (Forall_forall _ _) Hh _ Hin).
Qed.

Lemma wf_map_Delete m keys : wf_map m → wf_map (after (Delete m keys)).
Proof.
  intros [Hh Hd]. unfold Delete, wf_map. cbn. rewrite delete_loop_hashed. cbn.
  now apply wf_map_foldl_mapdelete.
Qed.

Lemma wf_map_New (hint : list Z) : wf_map (NewSafeMap hint : SafeMap KEY VALUE).
Proof.
  unfold NewSafeMap. destruct hint as [|n ?]; [|destruct (0 <? n)]; split; cbn;
    try constructor; exact I.
Qed.

Lemma apply_ops_snoc ops o :
  apply_ops (ops ++ [o]) = apply_op (apply_ops ops) o.
Proof. unfold apply_ops. now rewrite foldl_app. Qed.

(** A map made by [NewSafeMap] and changed by the methods is well
    formed. *)
Lemma wf_map_apply_ops ops : wf_map (apply_ops ops).
Proof.
  induction ops as [|o ops IH] using rev_ind; [apply (wf_map_New [])|].
  rewrite apply_ops_snoc. destruct o; cbn; [now apply wf_map_Set|now apply wf_map_Delete].
Qed.

Lemma stored_snoc ops o key :
  stored (ops ++ [o]) key = stored_step key (stored ops key) o.
Proof. unfold stored. now rewrite foldl_app. Qed.

(** What a lookup finds in the map after a history. *)
Lemma mapaccess_apply_ops ops key :
  mapaccess (data (apply_ops ops)) key = stored ops key.
Proof.
  induction ops as [|o ops IH] using rev_ind; [reflexivity|].
  rewrite apply_ops_snoc, stored_snoc. destruct o as [k value|keys]; cbn [apply_op stored_step].
  - unfold Set_. destruct (hashable k); cbn [after data andb]; [|assumption].
    rewrite mapaccess_mapassign, IH. reflexivity.
  - unfold Delete. cbn [after data]. rewrite delete_loop_hashed. cbn [fst].
    rewrite mapaccess_foldl_mapdelete, IH. reflexivity.
Qed.

Lemma set_and_kept_nil key : ¬ set_and_kept ([] : list (Op KEY VALUE)) key.
Proof. intros (i & k & v & Hi & _). now rewrite lookup_nil in Hi. Qed.

Lemma set_and_kept_snoc_set ops k (value : VALUE) key :
  set_and_kept (ops ++ [OpSet k value]) key
    ↔ (hashable k = true ∧ eqK k key = true) ∨ set_and_kept ops key.
Proof.
  split.
  - intros (i & k0 & v & Hi & Hh & He & Hlater).
    destruct (decide (i < length ops)%nat) as [Hlt|Hge].
    + right. exists i, k0, v. rewrite lookup_app_l in Hi by assumption.
      split; [assumption|]. split; [assumption|]. split; [assumption|].
      intros j keys k' Hij Hj. apply (Hlater j keys k' Hij).
      rewrite lookup_app_l; [assumption|]. now apply lookup_lt_Some in Hj.
    + left. rewrite lookup_app_r in Hi by lia.
      destruct (i - length ops)%nat; cbn in Hi;
        [injection Hi as <- <-; auto|try rewrite lookup_nil in Hi; discriminate].
  - intros [[Hh He]|(i & k0 & v & Hi & Hh & He & Hlater)].
    + exists (length ops), k, value. split.
      * rewrite lookup_app_r, Nat.sub_diag by lia. reflexivity.
      * split; [assumption|]. split; [assumption|].
        intros j keys k' Hij Hj. apply lookup_lt_Some in Hj.
        rewrite length_app in Hj. cbn in Hj. lia.
    + exists i, k0, v. split.
      * rewrite lookup_app_l; [assumption|]. now apply lookup_lt_Some in Hi.
      * split; [assumption|]. split; [assumption|]. intros j keys k' Hij Hj.
        destruct (decide (j < length ops)%nat) as [Hlt|Hge].
        -- rewrite lookup_app_l in Hj by assumption. now apply (Hlater j keys).
        -- rewrite lookup_app_r in Hj by lia.
           destruct (j - length ops)%nat; cbn in Hj;
             [congruence|try rewrite lookup_nil in Hj; discriminate].
Qed.

Lemma set_and_kept_snoc_delete ops keys key :
  set_and_kept (ops ++ [OpDelete keys]) key
    ↔ set_and_kept ops key ∧ ∀ k', k' ∈ hashed keys → eqK k' key = false.
Proof.
  split.
  - intros (i & k0 & v & Hi & Hh & He & Hlater).
    destruct (decide (i < length ops)%nat) as [Hlt|Hge].
    + rewrite lookup_app_l in Hi by assumption. split.
      * exists i, k0, v. split; [assumption|]. split; [assumption|]. split; [assumption|].
        intros j keys' k' Hij Hj. apply (Hlater j keys' k' Hij).
        rewrite lookup_app_l; [assumption|]. now apply lookup_lt_Some in Hj.
      * intros k'. apply (Hlater (length ops) keys k' Hlt).
        rewrite lookup_app_r, Nat.sub_diag by lia. reflexivity.
    + rewrite lookup_app_r in Hi by lia.
      destruct (i - length ops)%nat; cbn in Hi;
        [congruence|try rewrite lookup_nil in Hi; discriminate].
  - intros [(i & k0 & v & Hi & Hh & He & Hlater) Hnin]. exists i, k0, v. split.
    + rewrite lookup_app_l; [assumption|]. now apply lookup_lt_Some in Hi.
    + split; [assumption|]. split; [assumption|]. intros j keys' k' Hij Hj.
      destruct (decide (j < length ops)%nat) as [Hlt|Hge].
      * rewrite lookup_app_l in Hj by assumption. now apply (Hlater j keys').
      * rewrite lookup_app_r in Hj by lia.
        destruct (j - length ops)%nat; cbn in Hj.
        -- injection Hj as <-. apply Hnin.
        -- try rewrite lookup_nil in Hj; discriminate.
Qed.

Lemma existsb_eqK_false keys key :
  existsb (λ k, eqK k key) keys = false ↔ ∀ k', k' ∈ keys → eqK k' key = false.
Proof.
  induction keys as [|k keys IH]; cbn.
  - split; [intros _ k' Hk'; now apply elem_of_nil in Hk'|reflexivity].
  - rewrite orb_false_iff, IH. split.
    + intros [Hk Hall] k' Hk'. apply elem_of_cons in Hk' as [->|Hk']; auto.
    + intros Hall. split; [apply Hall; now left|].
      intros k' Hk'. apply Hall. now right.
Qed.

Lemma existsb_eqK_true keys key :
  existsb (λ k, eqK k key) keys = true ↔ ∃ k', k' ∈ keys ∧ eqK k' key = true.
Proof.
  rewrite existsb_exists. split; intros (k' & Hin & Hk'); exists k';
    (split; [|assumption]).
  - now apply list_elem_of_In.
  - now apply list_elem_of_In.
Qed.

(** The keys set and kept are those under which the history leaves a
    value. *)
Lemma set_and_kept_stored ops key : set_and_kept ops key ↔ is_Some (stored ops key).
Proof.
  induction ops as [|o ops IH] using rev_ind.
  - split; [intros Hk; now apply set_and_kept_nil in Hk|intros [v Hv]; discriminate].
  - rewrite stored_snoc. destruct o as [k value|keys]; cbn [stored_step].
    + rewrite set_and_kept_snoc_set, IH.
      destruct (hashable k), (eqK k key); cbn [andb]; split; eauto;
        intros [[? ?]|?]; try discriminate; assumption.
    + rewrite set_and_kept_snoc_delete, IH.
      destruct (existsb (λ k, eqK k key) (hashed keys)) eqn:Hex.
      * split; [|intros [v Hv]; discriminate]. intros [_ Hall].
        apply (proj2 (existsb_eqK_false _ _)) in Hall. congruence.
      * pose proof (proj1 (existsb_eqK_false _ _) Hex). tauto.
Qed.

(** *** Counting the entries *)

Lemma irreflexive_entries_cons k v d :
  irreflexive_entries ((k, v) :: d)
    = if eqK k k then irreflexive_entries d else (k, v) :: irreflexive_entries d.
Proof.
  unfold irreflexive_entries. rewrite filter_cons. cbn.
  destruct (eqK k k); [rewrite decide_False by discriminate|rewrite decide_True by reflexivity];
    reflexivity.
Qed.

Lemma irreflexive_mapassign d k v :
  length (irreflexive_entries (mapassign d k v))
    = (length (irreflexive_entries d) + if eqK k k then 0 else 1)%nat.
Proof.
  induction d as [|[k0 v0] d IH]; simpl mapassign.
  - rewrite irreflexive_entries_cons. destruct (eqK k k); reflexivity.
  - destruct (eqK k0 k) eqn:H0.
    + rewrite !irreflexive_entries_cons.
      rewrite (eqK_refl_l _ _ H0).
      rewrite eqK_sym in H0. rewrite (eqK_refl_l _ _ H0). lia.
    + rewrite !irreflexive_entries_cons. destruct (eqK k0 k0); cbn [length]; rewrite IH; lia.
Qed.

Lemma irreflexive_mapdelete d k :
  irreflexive_entries (mapdelete d k) = irreflexive_entries d.
Proof.
  induction d as [|[k0 v0] d IH]; [reflexivity|].
  rewrite mapdelete_cons. destruct (eqK k0 k) eqn:H0.
  - rewrite irreflexive_entries_cons, (eqK_refl_l _ _ H0). assumption.
  - rewrite !irreflexive_entries_cons, IH. reflexivity.
Qed.

Lemma irreflexive_foldl_mapdelete d ks :
  irreflexive_entries (foldl mapdelete d ks) = irreflexive_entries d.
Proof.
  revert d. induction ks as [|k ks IH]; intros d; [reflexivity|].
  cbn [foldl]. now rewrite IH, irreflexive_mapdelete.
Qed.

Lemma irreflexive_sets_snoc ops o :
  irreflexive_sets (ops ++ [o])
    = (irreflexive_sets ops + if irreflexive_set o then 1 else 0)%nat.
Proof.
  unfold irreflexive_sets. rewrite filter_app, length_app, filter_cons, filter_nil.
  destruct (irreflexive_set o);
    [rewrite decide_True by reflexivity|rewrite decide_False by discriminate]; reflexivity.
Qed.

(** The entries with a key that is not equal to itself are as many as
    the [Set]s of such keys: none of them is ever replaced or deleted. *)
Lemma irreflexive_apply_ops ops :
  length (irreflexive_entries (data (apply_ops ops))) = irreflexive_sets ops.
Proof.
  induction ops as [|o ops IH] using rev_ind; [reflexivity|].
  rewrite apply_ops_snoc, irreflexive_sets_snoc.
  destruct o as [k value|keys]; cbn [apply_op irreflexive_set].
  - unfold Set_. destruct (hashable k); cbn [after data andb]; [|lia].
    rewrite irreflexive_mapassign, IH. destruct (eqK k k); reflexivity.
  - unfold Delete. cbn [after data]. rewrite delete_loop_hashed. cbn [fst].
    rewrite irreflexive_foldl_mapdelete, IH. lia.
Qed.

Lemma length_reflexive_irreflexive m :
  length (data m) = (length (reflexive_keys m) + length (irreflexive_entries (data m)))%nat.
Proof.
  unfold reflexive_keys. destruct m as [d]. cbn [data].
  induction d as [|[k v] d IH]; [reflexivity|].
  rewrite irreflexive_entries_cons. cbn [fmap list_fmap fst length].
  rewrite filter_cons. cbn [fst].
  destruct (eqK k k);
    [rewrite decide_True by reflexivity|rewrite decide_False by discriminate];
    cbn [length]; rewrite IH; lia.
Qed.

Lemma distinct_filter (P : KEY → Prop) `{∀ k, Decision (P k)} keys :
  distinct keys → distinct (filter P keys).
Proof.
  induction keys as [|k keys IH]; [intros _; exact I|].
  cbn [distinct]. intros [Hk Hd]. rewrite filter_cons.
  destruct (decide (P k)); [|now apply IH]. cbn [distinct]. split; [|now apply IH].
  intros k' Hk'. apply list_elem_of_filter in Hk' as [_ Hk']. now apply Hk.
Qed.

Lemma elem_of_reflexive_keys m key :
  (∃ k, k ∈ reflexive_keys m ∧ eqK k key = true) ↔ is_Some (mapaccess (data m) key).
Proof.
  rewrite mapaccess_is_Some. unfold reflexive_keys. split.
  - intros (k & Hin & Hk). apply list_elem_of_filter in Hin as [_ Hin].
    apply list_elem_of_fmap in Hin as ([k0 v] & -> & Hin). eauto.
  - intros (k & v & Hin & Hk). exists k. split; [|assumption].
    apply list_elem_of_filter. split; [now apply (eqK_refl_l k key)|].
    now apply (list_elem_of_fmap_2 fst) in Hin.
Qed.

(** *** More on [Delete] *)

Lemma foldl_mapdelete_nil ks : foldl mapdelete ([] : list (KEY * VALUE)) ks = [].
Proof. induction ks as [|k ks IH]; [reflexivity|]. cbn [foldl]. exact IH. Qed.

Lemma foldl_mapdelete_cons k0 (v0 : VALUE) d ks :
  foldl mapdelete ((k0, v0) :: d) ks
    = if existsb (eqK k0) ks then foldl mapdelete d ks
      else (k0, v0) :: foldl mapdelete d ks.
Proof.
  revert d. induction ks as [|k ks IH]; intros d; [reflexivity|].
  cbn [foldl existsb]. rewrite mapdelete_cons. destruct (eqK k0 k); cbn [orb].
  - reflexivity.
  - apply IH.
Qed.

Lemma elem_of_foldl_mapdelete d ks (e : KEY * VALUE) :
  e ∈ foldl mapdelete d ks ↔ e ∈ d ∧ existsb (eqK e.1) ks = false.
Proof.
  induction d as [|[k0 v0] d IH].
  - rewrite foldl_mapdelete_nil. split; [intros He; now apply elem_of_nil in He|].
    intros [He _]. now apply elem_of_nil in He.
  - rewrite foldl_mapdelete_cons. destruct (existsb (eqK k0) ks) eqn:Hex.
    + rewrite IH, elem_of_cons. split; [tauto|].
      intros [[->|He] He']; [cbn in He'; congruence|tauto].
    + rewrite !elem_of_cons, IH. split; [|tauto].
      intros [->|He]; [auto|tauto].
Qed.

Lemma foldl_mapdelete_ext d ks ks' :
  (∀ k v, (k, v) ∈ d → existsb (eqK k) ks = existsb (eqK k) ks') →
  foldl mapdelete d ks = foldl mapdelete d ks'.
Proof.
  induction d as [|[k0 v0] d IH]; intros Hsame.
  - now rewrite !foldl_mapdelete_nil.
  - rewrite !foldl_mapdelete_cons, <- (Hsame k0 v0) by (apply elem_of_cons; now left).
    rewrite IH; [reflexivity|]. intros k v Hin. apply (Hsame k v).
    apply elem_of_cons. now right.
Qed.

Lemma named_cons ks k0 (v0 : VALUE) d :
  named ks ((k0, v0) :: d)
    = if existsb (eqK k0) ks then (k0, v0) :: named ks d else named ks d.
Proof.
  unfold named. rewrite filter_cons. cbn [fst].
  destruct (existsb (eqK k0) ks);
    [rewrite decide_True by reflexivity|rewrite decide_False by discriminate]; reflexivity.
Qed.

Lemma length_foldl_mapdelete d ks :
  (length (foldl mapdelete d ks) + length (named ks d) = length d)%nat.
Proof.
  induction d as [|[k0 v0] d IH].
  - now rewrite foldl_mapdelete_nil.
  - rewrite foldl_mapdelete_cons, named_cons.
    destruct (existsb (eqK k0) ks); cbn [length]; lia.
Qed.

Lemma hashed_hashable keys : forallb hashable (hashed keys) = true.
Proof.
  induction keys as [|k keys IH]; [reflexivity|]. cbn.
  destruct (hashable k) eqn:Hk; [|reflexivity]. cbn. now rewrite Hk, IH.
Qed.

Lemma hashed_all keys : forallb hashable keys = true → hashed keys = keys.
Proof.
  induction keys as [|k keys IH]; [reflexivity|]. cbn.
  destruct (hashable k); [|discriminate]. cbn. intros Hall. now rewrite IH.
Qed.

Lemma hashed_app keys keys' :
  forallb hashable keys = true → hashed (keys ++ keys') = keys ++ hashed keys'.
Proof.
  induction keys as [|k keys IH]; [reflexivity|]. cbn.
  destruct (hashable k); [|discriminate]. cbn. intros Hall. now rewrite IH.
Qed.

Lemma mapdelete_id d k :
  (∀ k' v', (k', v') ∈ d → eqK k' k = false) → mapdelete d k = d.
Proof.
  induction d as [|[k0 v0] d IH]; intros Hall; [reflexivity|].
  rewrite mapdelete_cons, (Hall k0 v0) by (apply elem_of_cons; now left).
  rewrite IH; [reflexivity|]. intros k' v' Hin. apply (Hall k' v').
  apply elem_of_cons. now right.
Qed.

Lemma mapdelete_irreflexive d k : eqK k k = false → mapdelete d k = d.
Proof.
  intros Hk. apply mapdelete_id. intros k' v' _.
  destruct (eqK k' k) eqn:Hk'; [|reflexivity].
  rewrite eqK_sym in Hk'. rewrite (eqK_refl_l _ _ Hk') in Hk. discriminate.
Qed.

(** In a list of distinct keys no key after the first is equal to what
    the first is equal to. *)
Lemma distinct_head k0 (v0 : VALUE) d k :
  distinct ((k0, v0) :: d).*1 → eqK k0 k = true →
  ∀ k' v', (k', v') ∈ d → eqK k' k = false.
Proof.
  cbn. intros [Hk0 _] H0 k' v' Hin.
  destruct (eqK k' k) eqn:Hk'; [|reflexivity].
  rewrite eqK_sym in Hk'. rewrite <- (Hk0 k'), (eqK_trans _ _ _ H0 Hk'); [reflexivity|].
  now apply (list_elem_of_fmap_2 fst) in Hin.
Qed.

Lemma length_mapdelete d k :
  distinct d.*1 →
  (length (mapdelete d k) + match mapaccess d k with Some _ => 1 | None => 0 end
   = length d)%nat.
Proof.
  induction d as [|[k0 v0] d IH]; intros Hd; [reflexivity|].
  rewrite mapdelete_cons, mapaccess_cons. destruct (eqK k0 k) eqn:H0.
  - rewrite (mapdelete_id d k) by exact (distinct_head k0 v0 d k Hd H0). cbn [length]. lia.
  - cbn [length]. destruct Hd as [_ Hd]. specialize (IH Hd). lia.
Qed.

(** *** More on [Set] *)

Lemma mapassign_absent d k (v : VALUE) :
  (∀ k' v', (k', v') ∈ d → eqK k' k = false) → mapassign d k v = d ++ [(k, v)].
Proof.
  induction d as [|[k0 v0] d IH]; intros Hall; [reflexivity|].
  simpl mapassign. rewrite (Hall k0 v0) by (apply elem_of_cons; now left).
  rewrite IH; [reflexivity|]. intros k' v' Hin. apply (Hall k' v').
  apply elem_of_cons. now right.
Qed.

Lemma mapassign_irreflexive d k (v : VALUE) :
  eqK k k = false → mapassign d k v = d ++ [(k, v)].
Proof.
  intros Hk. apply mapassign_absent. intros k' v' _.
  destruct (eqK k' k) eqn:Hk'; [|reflexivity].
  rewrite eqK_sym in Hk'. rewrite (eqK_refl_l _ _ Hk') in Hk. discriminate.
Qed.

Lemma mapassign_mapassign d k k' (v v' : VALUE) :
  eqK k k' = true → mapassign (mapassign d k v) k' v' = mapassign d k' v'.
Proof.
  intros Hkk. induction d as [|[k0 v0] d IH]; simpl mapassign.
  - now rewrite Hkk.
  - destruct (eqK k0 k) eqn:H0; simpl mapassign.
    + now rewrite Hkk, (eqK_trans _ _ _ H0 Hkk).
    + assert (H0' : eqK k0 k' = false).
      { destruct (eqK k0 k') eqn:H0'; [|reflexivity].
        rewrite eqK_sym in Hkk. rewrite (eqK_trans _ _ _ H0' Hkk) in H0. discriminate. }
      now rewrite H0', IH.
Qed.

Lemma mapassign_comm d k k' (v v' : VALUE) :
  eqK k k' = false →
  mapassign (mapassign d k v) k' v' ≡ₚ mapassign (mapassign d k' v') k v.
Proof.
  intros Hkk. assert (Hkk' : eqK k' k = false) by now rewrite eqK_sym.
  induction d as [|[k0 v0] d IH]; simpl mapassign.
  - rewrite Hkk, Hkk'. apply perm_swap.
  - destruct (eqK k0 k) eqn:H0, (eqK k0 k') eqn:H0'; simpl mapassign;
      rewrite ?Hkk, ?Hkk', ?H0, ?H0'.
    + rewrite eqK_sym in H0. rewrite (eqK_trans _ _ _ H0 H0') in Hkk. discriminate.
    + reflexivity.
    + reflexivity.
    + now apply perm_skip.
Qed.

Lemma mapassign_id d k (v : VALUE) :
  distinct d.*1 → (k, v) ∈ d → eqK k k = true → mapassign d k v = d.
Proof.
  intros Hd Hin Hk. induction d as [|[k0 v0] d IH]; [now apply elem_of_nil in Hin|].
  simpl mapassign. apply elem_of_cons in Hin as [[= <- <-]|Hin].
  - now rewrite Hk.
  - destruct (eqK k0 k) eqn:H0.
    + rewrite (distinct_head k0 v0 d k Hd H0 k v Hin) in Hk. discriminate.
    + destruct Hd as [_ Hd]. now rewrite IH.
Qed.

Lemma mapdelete_mapassign d k (v : VALUE) :
  eqK k k = true → mapdelete (mapassign d k v) k = mapdelete d k.
Proof.
  intros Hk. induction d as [|[k0 v0] d IH]; simpl mapassign.
  - now rewrite mapdelete_cons, Hk.
  - destruct (eqK k0 k) eqn:H0.
    + now rewrite !mapdelete_cons, Hk, H0.
    + now rewrite !mapdelete_cons, H0, IH.
Qed.

Lemma mapassign_mapdelete d k (v : VALUE) :
  distinct d.*1 → mapassign (mapdelete d k) k v ≡ₚ mapassign d k v.
Proof.
  induction d as [|[k0 v0] d IH]; intros Hd; [reflexivity|].
  rewrite mapdelete_cons. simpl mapassign. destruct (eqK k0 k) eqn:H0.
  - pose proof (distinct_head k0 v0 d k Hd H0) as Hrest.
    rewrite (mapdelete_id d k Hrest), (mapassign_absent d k v Hrest).
    symmetry. apply Permutation_cons_append.
  - simpl mapassign. rewrite H0. apply perm_skip. apply IH. now destruct Hd.
Qed.

(** *** Lookups and the order of the entries *)

Lemma mapaccess_Some_iff d key (v : VALUE) :
  distinct d.*1 →
  mapaccess d key = Some v ↔ ∃ k, (k, v) ∈ d ∧ eqK k key = true.
Proof.
  intros Hd. split; [apply mapaccess_Some|]. intros (k & Hin & Hk).
  induction d as [|[k0 v0] d IH]; [now apply elem_of_nil in Hin|].
  rewrite mapaccess_cons. apply elem_of_cons in Hin as [[= <- <-]|Hin].
  - now rewrite Hk.
  - destruct (eqK k0 key) eqn:H0.
    + rewrite (distinct_head k0 v0 d key Hd H0 k v Hin) in Hk. discriminate.
    + apply IH; [now destruct Hd|assumption].
Qed.

Lemma mapaccess_Permutation d d' key :
  distinct d.*1 → d ≡ₚ d' → mapaccess d key = mapaccess d' key.
Proof.
  intros Hd Hp. destruct (mapaccess d' key) as [v'|] eqn:Hd'.
  - apply (mapaccess_Some_iff d key v' Hd).
    destruct (mapaccess_Some d' key v' Hd') as (k & Hin & Hk).
    exists k. split; [now rewrite Hp|assumption].
  - apply mapaccess_None. intros k v Hin. rewrite Hp in Hin.
    now apply (proj1 (mapaccess_None d' key) Hd' k v).
Qed.

Lemma distinct_Permutation (l l' : list KEY) : l ≡ₚ l' → distinct l → distinct l'.
Proof.
  induction 1 as [|x l l' Hp IH|x y l|l l' l'' _ IH1 _ IH2]; cbn [distinct].
  - auto.
  - intros [Hx Hd]. split; [|auto]. intros k' Hk'. apply Hx. now rewrite Hp.
  - intros (Hy & Hx & Hd). split; [|split; [|assumption]].
    + intros k' Hk'. apply elem_of_cons in Hk' as [->|Hk']; [|now apply Hx].
      rewrite eqK_sym. apply Hy. apply elem_of_cons. now left.
    + intros k' Hk'. apply Hy. apply elem_of_cons. now right.
  - auto.
Qed.

Lemma distinct_app_l (l l' : list KEY) : distinct (l ++ l') → distinct l.
Proof.
  induction l as [|x l IH]; [intros _; exact I|].
  cbn [app distinct]. intros [Hx Hd]. split; [|auto].
  intros k' Hk'. apply Hx. apply elem_of_app. now left.
Qed.

Lemma range_loop_find_key key (entries : list (KEY * VALUE)) (r : option VALUE) :
  range_loop (find_key key) entries r
    = match mapaccess entries key with Some v => Some v | None => r end.
Proof.
  induction entries as [|[k v] entries IH]; [reflexivity|].
  cbn [range_loop]. unfold find_key at 1. rewrite mapaccess_cons.
  destruct (eqK k key); [reflexivity|apply IH].
Qed.

End SafeMapFacts.

(** C10, counterexample: a [float64] key that is a NaN.  After
    [Set(NaN, 1)] the lookup [Get(NaN)] returns the zero value and [false];
    a second [Set(NaN, 2)] adds a second entry, so that [Len] is two after
    one key was set; and [Delete(NaN)] removes nothing. *)
Lemma NaN_key_is_set_and_not_found :
  let m1 : SafeMap float64 Z := after (Set_ (NewSafeMap []) NaN 1) in
  let m2 := after (Set_ m1 NaN 2) in
  returned (Set_ (NewSafeMap []) NaN (1 : Z)) = true /\
  Get 0 m1 NaN = Returns (0, false) /\
  Len m1 = 1 /\ Len m2 = 2 /\
  returned (Delete m2 [NaN]) = true /\
  Len (after (Delete m2 [NaN])) = 2.
Proof. cbv zeta. repeat split. Qed.

Section SafeMapClaim.

Context `{Comparable KEY} {VALUE : Type} (zero : VALUE).

Implicit Types (m : SafeMap KEY VALUE) (ops : list (Op KEY VALUE))
  (d : list (KEY * VALUE)) (key k : KEY) (keys : list KEY).

Lemma Get_mapaccess m key :
  Get zero m key
    = if hashable key
      then Returns (match mapaccess (data m) key with
                    | Some value => (value, true)
                    | None => (zero, false)
                    end)
      else Panics.
Proof. reflexivity. Qed.

Lemma data_Set m key (value : VALUE) :
  data (after (Set_ m key value))
    = if hashable key then mapassign (data m) key value else data m.
Proof. unfold Set_. destruct (hashable key); reflexivity. Qed.

Lemma data_Delete m keys :
  data (after (Delete m keys)) = foldl mapdelete (data m) (hashed keys).
Proof. unfold Delete. cbn [after data]. now rewrite delete_loop_hashed. Qed.

Lemma returned_Delete m keys : returned (Delete m keys) = forallb hashable keys.
Proof. unfold Delete. cbn [returned]. now rewrite delete_loop_hashed. Qed.

(** C10, amended: in the map reached by any history of [Set] and [Delete]
    calls, for a key that is equal to itself a [Set] makes [Get] return
    the value and [true]; a [Delete] that gets to a key equal to [key]
    makes [Get] return the zero value and [false]; in general [Get]
    returns what the latest [Set] of a key equal to [key] stored, unless a
    later [Delete] named such a key; and [Len] is the number of distinct
    keys that were set and not deleted afterwards, plus the number of
    [Set]s of keys that are not equal to themselves. *)
Theorem SafeMap_Get_Set_Delete_Len ops :
  let m := apply_ops ops in
  (∀ key value, eqK key key = true →
     returned (Set_ m key value) = true ∧
     Get zero (after (Set_ m key value)) key = Returns (value, true)) ∧
  (∀ key keys, (∃ k, k ∈ hashed keys ∧ eqK k key = true) →
     Get zero (after (Delete m keys)) key = Returns (zero, false)) ∧
  (∀ keys, returned (Delete m keys) = forallb hashable keys ∧
     (returned (Delete m keys) = true → hashed keys = keys)) ∧
  (∀ key, hashable key = true →
     Get zero m key = Returns (match stored ops key with
                               | Some value => (value, true)
                               | None => (zero, false)
                               end)) ∧
  (∀ key, set_and_kept ops key ↔ is_Some (stored ops key)) ∧
  (∃ kept : list KEY,
     distinct kept ∧
     (∀ k, k ∈ kept → set_and_kept ops k) ∧
     (∀ key, set_and_kept ops key ↔ ∃ k, k ∈ kept ∧ eqK k key = true) ∧
     Len m = Z.of_nat (length kept) + Z.of_nat (irreflexive_sets ops)).
Proof.
  intros m. split; [|split; [|split; [|split; [|split]]]].
  - intros key value Hrefl. pose proof (eqK_hashable _ _ Hrefl) as Hh.
    unfold Set_. rewrite Hh. cbn [returned after]. split; [reflexivity|].
    rewrite Get_mapaccess, Hh. cbn [data]. now rewrite mapaccess_mapassign, Hrefl.
  - intros key keys (k & Hin & Hk).
    assert (Hh : hashable key = true).
    { apply (eqK_hashable key k). now rewrite eqK_sym. }
    rewrite Get_mapaccess, Hh, data_Delete, mapaccess_foldl_mapdelete.
    replace (existsb (λ k0, eqK k0 key) (hashed keys)) with true; [reflexivity|].
    symmetry. apply existsb_eqK_true. eauto.
  - intros keys. rewrite returned_Delete. split; [reflexivity|].
    induction keys as [|k keys IH]; [reflexivity|]. cbn.
    destruct (hashable k); [|discriminate]. cbn. intros Hall. now rewrite IH.
  - intros key Hh. rewrite Get_mapaccess, Hh. subst m. now rewrite mapaccess_apply_ops.
  - intros key. apply set_and_kept_stored.
  - exists (reflexive_keys m). split; [|split; [|split]].
    + apply distinct_filter. apply (wf_map_apply_ops ops).
    + intros k Hk. apply set_and_kept_stored. subst m.
      rewrite <- mapaccess_apply_ops. apply elem_of_reflexive_keys.
      exists k. split; [assumption|].
      unfold reflexive_keys in Hk. now apply list_elem_of_filter in Hk as [Hk _].
    + intros key. rewrite set_and_kept_stored. subst m.
      rewrite <- mapaccess_apply_ops. symmetry. apply elem_of_reflexive_keys.
    + unfold Len. rewrite (length_reflexive_irreflexive m). subst m.
      rewrite irreflexive_apply_ops. lia.
Qed.

End SafeMapClaim.

(** ** The running pool: invariants *)

(** Splits a hypothesis [exec ... = Some p'] into the cases of the step. *)
Ltac exec_cases :=
  repeat match goal with
  | H : (?x ≫= _) = Some _ |- _ => destruct x eqn:?; cbn in H; [|discriminate H]
  | H : match ?x with _ => _ end = Some _ |- _ => destruct x eqn:?; try discriminate H
  | H : Some _ = Some _ |- _ => injection H as <-
  | H : None = Some _ |- _ => discriminate H
  end.

Ltac exec_unfold H :=
  cbn in H; unfold exec_worker, exec_scaler, exec_start in H;
  exec_cases.

Section PoolFacts.

Context {T : Type}.

Implicit Types (p : Pool T) (w : Worker T) (ws : list (Worker T)) (a : Action T).

Lemma tally_cons w ws : tally (w :: ws) = counts w + tally ws.
Proof. reflexivity. Qed.

Lemma tally_app ws w : tally (ws ++ [w]) = tally ws + counts w.
Proof.
  induction ws as [|w' ws IH]; [unfold tally; cbn; lia|].
  change ((w' :: ws) ++ [w]) with (w' :: (ws ++ [w])). rewrite !tally_cons, IH. lia.
Qed.

Lemma tally_insert ws (i : nat) w w' :
  ws !! i = Some w -> tally (<[i := w']> ws) = tally ws - counts w + counts w'.
Proof.
  revert i. induction ws as [|w0 ws IH]; intros [|i] Hi; try discriminate.
  - injection Hi as ->. change (<[0%nat := w']> (w :: ws)) with (w' :: ws).
    rewrite !tally_cons. lia.
  - change (<[S i := w']> (w0 :: ws)) with (w0 :: <[i := w']> ws).
    rewrite !tally_cons, (IH i Hi). lia.
Qed.

Lemma tally_nonneg ws : 0 <= tally ws.
Proof.
  induction ws as [|w ws IH]; [unfold tally; cbn; lia|]. rewrite tally_cons.
  unfold counts. destruct (decremented w); lia.
Qed.

Lemma tally_start (n : nat) (d : Z) :
  tally (replicate n (mkWorker (WStart : WorkerPC T) d)) = Z.of_nat n.
Proof.
  induction n as [|n IH]; [reflexivity|].
  change (replicate (S n) (mkWorker (WStart : WorkerPC T) d))
    with (mkWorker (WStart : WorkerPC T) d :: replicate n (mkWorker WStart d)).
  rewrite tally_cons, IH. unfold counts. cbn. lia.
Qed.

Lemma counts_pc w w' :
  decremented w = decremented w' -> counts w = counts w'.
Proof. unfold counts. now intros ->. Qed.

Lemma run_app (s1 s2 : list (Action T)) p :
  run (s1 ++ s2) p = run s1 p ≫= run s2.
Proof.
  revert p. induction s1 as [|a s1 IH]; intros p; cbn; [reflexivity|].
  destruct (exec a p) as [p'|]; cbn; [apply IH|reflexivity].
Qed.

Lemma exec_cfg a p p' : exec a p = Some p' -> cfg p' = cfg p.
Proof.
  destruct a as [d| |x| |i wa|sa|ba]; intros Hx; exec_unfold Hx; reflexivity.
Qed.

Lemma pool_inv_init minWorkers maxWorkers queueSize scaleThreshold idleTimeout
    (input : Chan T) :
  let p := NewAutoScaleWorkerPool minWorkers maxWorkers queueSize scaleThreshold
             idleTimeout input in
  MinWorkers (cfg p) <= MaxWorkers (cfg p) -> pool_inv (cfg p) p.
Proof.
  intros p Hle.
  assert (Hl : live p = MinWorkers (cfg p)).
  { unfold live. subst p. unfold NewAutoScaleWorkerPool. cbn [workers cfg].
    rewrite tally_start. unfold newConfig. cbn [MinWorkers].
    unfold DefaultMinWorkers. lia. }
  unfold pool_inv, scaler_inv, pending. rewrite Hl. subst p. cbn in *.
  unfold DefaultMinWorkers, DefaultMinQueueSize in *.
  repeat split; lia.
Qed.

Lemma tally_lookup ws (i : nat) w : ws !! i = Some w -> counts w <= tally ws.
Proof.
  revert i. induction ws as [|w0 ws IH]; intros [|i] Hi; try discriminate.
  - injection Hi as ->. rewrite tally_cons. pose proof (tally_nonneg ws). lia.
  - rewrite tally_cons. pose proof (IH i Hi).
    assert (0 <= counts w0) by (unfold counts; destruct (decremented w0); lia). lia.
Qed.

(** Rewrites the tally of the workers after a step and computes what the
    worker that moved contributes before and after. *)
Ltac tally_step :=
  repeat match goal with
  | H : workers _ !! _ = Some _ |- context [tally (<[_ := _]> _)] =>
      rewrite (tally_insert _ _ _ _ H)
  | |- context [tally (_ ++ [_])] => rewrite tally_app
  end;
  unfold counts, decremented in *; cbn [pc] in *;
  repeat match goal with H : pc _ = _ |- _ => rewrite H in * end.

Lemma wrap32_small z : - 2 ^ 31 <= z <= 2 ^ 31 - 1 -> wrap32 z = z.
Proof. intros Hz. apply wrap32_id. unfold in_int32, min_int32, max_int32. lia. Qed.

Lemma exec_pool_inv c a p p' :
  wf_config c -> no_overflow c ->
  pool_inv c p -> exec a p = Some p' -> pool_inv c p'.
Proof.
  intros Hwf Hno (Hcfg & Hq & Hcount & Hsc) Hx. subst c.
  pose proof (tally_nonneg (workers p)) as Hlive.
  pose proof Hwf as (_ & HM & HQ & _). unfold max_int32 in HM, HQ.
  unfold pool_inv, scaler_inv, pending, live in *.
  destruct a as [d| |x| |i wa|sa|ba].
  - (* time passes *)
    exec_unfold Hx; cbn in *. repeat split; assumption.
  - (* Stop *)
    exec_unfold Hx; cbn in *. repeat split; assumption.
  - (* the producer sends *)
    exec_unfold Hx; cbn in *. repeat split; assumption.
  - (* the producer closes *)
    exec_unfold Hx; cbn in *. repeat split; assumption.
  - (* a worker *)
    destruct wa; exec_unfold Hx; cbn in *;
      repeat match goal with H : buf _ = _ |- _ => rewrite H in * end.
    all: try (tally_step; destruct (scaler p); cbn in *; intuition lia).
    (* the deferred decrement: the worker still counts, so the count
       stays an int32 *)
    match goal with H : workers p !! i = Some _ |- _ =>
      pose proof (tally_lookup _ _ _ H) as Hone end.
    assert (Hw : wrap32 (CurrentWorkers p + -1) = CurrentWorkers p - 1).
    { tally_step. apply wrap32_small. destruct (scaler p); intuition lia. }
    rewrite Hw. tally_step. destruct (scaler p); intuition lia.
  - (* the scaling loop *)
    destruct sa; exec_unfold Hx; cbn in *.
    all: try (tally_step; repeat split; intuition lia).
    + (* the tick reads the queue length *)
      rewrite wrap32_small by lia. repeat split; try assumption; lia.
    + (* the decision *)
      destruct Hsc as [Hqlen Hle].
      match goal with Ht : tick (cfg p) ?q _ = Some _ |- _ =>
        destruct (tick_cases (cfg p) q (CurrentWorkers p) Hwf Hno Hqlen ltac:(lia))
          as (Hidle & Hspawn);
        destruct (Z_lt_le_dec (CurrentWorkers p) (MaxWorkers (cfg p))) as [Hroom|Hfull];
          [|rewrite (Hidle (or_intror Hfull)) in Ht; discriminate];
        destruct (Z_lt_le_dec q (thresholdCount (cfg p))) as [Hlow|Hhigh];
          [rewrite (Hidle (or_introl Hlow)) in Ht; discriminate|];
        destruct (Hspawn Hhigh Hroom) as (pot & _ & Hpot & Ht'); rewrite Ht in Ht';
        injection Ht' as ->
      end.
      repeat split; try assumption; lia.
    + (* the atomic add *)
      match goal with H : (0 <? _) = false |- _ => apply Z.ltb_ge in H end.
      rewrite wrap32_small by lia. repeat split; try assumption; lia.
  - (* Start *)
    destruct ba; exec_unfold Hx; cbn in *.
    all: try (repeat split; assumption).
    match goal with H : (_ <? _) = true |- _ => apply Z.ltb_lt in H end.
    rewrite length_app, Nat2Z.inj_add. cbn.
    repeat split; try assumption; lia.
Qed.

Lemma run_pool_inv c (sched : list (Action T)) p p' :
  wf_config c -> no_overflow c ->
  pool_inv c p -> run sched p = Some p' -> pool_inv c p'.
Proof.
  intros Hwf Hno. revert p. induction sched as [|a sched IH]; intros p Hinv Hrun.
  - injection Hrun as <-. assumption.
  - cbn in Hrun. destruct (exec a p) as [p1|] eqn:Hx; [|discriminate].
    cbn in Hrun. apply (IH p1); [|assumption].
    now apply (exec_pool_inv c a p).
Qed.

(** The queue is closed exactly when [Start] has run its [close]. *)
Lemma exec_closed a p p' :
  closed (Queue p) = closed_by_start p -> exec a p = Some p' ->
  closed (Queue p') = closed_by_start p'.
Proof.
  unfold closed_by_start. intros Hc Hx.
  destruct a as [d| |x| |i wa|sa|ba]; exec_unfold Hx; cbn in *;
    try assumption; try reflexivity.
  all: repeat match goal with
       | H : starter _ = _ |- _ => rewrite H in *
       | H : closed _ = _ |- _ => rewrite H in *
       end;
    try assumption; try reflexivity.
Qed.

Lemma run_closed (sched : list (Action T)) p p' :
  closed (Queue p) = closed_by_start p -> run sched p = Some p' ->
  closed (Queue p') = closed_by_start p'.
Proof.
  revert p. induction sched as [|a sched IH]; intros p Hc Hrun.
  - injection Hrun as <-. assumption.
  - cbn in Hrun. destruct (exec a p) as [p1|] eqn:Hx; [|discriminate].
    cbn in Hrun. apply (IH p1); [|assumption]. now apply (exec_closed a p).
Qed.

(** Every item is accounted for: a step moves an item from one place to
    the next and only the producer adds one. *)
Lemma exec_items a p p' :
  abandoned_inv p -> exec a p = Some p' ->
  abandoned_inv p' /\ items p' = items p ++ produced [a].
Proof.
  unfold abandoned_inv, items, held. intros Hab Hx.
  destruct a as [d| |x| |i wa|sa|ba]; exec_unfold Hx; cbn in *;
    repeat match goal with
    | H : starter _ = _ |- _ => rewrite H in *
    | H : buf _ = _ |- _ => rewrite H in *
    end; cbn in *; rewrite ?app_nil_r; try (split; [assumption|reflexivity]).
  (* the items: a move between neighbours, or one more at the end *)
  all: try match type of Hab with _ = [] => rewrite !Hab end.
  all: cbn; split; [|rewrite <- ?app_assoc; reflexivity].
  (* what was given up: nothing while reading, one item under cancellation *)
  all: try assumption; try reflexivity; try (split; [cbn; lia|congruence]).
  all: destruct (starter p); intuition congruence.
Qed.

Lemma produced_cons a (sched : list (Action T)) :
  produced (a :: sched) = produced [a] ++ produced sched.
Proof. destruct a; cbn; rewrite ?app_nil_r; reflexivity. Qed.

Lemma run_items (sched : list (Action T)) p p' :
  abandoned_inv p -> run sched p = Some p' ->
  abandoned_inv p' /\ items p' = items p ++ produced sched.
Proof.
  revert p. induction sched as [|a sched IH]; intros p Hab Hrun.
  - injection Hrun as <-. split; [assumption|]. cbn. now rewrite app_nil_r.
  - cbn in Hrun. destruct (exec a p) as [p1|] eqn:Hx; [|discriminate].
    cbn in Hrun. destruct (exec_items a p p1 Hab Hx) as [Hab1 Hit1].
    destruct (IH p1 Hab1 Hrun) as [Hab' Hit']. split; [assumption|].
    rewrite produced_cons, Hit', Hit1. now rewrite <- app_assoc.
Qed.

(** No item is lost or duplicated: at any moment, the items the work
    function was called on, those queued, the one [readChan] holds, the one
    it gave up and those waiting in the input are, in this order, the items
    the input held at the start and those produced since.  At most one
    item is given up, and none unless the pool was stopped. *)
Lemma items_accounted minWorkers maxWorkers queueSize scaleThreshold idleTimeout
    (input : Chan T) (sched : list (Action T)) p :
  run sched (NewAutoScaleWorkerPool minWorkers maxWorkers queueSize scaleThreshold
               idleTimeout input) = Some p ->
  invoked p ++ buf (Queue p) ++ held p ++ abandoned p ++ buf (InputChan p)
    = buf input ++ produced sched /\
  (length (abandoned p) <= 1)%nat /\
  (Done p = false -> abandoned p = []).
Proof.
  intros Hrun.
  destruct (run_items sched _ p (eq_refl : abandoned_inv (NewAutoScaleWorkerPool _ _ _ _ _ _))
              Hrun) as [Hab Hit].
  split; [exact Hit|]. unfold abandoned_inv in Hab.
  destruct (starter p); try (rewrite Hab; split; [cbn; lia|reflexivity]).
  all: destruct Hab as [Hlen Hdone]; split; [assumption|];
    intros Hd; destruct (abandoned p); [reflexivity|];
    rewrite Hdone in Hd by discriminate; discriminate.
Qed.

End PoolFacts.

(** ** Claims about the running pool *)

(** C1, counterexample: the count leaves both bounds.  On a normal drain
    (the input closed, no [Stop]) the only worker of a pool with
    [MinWorkers = 1] finds the queue closed and decrements the count to
    zero; and a pool built with [minWorkers = 5], [maxWorkers = 2] starts
    with a count of five above a maximum of two. *)
Lemma CurrentWorkers_leaves_bounds :
  (exists p,
     run drain_schedule (NewAutoScaleWorkerPool 1 1 1 50 0 (mkChan [] true)) = Some p /\
     Done p = false /\ MinWorkers (cfg p) = 1 /\ CurrentWorkers p = 0) /\
  (let p := NewAutoScaleWorkerPool 5 2 10 50 0 (mkChan ([] : list Z) false) in
   MaxWorkers (cfg p) = 2 /\ CurrentWorkers p = 5).
Proof.
  split.
  - eexists. split; [vm_compute; reflexivity|]. repeat split.
  - cbv zeta. split; reflexivity.
Qed.

(** C1, amended: for a pool built from [int32] arguments with
    [MinWorkers <= MaxWorkers] and a threshold product that does not
    overflow, after every schedule -- every interleaving of the workers,
    the scaling loop, [Start], the producer, [Stop] and the clock -- the
    count is at most [MaxWorkers]; it is the number of live workers less
    those the tick under way has started and not yet added, hence not
    negative between ticks. *)
Theorem CurrentWorkers_le_MaxWorkers {T : Type}
    (minWorkers maxWorkers queueSize scaleThreshold idleTimeout : Z)
    (input : Chan T) (sched : list (Action T)) (p : Pool T) :
  let p0 := NewAutoScaleWorkerPool minWorkers maxWorkers queueSize scaleThreshold
              idleTimeout input in
  in_int32 minWorkers -> in_int32 maxWorkers -> in_int32 queueSize ->
  MinWorkers (cfg p0) <= MaxWorkers (cfg p0) -> no_overflow (cfg p0) ->
  run sched p0 = Some p ->
  CurrentWorkers p <= MaxWorkers (cfg p) /\
  CurrentWorkers p + pending p = live p /\
  (pending p = 0 -> 0 <= CurrentWorkers p).
Proof.
  intros p0 Hmin Hmax Hqs Hle Hno Hrun.
  assert (Hwf : wf_config (cfg p0)) by (apply newConfig_wf; assumption).
  pose proof (run_pool_inv (cfg p0) sched p0 p Hwf Hno
                (pool_inv_init _ _ _ _ _ input Hle) Hrun) as (Hcfg & _ & Hcount & Hsc).
  rewrite Hcfg. split; [|split; [assumption|]].
  - unfold scaler_inv in Hsc. rewrite Hcfg in Hsc.
    destruct (scaler p); intuition lia.
  - intros H0. pose proof (tally_nonneg (workers p)). unfold live in Hcount. lia.
Qed.

(** C1, an instance: the pool of one to two workers after its first
    scale-up, the new worker started and not yet counted. *)
Lemma CurrentWorkers_le_MaxWorkers_witness :
  let p0 := small_pool in
  (in_int32 1 /\ in_int32 2 /\ in_int32 1 /\
   MinWorkers (cfg p0) <= MaxWorkers (cfg p0) /\ no_overflow (cfg p0)) /\
  exists p, run uncounted_schedule p0 = Some p /\
    CurrentWorkers p <= MaxWorkers (cfg p).
Proof.
  intros p0.
  assert (H1 : in_int32 1) by config_arith.
  assert (H2 : in_int32 2) by config_arith.
  assert (Hle : MinWorkers (cfg p0) <= MaxWorkers (cfg p0)) by (subst p0; config_arith).
  assert (Hno : no_overflow (cfg p0)) by (subst p0; config_arith).
  split; [auto 6|].
  destruct (run uncounted_schedule p0) as [p|] eqn:Hrun.
  - exists p. split; [reflexivity|].
    exact (proj1 (CurrentWorkers_le_MaxWorkers 1 2 1 1 0 (mkChan [] false)
                    uncounted_schedule p H1 H2 H1 Hle Hno Hrun)).
  - vm_compute in Hrun. discriminate Hrun.
Defined.

(** C4, counterexample: [Stop] is called while the input is open and
    still holds an item; [readChan] returns at its outer [select] and
    [Start] closes the queue. *)
Lemma queue_closed_after_cancellation :
  exists p,
    run stop_schedule (NewAutoScaleWorkerPool 1 2 1 50 0 (mkChan [7] false)) = Some p /\
    Done p = true /\ InputChan p = mkChan [7] false /\ closed (Queue p) = true.
Proof. eexists. split; [vm_compute; reflexivity|]. repeat split. Qed.

(** C4, amended: at every point the queue is closed exactly when [Start]
    has run its [close(pool.Queue)], which it does once, after [readChan]
    has returned; [readChan] returns when the input is exhausted and also
    when cancellation is observed, at the outer wait or at a pending
    enqueue, and the close follows on each of these paths. *)
Theorem queue_closed_by_start {T : Type}
    (minWorkers maxWorkers queueSize scaleThreshold idleTimeout : Z)
    (input : Chan T) (sched : list (Action T)) (p : Pool T) :
  run sched (NewAutoScaleWorkerPool minWorkers maxWorkers queueSize scaleThreshold
               idleTimeout input) = Some p ->
  (closed (Queue p) = true <-> starter p = BWait \/ starter p = BReturned) /\
  (Done p = true -> starter p = BOuter \/ (exists data, starter p = BInner data) ->
   exists p', run [AStart BCtxDone; AStart BCloseQueue] p = Some p' /\
     closed (Queue p') = true) /\
  (InputChan p = mkChan [] true -> starter p = BOuter ->
   exists p', run [AStart BRecv; AStart BCloseQueue] p = Some p' /\
     closed (Queue p') = true) /\
  (closed (Queue p) = true -> forall p', exec (AStart BCloseQueue) p = Some p' -> False).
Proof.
  intros Hrun.
  assert (Hc : closed (Queue p) = closed_by_start p).
  { eapply run_closed; [|exact Hrun]. reflexivity. }
  unfold closed_by_start in Hc.
  split; [|split; [|split]].
  - rewrite Hc. destruct (starter p); intuition discriminate.
  - intros Hd [Hs|[data Hs]]; cbn; unfold exec_start; rewrite Hs, Hd; cbn;
      eexists; split; reflexivity.
  - intros Hin Hs. cbn. unfold exec_start. rewrite Hs, Hin. cbn.
    eexists; split; reflexivity.
  - intros Hcl p' Hx. rewrite Hcl in Hc. cbn in Hx. unfold exec_start in Hx.
    destruct (starter p); discriminate.
Qed.

(** C4, an instance: the pool that was stopped with an item left in the
    input. *)
Lemma queue_closed_by_start_witness :
  exists p,
    run stop_schedule (NewAutoScaleWorkerPool 1 2 1 50 0 (mkChan [7] false)) = Some p /\
    (closed (Queue p) = true <-> starter p = BWait \/ starter p = BReturned).
Proof.
  destruct (run stop_schedule (NewAutoScaleWorkerPool 1 2 1 50 0 (mkChan [7] false)))
    as [p|] eqn:Hrun.
  - exists p. split; [reflexivity|].
    exact (proj1 (queue_closed_by_start 1 2 1 50 0 (mkChan [7] false) stop_schedule p Hrun)).
  - vm_compute in Hrun. discriminate Hrun.
Defined.

Section WorkerTimer.

Context {T : Type}.

(** Taking an item arms the idle timer for [IdleTimeout] from the moment
    of the receive, before the work function is called. *)
Lemma timer_reset_at_receive (i : nat) (p p' : Pool T) (w : Worker T) (x : T) :
  exec (AWorker i WRecv) p = Some p' -> workers p' !! i = Some w -> pc w = WRun x ->
  deadline w = now p + IdleTimeout (cfg p).
Proof.
  intros Hx Hw Hpc. exec_unfold Hx; cbn in Hw.
  all: match goal with H : workers _ !! _ = Some _ |- _ =>
         apply lookup_lt_Some in H end.
  all: rewrite list_lookup_insert_eq in Hw by assumption; injection Hw as <-.
  all: first [discriminate Hpc|reflexivity].
Qed.

(** The return of the work function leaves the timer as it is. *)
Lemma timer_kept_at_return (i : nat) (p p' : Pool T) (w : Worker T) :
  workers p !! i = Some w -> exec (AWorker i WReturn) p = Some p' ->
  workers p' !! i = Some (mkWorker WSelect (deadline w)).
Proof.
  intros Hw Hx. pose proof (lookup_lt_Some _ _ _ Hw) as Hlt.
  cbn in Hx. unfold exec_worker in Hx. rewrite Hw in Hx. cbn in Hx.
  exec_cases; cbn. now rewrite list_lookup_insert_eq.
Qed.

(** So a work function that runs for the idle timeout or longer comes
    back to a select whose timer case is ready. *)
Lemma timer_ready_after_long_work (i : nat) (p p1 p2 : Pool T) (w : Worker T)
    (x : T) (d : Z) :
  exec (AWorker i WRecv) p = Some p1 -> workers p1 !! i = Some w -> pc w = WRun x ->
  IdleTimeout (cfg p) <= d ->
  run [AElapse d; AWorker i WReturn] p1 = Some p2 ->
  timer_ready i p2 = true.
Proof.
  intros Hrecv Hw Hpc Hd Hrun.
  pose proof (timer_reset_at_receive i p p1 w x Hrecv Hw Hpc) as Hdl.
  pose proof (exec_cfg _ _ _ Hrecv) as Hcfg.
  assert (Hnow : now p1 = now p).
  { clear -Hrecv. exec_unfold Hrecv; reflexivity. }
  cbn in Hrun. destruct (0 <? d) eqn:Hpos; [|discriminate]. cbn in Hrun.
  match type of Hrun with context [exec_worker i WReturn ?q] =>
    destruct (exec_worker i WReturn q) as [p3|] eqn:Hret; [|discriminate];
    assert (Hw3 : workers q !! i = Some w) by exact Hw;
    pose proof (timer_kept_at_return i q p3 w Hw3 Hret) as Hkept;
    assert (Hnow3 : now p3 = now p1 + d)
      by (clear -Hret; unfold exec_worker in Hret; exec_cases; reflexivity)
  end.
  cbn in Hrun. injection Hrun as <-.
  unfold timer_ready. rewrite Hkept. cbn. apply Z.leb_le. lia.
Qed.

End WorkerTimer.

(** C5, the code at the failing input: two workers take an item each at
    the third second, which arms their timers for the eighth; the work
    function of the second worker returns at the ninth second, after six
    seconds of work.  The worker is back in its select with the timer of
    the receive, whose case is ready at once, and as the count is above
    [MinWorkers] it leaves without having been idle. *)
Lemma idle_timer_runs_during_work :
  exists p p',
    run long_work_schedule small_pool = Some p /\
    workers p !! 1%nat = Some (mkWorker WSelect (8 * second)) /\
    now p = 9 * second /\
    timer_ready 1 p = true /\
    exec (AWorker 1 WTimer) p = Some p' /\
    workers p' !! 1%nat = Some (mkWorker WDeferAdd (8 * second)).
Proof.
  do 2 eexists. split; [vm_compute; reflexivity|]. repeat split.
Qed.

(** C6, the code at the failing input: at the first tick the scaling loop
    has registered and started the second worker, which has armed its
    timer and waits in its select, while the count is still one: the
    atomic add comes after the loop.  The constructor, in contrast, sets
    the count before it starts the workers. *)
Lemma spawned_worker_not_counted :
  (exists p,
     run uncounted_schedule small_pool = Some p /\
     workers p = [mkWorker WSelect (5 * second); mkWorker WSelect (7 * second)] /\
     scaler p = SLoop 1 0 /\ live p = 2 /\ CurrentWorkers p = 1) /\
  CurrentWorkers small_pool = live small_pool.
Proof.
  split; [|reflexivity].
  eexists. split; [vm_compute; reflexivity|]. repeat split.
Qed.

(** C7, the code at the failing input: three items are produced and the
    input is closed, nobody calls [Stop]; the idle timers of both workers
    fire together and both test the count before either decrements it, so
    both leave and no worker is left.  [Start] relays the third item,
    closes the queue and returns from [Wait] with the item still queued:
    two invocations for three items, and the third was not given up by
    [readChan]. *)
Lemma join_returns_with_item_queued :
  exists p,
    run race_schedule small_pool = Some p /\
    Done p = false /\ InputChan p = mkChan [] true /\
    starter p = BReturned /\ joined p = true /\
    CurrentWorkers p = 0 /\ MinWorkers (cfg p) = 1 /\
    produced race_schedule = [7; 8; 9] /\
    invoked p = [7; 8] /\ Queue p = mkChan [9] true /\ abandoned p = [].
Proof. eexists. split; [vm_compute; reflexivity|]. repeat split. Qed.

(** * Further properties of the code *)

(** ** The threshold and the full queue *)

(** The threshold never lies above the capacity, overflow or not. *)
Lemma thresholdCount_le_QueueSize c :
  wf_config c -> - 21474836 <= thresholdCount c <= QueueSize c.
Proof.
  intros Hwf. pose proof Hwf as (_ & _ & HQ & HS). unfold max_int32 in *.
  destruct (Z_le_gt_dec (QueueSize c * ScaleThreshold c) (2 ^ 31 - 1)) as [Hfit|Hover].
  - destruct (thresholdCount_exact c Hwf) as [_ Hb]; [unfold no_overflow, max_int32; lia|lia].
  - unfold thresholdCount.
    pose proof (wrap32_range (QueueSize c * ScaleThreshold c)) as Hr.
    unfold in_int32, min_int32, max_int32 in Hr.
    set (w := wrap32 (QueueSize c * ScaleThreshold c)) in *.
    assert (Hq : - 21474836 <= w ÷ 100 <= 21474836).
    { destruct (Z_le_gt_dec 0 w).
      - rewrite Z.quot_div_nonneg by lia.
        assert (w / 100 < 21474837) by (apply Z.div_lt_upper_bound; lia).
        assert (0 <= w / 100) by (apply Z.div_pos; lia). lia.
      - pose proof (Z.quot_opp_l w 100 ltac:(lia)) as Ho.
        assert (0 <= - w ÷ 100) by (apply Z.quot_pos; lia).
        assert (- w ÷ 100 = - w / 100) by (apply Z.quot_div_nonneg; lia).
        assert (- w / 100 < 21474837) by (apply Z.div_lt_upper_bound; lia).
        lia. }
    nia.
Qed.

(** The threshold count lies below the configured share of the capacity
    when the [int32] product overflows. *)
Lemma thresholdCount_overflow c :
  wf_config c -> ~ no_overflow c ->
  thresholdCount c < QueueSize c * ScaleThreshold c / 100.
Proof.
  intros Hwf. pose proof Hwf as (_ & _ & HQ & HS). unfold max_int32 in *.
  unfold no_overflow, max_int32. intros Hover.
  pose proof (Z.div_mod (QueueSize c * ScaleThreshold c) 100 ltac:(lia)) as Hdm.
  pose proof (Z.mod_pos_bound (QueueSize c * ScaleThreshold c) 100 ltac:(lia)) as Hmb.
  unfold thresholdCount.
  pose proof (wrap32_range (QueueSize c * ScaleThreshold c)) as Hr.
  unfold in_int32, min_int32, max_int32 in Hr.
  assert (Hw : wrap32 (QueueSize c * ScaleThreshold c)
               <= QueueSize c * ScaleThreshold c - 2 ^ 32).
  { unfold wrap32, min_int32.
    assert (1 <= (QueueSize c * ScaleThreshold c - - 2 ^ 31) / 2 ^ 32)
      by (apply Z.div_le_lower_bound; lia).
    pose proof (Z.div_mod (QueueSize c * ScaleThreshold c - - 2 ^ 31) (2 ^ 32)
                  ltac:(lia)). nia. }
  set (w := wrap32 (QueueSize c * ScaleThreshold c)) in *.
  destruct (Z_le_gt_dec 0 w).
  - rewrite Z.quot_div_nonneg by lia.
    pose proof (Z.div_mod w 100 ltac:(lia)). pose proof (Z.mod_pos_bound w 100 ltac:(lia)).
    lia.
  - pose proof (Z.quot_opp_l w 100 ltac:(lia)).
    assert (0 <= - w ÷ 100) by (apply Z.quot_pos; lia).
    assert (0 <= QueueSize c * ScaleThreshold c / 100) by (apply Z.div_pos; lia).
    assert (21474836 <= QueueSize c * ScaleThreshold c / 100)
      by (apply Z.div_le_lower_bound; lia).
    lia.
Qed.

(** X1: the threshold [pool.QueueSize * pool.ScaleThreshold / 100] is the
    configured share of the capacity exactly when the [int32] product does
    not overflow.  When it does, the threshold is lower than that share
    and scaling starts on a shorter queue than was asked for; in every
    case it is at most the capacity. *)
Theorem thresholdCount_exact_iff_no_overflow (c : Config) :
  wf_config c ->
  (thresholdCount c = QueueSize c * ScaleThreshold c / 100 <-> no_overflow c) /\
  (~ no_overflow c -> thresholdCount c < QueueSize c * ScaleThreshold c / 100) /\
  thresholdCount c <= QueueSize c /\
  (no_overflow c -> 0 <= thresholdCount c).
Proof.
  intros Hwf. pose proof Hwf as (_ & _ & HQ & HS). unfold max_int32 in *.
  pose proof (thresholdCount_le_QueueSize c Hwf) as Hle.
  pose proof (thresholdCount_overflow c Hwf) as Hlow.
  split; [|split; [assumption|split; [lia|]]].
  - split.
    + intros Heq. destruct (Z_le_gt_dec (QueueSize c * ScaleThreshold c) (2 ^ 31 - 1));
        [unfold no_overflow, max_int32; assumption|].
      assert (~ no_overflow c) by (unfold no_overflow, max_int32; lia).
      specialize (Hlow ltac:(assumption)). lia.
    + intros Hno. now destruct (thresholdCount_exact c Hwf Hno).
  - intros Hno. destruct (thresholdCount_exact c Hwf Hno) as [_ Hb]. lia.
Qed.

Lemma tick_full c cur :
  wf_config c -> 0 <= cur < MaxWorkers c ->
  tick c (QueueSize c) cur = Some (Spawn (MaxWorkers c - cur)).
Proof.
  intros Hwf Hcur. pose proof Hwf as (_ & HM & _). unfold max_int32 in *.
  pose proof (thresholdCount_le_QueueSize c Hwf) as [_ Htc].
  assert (Hroom : in_int32 (MaxWorkers c - cur))
    by (unfold in_int32, min_int32, max_int32; lia).
  rewrite (tick_spawn c (QueueSize c) cur (MaxWorkers c - cur)); try assumption.
  - f_equal. f_equal. lia.
  - now apply potentialAdditional_full.
  - unfold max_int32. lia.
Qed.

(** X2: a full queue brings the pool to [MaxWorkers] at the next tick,
    whatever the threshold: the threshold is at most the capacity, the
    ratio is one and the tick adds all the workers that are missing. *)
Theorem full_queue_scales_to_MaxWorkers (c : Config) (cur : Z) :
  wf_config c -> 0 <= cur < MaxWorkers c ->
  thresholdCount c <= QueueSize c /\
  ratio c (QueueSize c) = Some float64_one /\
  tick c (QueueSize c) cur = Some (Spawn (MaxWorkers c - cur)) /\
  wrap32 (cur + (MaxWorkers c - cur)) = MaxWorkers c.
Proof.
  intros Hwf Hcur. pose proof Hwf as (_ & HM & _). unfold max_int32 in *.
  pose proof (thresholdCount_le_QueueSize c Hwf) as [_ Htc].
  split; [assumption|]. split; [apply ratio_full|].
  split; [now apply tick_full|].
  replace (cur + (MaxWorkers c - cur)) with (MaxWorkers c) by lia.
  apply wrap32_id. unfold in_int32, min_int32, max_int32. lia.
Qed.

(** X1, an instance: ten slots and fifty per cent give a threshold of five. *)
Lemma thresholdCount_exact_iff_no_overflow_witness :
  let c := newConfig 1 5 10 50 DefaultIdleTimeout in
  wf_config c /\ thresholdCount c <= QueueSize c.
Proof.
  intros c.
  assert (Hwf : wf_config c) by (subst c; config_arith).
  split; [assumption|].
  exact (proj1 (proj2 (proj2 (thresholdCount_exact_iff_no_overflow c Hwf)))).
Defined.

(** X2, an instance: one worker out of five, ten slots all taken, a threshold
    of fifty per cent: four workers are added. *)
Lemma full_queue_scales_to_MaxWorkers_witness :
  let c := newConfig 1 5 10 50 DefaultIdleTimeout in
  (wf_config c /\ 0 <= 1 < MaxWorkers c) /\
  tick c (QueueSize c) 1 = Some (Spawn 4).
Proof.
  intros c.
  assert (Hwf : wf_config c) by (subst c; config_arith).
  assert (Hcur : 0 <= 1 < MaxWorkers c) by (subst c; config_arith).
  split; [auto|].
  exact (proj1 (proj2 (proj2 (full_queue_scales_to_MaxWorkers c 1 Hwf Hcur)))).
Defined.

(** ** SafeMap: how the methods compose *)

Section SafeMapLaws.

Context `{Comparable KEY} {VALUE : Type} (zero : VALUE).

Implicit Types (m : SafeMap KEY VALUE) (key k : KEY) (keys : list KEY)
  (d : list (KEY * VALUE)).

Lemma Effect_eq (e1 e2 : Effect KEY VALUE) :
  data (after e1) = data (after e2) → returned e1 = returned e2 → e1 = e2.
Proof.
  destruct e1 as [[d1] r1], e2 as [[d2] r2]. cbn. now intros -> ->.
Qed.

Lemma Get_false_zero m key (v : VALUE) :
  Get zero m key = Returns (v, false) →
  v = zero ∧ hashable key = true ∧ mapaccess (data m) key = None.
Proof.
  rewrite (Get_mapaccess zero). destruct (hashable key); [|discriminate].
  destruct (mapaccess (data m) key); intros [= <-]; auto.
Qed.

Lemma Get_true m key (v : VALUE) :
  Get zero m key = Returns (v, true) ↔ mapaccess (data m) key = Some v.
Proof.
  rewrite (Get_mapaccess zero). split.
  - destruct (hashable key); [|discriminate].
    destruct (mapaccess (data m) key); intros [= <-]; reflexivity.
  - intros Hv. destruct (mapaccess_Some _ _ _ Hv) as (k & _ & Hk).
    rewrite eqK_sym in Hk. now rewrite (eqK_hashable _ _ Hk), Hv.
Qed.

(** X3: a lookup tells an absent key from a stored zero value by its flag,
    and is not affected by what is done to keys that are not equal to the
    one looked up.  [Get] panics exactly on a key that cannot be hashed;
    it answers [true], with the value of the entry, exactly when the map
    has an entry whose key is equal to [key], and otherwise the zero value
    with [false], on a fresh map and for a key that is not equal to itself
    always; an entry of the map whose key is equal to itself is found
    under its key; a [Set] of a key not equal to [key'], and a [Delete]
    that gets to no key equal to [key'], leave the answer for [key'] as it
    was. *)
Theorem Get_other_keys m key key' (value : VALUE) keys (hint : list Z) :
  Get zero (NewSafeMap hint) key
    = (if hashable key then Returns (zero, false) else Panics) ∧
  (Get zero m key = Panics ↔ hashable key = false) ∧
  (∀ v, Get zero m key = Returns (v, true) → ∃ k, (k, v) ∈ data m ∧ eqK k key = true) ∧
  ((∃ k v, (k, v) ∈ data m ∧ eqK k key = true) → ∃ v, Get zero m key = Returns (v, true)) ∧
  (∀ v, Get zero m key = Returns (v, false) →
     v = zero ∧ ∀ k v', (k, v') ∈ data m → eqK k key = false) ∧
  (hashable key = true → eqK key key = false → Get zero m key = Returns (zero, false)) ∧
  (wf_map m → ∀ k v, (k, v) ∈ data m → eqK k k = true → Get zero m k = Returns (v, true)) ∧
  (eqK key key' = false → Get zero (after (Set_ m key value)) key' = Get zero m key') ∧
  ((∀ k, k ∈ hashed keys → eqK k key' = false) →
   Get zero (after (Delete m keys)) key' = Get zero m key').
Proof.
  split; [|split; [|split; [|split; [|split; [|split; [|split; [|split]]]]]]].
  - rewrite (Get_mapaccess zero).
    unfold NewSafeMap. destruct hint as [|n ?]; [|destruct (0 <? n)]; reflexivity.
  - rewrite (Get_mapaccess zero). destruct (hashable key); split; try discriminate; reflexivity.
  - intros v Hv. apply Get_true in Hv. now apply mapaccess_Some.
  - intros Hex. apply mapaccess_is_Some in Hex as [v Hv]. exists v. now apply Get_true.
  - intros v Hv. apply Get_false_zero in Hv as (-> & _ & Hnone).
    split; [reflexivity|]. now apply mapaccess_None.
  - intros Hh Hirr. rewrite (Get_mapaccess zero), Hh.
    replace (mapaccess (data m) key) with (@None VALUE); [reflexivity|].
    symmetry. apply mapaccess_None. intros k v _.
    destruct (eqK k key) eqn:Hk; [|reflexivity].
    rewrite eqK_sym in Hk. rewrite (eqK_refl_l _ _ Hk) in Hirr. discriminate.
  - intros [_ Hd] k v Hin Hk. apply Get_true. apply mapaccess_Some_iff; eauto.
  - intros Hne. rewrite !(Get_mapaccess zero), data_Set.
    destruct (hashable key); [|reflexivity]. now rewrite mapaccess_mapassign, Hne.
  - intros Hnone. rewrite !(Get_mapaccess zero), data_Delete, mapaccess_foldl_mapdelete.
    now rewrite (proj2 (existsb_eqK_false (hashed keys) key') Hnone).
Qed.

(** X4: [Len] counts the entries, and the keys of the entries are
    distinct.  A fresh map has none; a [Set] adds one exactly when [Get]
    does not find the key, which is always so for a key that is not equal
    to itself, and none when it panics; a [Delete] takes off the entries
    whose key is equal to one of the keys it gets to: one for a key that
    [Get] finds, none for a key that is not equal to itself. *)
Theorem Len_Set_Delete m key (value : VALUE) keys (hint : list Z) :
  Len (NewSafeMap hint : SafeMap KEY VALUE) = 0 ∧
  Len (after (Set_ m key value))
    = match Get zero m key with
      | Returns (_, false) => Len m + 1
      | _ => Len m
      end ∧
  (wf_map m →
   Len (after (Delete m [key]))
     = match Get zero m key with
       | Returns (_, true) => Len m - 1
       | _ => Len m
       end) ∧
  Len (after (Delete m keys))
    = Len m - Z.of_nat (length (named (hashed keys) (data m))) ∧
  0 <= Len (after (Delete m keys)) <= Len m ∧
  (hashable key = true → eqK key key = false →
   Len (after (Set_ m key value)) = Len m + 1 ∧ Len (after (Delete m [key])) = Len m) ∧
  wf_map (NewSafeMap hint : SafeMap KEY VALUE) ∧
  (wf_map m → wf_map (after (Set_ m key value))) ∧
  (wf_map m → wf_map (after (Delete m keys))).
Proof.
  assert (Hdel : ∀ ks, Len (after (Delete m ks))
            = Len m - Z.of_nat (length (named (hashed ks) (data m)))).
  { intros ks. unfold Len. rewrite data_Delete.
    pose proof (length_foldl_mapdelete (data m) (hashed ks)). lia. }
  assert (Hset : Len (after (Set_ m key value))
            = match Get zero m key with
              | Returns (_, false) => Len m + 1
              | _ => Len m
              end).
  { unfold Len. rewrite data_Set, (Get_mapaccess zero).
    destruct (hashable key); [|reflexivity]. rewrite length_mapassign.
    destruct (mapaccess (data m) key); lia. }
  split; [|split; [|split; [|split; [|split; [|split; [|split; [|split]]]]]]].
  - unfold NewSafeMap. destruct hint as [|n ?]; [|destruct (0 <? n)]; reflexivity.
  - exact Hset.
  - intros [_ Hd]. unfold Len. rewrite data_Delete, (Get_mapaccess zero). cbn [hashed].
    destruct (hashable key); [|reflexivity]. cbn [foldl].
    pose proof (length_mapdelete (data m) key Hd).
    destruct (mapaccess (data m) key); lia.
  - apply Hdel.
  - rewrite Hdel. unfold Len.
    pose proof (length_foldl_mapdelete (data m) (hashed keys)). lia.
  - intros Hh Hirr. split.
    + unfold Len. rewrite data_Set, Hh, mapassign_irreflexive, length_app by assumption.
      cbn [length]. lia.
    + unfold Len. rewrite data_Delete. cbn [hashed]. rewrite Hh. cbn [foldl].
      now rewrite mapdelete_irreflexive.
  - apply wf_map_New.
  - apply wf_map_Set.
  - apply wf_map_Delete.
Qed.

(** X5: deletions compose: two [Delete]s are one with the keys of both; only
    the set of the keys named matters, neither their order nor their
    repetition, and of that set only which keys of the map are equal to
    one of them; a [Delete] of no key or of keys that [Get] does not find
    leaves the map as it is, so that a second [Delete] of the same keys
    does nothing.  (A [Delete] that panics has deleted the keys before the
    first that cannot be hashed.) *)
Theorem Delete_composes m keys keys' :
  (returned (Delete m keys) = true →
   Delete (after (Delete m keys)) keys' = Delete m (keys ++ keys')) ∧
  after (Delete (after (Delete m keys)) keys') = after (Delete m (hashed keys ++ keys')) ∧
  (returned (Delete m keys) = true → (∀ k, k ∈ keys ↔ k ∈ keys') →
   Delete m keys = Delete m keys') ∧
  (returned (Delete m keys) = true → returned (Delete m keys') = true →
   (∀ k v, (k, v) ∈ data m → existsb (eqK k) keys = existsb (eqK k) keys') →
   Delete m keys = Delete m keys') ∧
  Delete m [] = mkEffect m true ∧
  ((∀ k, k ∈ keys → Get zero m k = Returns (zero, false)) →
   Delete m keys = mkEffect m true) ∧
  Delete (after (Delete m keys)) keys = Delete m keys.
Proof.
  assert (Hext : ∀ ks ks', returned (Delete m ks) = true → returned (Delete m ks') = true →
            (∀ k v, (k, v) ∈ data m → existsb (eqK k) ks = existsb (eqK k) ks') →
            Delete m ks = Delete m ks').
  { intros ks ks' Hr Hr' Hsame. apply Effect_eq; [|congruence].
    rewrite returned_Delete in Hr, Hr'.
    rewrite !data_Delete, !hashed_all by assumption. now apply foldl_mapdelete_ext. }
  split; [|split; [|split; [|split; [|split; [|split]]]]].
  - rewrite returned_Delete. intros Hr. apply Effect_eq.
    + rewrite !data_Delete, hashed_app, foldl_app, (hashed_all keys) by assumption.
      reflexivity.
    + rewrite !returned_Delete, forallb_app, Hr. reflexivity.
  - assert (Hd : data (after (Delete (after (Delete m keys)) keys'))
              = data (after (Delete m (hashed keys ++ keys')))).
    { rewrite !data_Delete, hashed_app, foldl_app by apply hashed_hashable. reflexivity. }
    destruct (after (Delete (after (Delete m keys)) keys')),
      (after (Delete m (hashed keys ++ keys'))). cbn in Hd. now rewrite Hd.
  - intros Hr Hsame.
    assert (Hr' : returned (Delete m keys') = true).
    { rewrite returned_Delete in *. apply forallb_forall. intros k Hk.
      apply (proj1 (forallb_forall _ _) Hr). apply list_elem_of_In, Hsame, list_elem_of_In, Hk. }
    apply (Hext keys keys' Hr Hr'). intros k v _.
    apply eq_true_iff_eq. rewrite !existsb_exists.
    split; intros (k' & Hin & Hk'); exists k'; (split; [|assumption]);
      apply list_elem_of_In, Hsame, list_elem_of_In, Hin.
  - apply Hext.
  - now destruct m.
  - intros Habs. transitivity (Delete m []); [|now destruct m].
    apply Hext.
    + rewrite returned_Delete. apply forallb_forall. intros k Hk.
      apply list_elem_of_In in Hk. now destruct (Get_false_zero _ _ _ (Habs k Hk)) as (_ & Hh & _).
    + reflexivity.
    + intros k v Hin. cbn [existsb]. apply not_true_is_false. intros Hex.
      apply existsb_exists in Hex as (k' & Hk' & Heq). apply list_elem_of_In in Hk'.
      destruct (Get_false_zero _ _ _ (Habs k' Hk')) as (_ & _ & Hnone).
      rewrite (proj1 (mapaccess_None _ _) Hnone k v Hin) in Heq. discriminate.
  - apply Effect_eq; [|now rewrite !returned_Delete].
    rewrite !data_Delete.
    transitivity (foldl mapdelete (foldl mapdelete (data m) (hashed keys)) []); [|reflexivity].
    apply foldl_mapdelete_ext. intros k v Hin.
    apply elem_of_foldl_mapdelete in Hin as [_ Hin]. exact Hin.
Qed.

(** X6: writes compose.  The last [Set] of equal keys wins; [Set]s of keys
    that are not equal commute; storing again the entry a key already has
    changes nothing; a [Delete] undoes a [Set] of the same key whatever was
    stored before, and a [Set] after a [Delete] of its key is the [Set]
    alone.  This is so for a key that is equal to itself; a [Set] of a key
    that is not adds an entry every time, which no [Delete] removes, and a
    [Set] of a key that cannot be hashed panics and leaves the map as it
    is. *)
Theorem Set_composes m key key' (value value' : VALUE) :
  (eqK key key' = true →
   Set_ (after (Set_ m key value)) key' value' = Set_ m key' value') ∧
  (eqK key key' = false →
   data (after (Set_ (after (Set_ m key value)) key' value'))
     ≡ₚ data (after (Set_ (after (Set_ m key' value')) key value))) ∧
  (wf_map m → (key, value) ∈ data m → eqK key key = true →
   Set_ m key value = mkEffect m true) ∧
  (eqK key key = true → Delete (after (Set_ m key value)) [key] = Delete m [key]) ∧
  (wf_map m →
   data (after (Set_ (after (Delete m [key])) key value))
     ≡ₚ data (after (Set_ m key value))) ∧
  (hashable key = true → eqK key key = false →
   data (after (Set_ m key value)) = data m ++ [(key, value)] ∧
   after (Delete (after (Set_ m key value)) [key]) = after (Set_ m key value)) ∧
  (hashable key = false → Set_ m key value = mkEffect m false).
Proof.
  split; [|split; [|split; [|split; [|split; [|split]]]]].
  - intros Hkk. pose proof (eqK_hashable _ _ Hkk) as Hh.
    assert (Hh' : hashable key' = true).
    { apply (eqK_hashable key' key). now rewrite eqK_sym. }
    unfold Set_. rewrite Hh, Hh'. cbn [after data]. now rewrite mapassign_mapassign.
  - intros Hkk. rewrite !data_Set.
    destruct (hashable key), (hashable key'); try reflexivity. now apply mapassign_comm.
  - intros [_ Hd] Hin Hk. unfold Set_. rewrite (eqK_hashable _ _ Hk).
    rewrite mapassign_id by assumption. now destruct m.
  - intros Hk. pose proof (eqK_hashable _ _ Hk) as Hh.
    apply Effect_eq; [|now rewrite !returned_Delete].
    rewrite !data_Delete, data_Set. cbn [hashed]. rewrite Hh. cbn [foldl].
    now apply mapdelete_mapassign.
  - intros [_ Hd]. rewrite !data_Set, data_Delete. cbn [hashed].
    destruct (hashable key); [|reflexivity]. cbn [foldl]. now apply mapassign_mapdelete.
  - intros Hh Hirr. rewrite data_Set, Hh, mapassign_irreflexive by assumption.
    split; [reflexivity|].
    assert (Hd : data (after (Delete (after (Set_ m key value)) [key]))
              = data (after (Set_ m key value))).
    { rewrite data_Delete. cbn [hashed]. rewrite Hh. cbn [foldl].
      now apply mapdelete_irreflexive. }
    destruct (after (Delete (after (Set_ m key value)) [key])), (after (Set_ m key value)).
    cbn in Hd. now rewrite Hd.
  - intros Hh. unfold Set_. now rewrite Hh.
Qed.

End SafeMapLaws.

(** ** SafeMap: [Range] *)

Section RangeFacts.

Context `{Comparable KEY} {VALUE : Type} (zero : VALUE).

Implicit Types (m : SafeMap KEY VALUE) (key : KEY) (entries : list (KEY * VALUE)).

(** The calls of one run of the loop: a prefix of the entries, all
    answered [true] but possibly the last, which is answered [false] if
    entries are left over. *)
Lemma range_loop_traced {St : Type} (f : KEY → VALUE → St → St * bool) entries :
  ∀ (s : St) (log : list (KEY * VALUE * bool)),
  ∃ calls rest,
    range_loop (traced f) entries (s, log) = (range_loop f entries s, log ++ calls) ∧
    entries = calls.*1 ++ rest ∧
    (∀ (i : nat) c, calls !! i = Some c → (S i < length calls)%nat → c.2 = true) ∧
    (rest ≠ [] → ∃ c, last calls = Some c ∧ c.2 = false).
Proof.
  induction entries as [|[k v] entries IH]; intros s log.
  - exists [], []. cbn. rewrite app_nil_r. repeat split; done.
  - cbn. unfold traced at 1. cbn. destruct (f k v s) as [s1 go] eqn:Hf.
    destruct go.
    + destruct (IH s1 (log ++ [(k, v, true)])) as (calls & rest & Hrun & Hent & Htrue & Hlast).
      exists ((k, v, true) :: calls), rest. split; [|split; [|split]].
      * rewrite Hrun, <- app_assoc. reflexivity.
      * cbn. now rewrite Hent.
      * intros [|i] c Hc Hi; cbn in *; [now injection Hc as <-|].
        apply (Htrue i c Hc). lia.
      * intros Hne. destruct (Hlast Hne) as (c & Hc & Hfalse). exists c. split; [|assumption].
        destruct calls as [|c0 calls]; [discriminate|]. now rewrite last_cons_cons.
    + exists [(k, v, false)], entries. split; [|split; [|split]].
      * reflexivity.
      * reflexivity.
      * intros [|i] c Hc Hi; cbn in *; lia.
      * intros _. exists (k, v, false). split; reflexivity.
Qed.

Lemma Range_traced {St : Type} m (f : KEY → VALUE → St → St * bool) (s s' : St)
    (log : list (KEY * VALUE * bool)) :
  Range m (traced f) (s, []) (s', log) →
  ∃ entries rest,
    iteration_order m entries ∧ range_loop f entries s = s' ∧
    entries = log.*1 ++ rest ∧
    (∀ (i : nat) c, log !! i = Some c → (S i < length log)%nat → c.2 = true) ∧
    (rest ≠ [] → ∃ c, last log = Some c ∧ c.2 = false).
Proof.
  intros (entries & Hord & Hrun).
  destruct (range_loop_traced f entries s []) as (calls & rest & Hrun' & Hent & Htrue & Hlast).
  rewrite Hrun in Hrun'. cbn in Hrun'. injection Hrun' as -> ->.
  exists entries, rest. auto.
Qed.

(** X7: [Range] calls the callback on entries of the map only, on no entry
    twice and so at most [Len] times: the entries it has passed, with
    those it has not reached, are the entries of the map.  In a map made by
    the methods the keys passed are distinct, each with the value [Get]
    returns for it, unless the key is not equal to itself: such an entry is
    passed although [Get] does not find it.  On an empty map the callback
    is not called and the caller's state is as before. *)
Theorem Range_calls_on_entries {St : Type} m (f : KEY → VALUE → St → St * bool)
    (s s' : St) (log : list (KEY * VALUE * bool)) :
  Range m (traced f) (s, []) (s', log) →
  Range m f s s' ∧
  (∀ k v go, (k, v, go) ∈ log → (k, v) ∈ data m) ∧
  (∃ rest, log.*1 ++ rest ≡ₚ data m) ∧
  (wf_map m → distinct (log.*1.*1)) ∧
  (wf_map m → ∀ k v go, (k, v, go) ∈ log →
     Get zero m k = Returns (if eqK k k then (v, true) else (zero, false))) ∧
  Z.of_nat (length log) <= Len m ∧
  (Len m = 0 → log = [] ∧ s' = s).
Proof.
  intros HR. destruct (Range_traced m f s s' log HR)
    as (entries & rest & Hord & Hrun & Hent & _ & _).
  unfold iteration_order in Hord.
  assert (Hlen : Z.of_nat (length log) <= Len m).
  { unfold Len. rewrite <- Hord, Hent, length_app, !length_fmap. lia. }
  assert (Hin : ∀ k v go, (k, v, go) ∈ log → (k, v) ∈ data m).
  { intros k v go Hin. rewrite <- Hord, Hent. apply elem_of_app. left.
    apply (list_elem_of_fmap_2 fst) in Hin. exact Hin. }
  split; [exists entries; auto|]. split; [assumption|].
  split; [exists rest; now rewrite <- Hent|]. split; [|split; [|split]].
  - intros [_ Hd]. apply (distinct_app_l _ (rest.*1)). rewrite <- fmap_app, <- Hent.
    apply (distinct_Permutation (data m).*1); [|assumption]. now rewrite Hord.
  - intros [Hh Hd] k v go Hl. specialize (Hin k v go Hl).
    rewrite (Get_mapaccess zero).
    pose proof (proj1 (Forall_forall _ _) Hh (k, v) Hin) as Hhk. cbn [fst] in Hhk.
    rewrite Hhk.
    destruct (eqK k k) eqn:Hk.
    + rewrite (proj2 (mapaccess_Some_iff (data m) k v Hd)); eauto.
    + replace (mapaccess (data m) k) with (@None VALUE); [reflexivity|].
      symmetry. apply mapaccess_None. intros k' v' _.
      destruct (eqK k' k) eqn:Hk'; [|reflexivity].
      rewrite eqK_sym in Hk'. rewrite (eqK_refl_l _ _ Hk') in Hk. discriminate.
  - exact Hlen.
  - intros Hz. assert (Hl : log = []) by (destruct log; [reflexivity|cbn in Hlen; lia]).
    split; [assumption|]. subst log. cbn in Hent. subst rest.
    unfold Len in Hz. assert (Hm : data m = []) by (destruct (data m); [reflexivity|cbn in Hz; lia]).
    rewrite Hm in Hord. apply Permutation_nil_r in Hord.
    subst entries. now rewrite <- Hrun.
Qed.

(** X8: [Range] stops at the first [false]: every call but the last was
    answered [true], and when it ends before it has passed every entry the
    last call was answered [false].  A callback that always answers [true]
    is called on every entry of the map, once each, [Len] times. *)
Theorem Range_stops_at_false {St : Type} m (f : KEY → VALUE → St → St * bool)
    (s s' : St) (log : list (KEY * VALUE * bool)) :
  Range m (traced f) (s, []) (s', log) →
  (∀ (i : nat) c, log !! i = Some c → (S i < length log)%nat → c.2 = true) ∧
  (Z.of_nat (length log) < Len m → ∃ c, last log = Some c ∧ c.2 = false) ∧
  ((∀ c, c ∈ log → c.2 = true) →
   log.*1 ≡ₚ data m ∧ Z.of_nat (length log) = Len m).
Proof.
  intros HR. destruct (Range_traced m f s s' log HR)
    as (entries & rest & Hord & Hrun & Hent & Htrue & Hlast).
  unfold iteration_order in Hord.
  assert (Hlen : Len m = Z.of_nat (length log) + Z.of_nat (length rest)).
  { unfold Len. rewrite <- Hord, Hent, length_app, !length_fmap. lia. }
  split; [assumption|]. split.
  - intros Hlt. apply Hlast. intros ->. cbn in Hlen. lia.
  - intros Hall. assert (Hr : rest = []).
    { destruct rest as [|e rest]; [reflexivity|].
      destruct (Hlast ltac:(discriminate)) as (c & Hc & Hfalse).
      apply last_Some_elem_of in Hc. rewrite (Hall c Hc) in Hfalse. discriminate. }
    subst rest. rewrite app_nil_r in Hent. subst entries.
    split; [assumption|]. cbn in Hlen. lia.
Qed.

(** X9: looking a key up with [Range] gives what [Get] gives, in whatever
    order the entries come; where [Get] panics, on a key that cannot be
    hashed, [Range] finds nothing. *)
Theorem Range_find_agrees_with_Get m key (r : option VALUE) :
  wf_map m →
  Range m (find_key key) None r →
  r = mapaccess (data m) key ∧
  Get zero m key
    = (if hashable key
       then Returns (match r with Some v => (v, true) | None => (zero, false) end)
       else Panics) ∧
  (hashable key = false → r = None).
Proof.
  intros [_ Hd] (entries & Hord & Hrun). unfold iteration_order in Hord.
  assert (Hr : r = mapaccess (data m) key).
  { rewrite <- Hrun, range_loop_find_key.
    rewrite <- (mapaccess_Permutation (data m) entries key Hd) by now symmetry.
    destruct (mapaccess (data m) key); reflexivity. }
  split; [assumption|]. split.
  - rewrite (Get_mapaccess zero), <- Hr. reflexivity.
  - intros Hh. rewrite Hr. destruct (mapaccess (data m) key) as [v|] eqn:Hv; [|reflexivity].
    destruct (mapaccess_Some _ _ _ Hv) as (k & _ & Hk).
    rewrite eqK_sym in Hk. rewrite (eqK_hashable _ _ Hk) in Hh. discriminate.
Qed.

End RangeFacts.

Lemma Range_data `{Comparable KEY} {VALUE St : Type} (m : SafeMap KEY VALUE)
    (f : KEY → VALUE → St → St * bool) (s : St) :
  Range m f s (range_loop f (data m) s).
Proof. exists (data m). split; [unfold iteration_order|]; reflexivity. Qed.

(** X7, an instance: the map with two entries under a NaN; [Range] passes
    both, [Get] finds neither. *)
Lemma Range_calls_on_entries_witness :
  Range nan_map (traced add_up) (0, []) (3, [(NaN, 1, true); (NaN, 2, true)]) /\
  Range nan_map add_up 0 3 /\
  Get 0 nan_map NaN = Returns (0, false).
Proof.
  assert (HR : Range nan_map (traced add_up) (0, []) (3, [(NaN, 1, true); (NaN, 2, true)]))
    by exact (Range_data nan_map (traced add_up) (0, [])).
  destruct (Range_calls_on_entries 0 nan_map add_up 0 3 _ HR)
    as (Hrange & _ & _ & _ & Hget & _).
  split; [assumption|]. split; [assumption|].
  apply (Hget (wf_map_apply_ops _) NaN 1 true). apply elem_of_cons. now left.
Defined.

(** X8, an instance. *)
Lemma Range_stops_at_false_witness :
  Range two_entries (traced add_up) (0, []) (30, [(1, 10, true); (2, 20, true)]) /\
  Z.of_nat (length [(1, 10, true); (2, 20, true)]) = Len two_entries.
Proof.
  assert (HR : Range two_entries (traced add_up) (0, [])
                 (30, [(1, 10, true); (2, 20, true)]))
    by exact (Range_data two_entries (traced add_up) (0, [])).
  split; [assumption|].
  apply (proj2 (proj2 (Range_stops_at_false two_entries add_up 0 30 _ HR))).
  intros c Hc. apply elem_of_cons in Hc as [->|Hc]; [reflexivity|].
  apply list_elem_of_singleton in Hc. now subst c.
Defined.

(** X9, an instance. *)
Lemma Range_find_agrees_with_Get_witness :
  wf_map two_entries /\
  Range two_entries (find_key 2) None (Some 20) /\
  Get 0 two_entries 2 = Returns (20, true).
Proof.
  assert (Hwf : wf_map two_entries) by apply wf_map_apply_ops.
  assert (HR : Range two_entries (find_key 2) None (Some 20))
    by exact (Range_data two_entries (find_key 2) None).
  split; [assumption|]. split; [assumption|].
  exact (proj1 (proj2 (Range_find_agrees_with_Get 0 two_entries 2 (Some 20) Hwf HR))).
Defined.

(** ** SafeMap: the mutex *)

Section MutexFacts.

Context `{Comparable KEY} {VALUE St : Type} (zero : VALUE).

Implicit Types (st : Shared KEY VALUE St) (g : Goroutine KEY VALUE St)
  (c : Call KEY VALUE St).

Lemma sum_list_with_insert {A} (f : A → nat) (l : list A) (i : nat) (x y : A) :
  l !! i = Some x →
  (sum_list_with f (<[i := y]> l) + f x = sum_list_with f l + f y)%nat.
Proof.
  revert i. induction l as [|a l IH]; intros [|i] Hi; try discriminate.
  - injection Hi as ->. change (<[0%nat := y]> (x :: l)) with (y :: l). cbn. lia.
  - change (<[S i := y]> (a :: l)) with (a :: <[i := y]> l). cbn.
    specialize (IH i Hi). lia.
Qed.

Lemma sum_list_with_lookup {A} (f : A → nat) (l : list A) (i : nat) (x : A) :
  l !! i = Some x → (f x ≤ sum_list_with f l)%nat.
Proof.
  intros Hi. apply sum_list_with_in. now apply list_elem_of_lookup_2 in Hi.
Qed.

Lemma not_elem_of_insert {A} (l : list A) (i : nat) (x y : A) :
  x ∉ l → x ≠ y → x ∉ <[i := y]> l.
Proof.
  intros Hl Hne Hin. apply list_elem_of_lookup_1 in Hin as [j Hj].
  destruct (decide (i = j)) as [->|Hij].
  - assert (Hlt : (j < length l)%nat)
      by (apply lookup_lt_Some in Hj; now rewrite length_insert in Hj).
    rewrite list_lookup_insert_eq in Hj by assumption. congruence.
  - rewrite list_lookup_insert_ne in Hj by assumption.
    apply Hl. now apply list_elem_of_lookup_2 in Hj.
Qed.

(** Every method defers the unlock of the lock it took. *)
Lemma unlock_of_lock_of c : unlock_of c = lock_of c.
Proof. destruct c; reflexivity. Qed.

Lemma step_lock_inv st st' : lock_inv st → step zero st st' → lock_inv st'.
Proof.
  intros (Hr & Hw & Hf) Hstep. unfold lock_inv.
  destruct Hstep as [st i c Hg Hl Hwr|st i c Hg Hl Hwr Hrd|st i c m' r Hg Hb
                    |st i c r n Hg Hu Hrd|st i c r Hg Hu Hrd|st i c r Hg Hu Hwr
                    |st i c r Hg Hu Hwr]; unfold move; cbn [mu goroutines readers writer].
  all: try rewrite unlock_of_lock_of in Hu.
  all: match goal with Hg' : goroutines _ !! _ = Some _ |- context [<[_ := ?g]> _] =>
         pose proof (sum_list_with_insert reads _ _ _ g Hg') as Hir;
         pose proof (sum_list_with_insert writes _ _ _ g Hg') as Hiw;
         pose proof (sum_list_with_lookup reads _ _ _ Hg') as Hlr;
         pose proof (sum_list_with_lookup writes _ _ _ Hg') as Hlw
       end.
  all: cbn [reads writes] in Hir, Hiw, Hlr, Hlw.
  - (* RLock *)
    rewrite Hl in *. rewrite Hwr in Hw.
    split; [lia|]. split; [lia|]. apply not_elem_of_insert; [assumption|discriminate].
  - (* Lock *)
    rewrite Hl in *. rewrite Hwr in Hw.
    split; [lia|]. split; [lia|]. apply not_elem_of_insert; [assumption|discriminate].
  - (* the body *)
    split; [lia|]. split; [|apply not_elem_of_insert; [assumption|discriminate]].
    destruct (writer (mu st)); lia.
  - (* RUnlock *)
    rewrite Hu in *.
    split; [lia|]. split; [|apply not_elem_of_insert; [assumption|discriminate]].
    destruct (writer (mu st)); lia.
  - (* RUnlock of a mutex without readers: there is one, the caller *)
    exfalso. rewrite Hu in *. lia.
  - (* Unlock *)
    rewrite Hu in *. rewrite Hwr in Hw.
    split; [lia|]. split; [lia|]. apply not_elem_of_insert; [assumption|discriminate].
  - (* Unlock of a mutex without writer: there is one, the caller *)
    exfalso. rewrite Hu in *. rewrite Hwr in Hw. lia.
Qed.

Lemma steps_lock_inv st st' : lock_inv st → steps zero st st' → lock_inv st'.
Proof.
  intros Hinv Hsteps. induction Hsteps as [|st st' st'' _ IH Hstep]; [assumption|].
  apply (step_lock_inv st' st''); auto.
Qed.

Lemma lock_inv_shared (m : SafeMap KEY VALUE) (calls : list (Call KEY VALUE St)) :
  lock_inv (shared m calls).
Proof.
  unfold lock_inv, shared. cbn.
  assert (Hz : ∀ f : Goroutine KEY VALUE St → nat, (∀ c, f (Calling c) = 0%nat) →
            sum_list_with f (Calling <$> calls) = 0%nat).
  { intros f Hf. induction calls as [|c calls IH]; [reflexivity|]. cbn. now rewrite Hf, IH. }
  rewrite !Hz by reflexivity. split; [reflexivity|]. split; [reflexivity|].
  intros Hin. apply list_elem_of_fmap in Hin as (c & Hc & _). discriminate.
Qed.

(** X10: the mutex keeps the accesses apart.  Whatever the goroutines call and
    however they interleave: at most one goroutine is inside a method that
    writes ([Set], [Delete]), and then none is inside a method that reads
    ([Get], [Len], [Range] with its callback); a deferred unlock, which
    runs also when the method panics on a key that cannot be hashed,
    always finds the mutex locked in its mode, so that no unlock is fatal;
    and the map changes only in a step taken while the write lock is
    held. *)
Theorem SafeMap_accesses_are_exclusive (m : SafeMap KEY VALUE)
    (calls : list (Call KEY VALUE St)) st :
  steps zero (shared m calls) st →
  (sum_list_with writes (goroutines st) ≤ 1)%nat ∧
  (sum_list_with writes (goroutines st) = 1%nat →
   sum_list_with reads (goroutines st) = 0%nat) ∧
  readers (mu st) = sum_list_with reads (goroutines st) ∧
  (writer (mu st) = true ↔ sum_list_with writes (goroutines st) = 1%nat) ∧
  (Fatal ∉ goroutines st) ∧
  (∀ st', step zero st st' → safeMap st' ≠ safeMap st → writer (mu st) = true).
Proof.
  intros Hsteps.
  destruct (steps_lock_inv _ _ (lock_inv_shared m calls) Hsteps) as (Hr & Hw & Hf).
  split; [destruct (writer (mu st)); lia|].
  split; [destruct (writer (mu st)); lia|].
  split; [assumption|].
  split; [destruct (writer (mu st)); split; try lia; try discriminate; reflexivity|].
  split; [assumption|].
  intros st' Hstep Hne.
  destruct Hstep as [st i c Hg Hl Hwr|st i c Hg Hl Hwr Hrd|st i c m' r Hg Hb
                    |st i c r n Hg Hu Hrd|st i c r Hg Hu Hrd|st i c r Hg Hu Hwr
                    |st i c r Hg Hu Hwr]; cbn in Hne; try congruence.
  pose proof (sum_list_with_lookup writes _ _ _ Hg) as Hlw. cbn in Hlw.
  destruct Hb; try congruence; cbn in Hlw; destruct (writer (mu st)); try reflexivity; lia.
Qed.

End MutexFacts.

(** X10, an instance: two goroutines call [Set] and [Get]; the first holds the
    write lock. *)
Lemma SafeMap_accesses_are_exclusive_witness :
  let calls : list (Call Z Z unit) := [CallSet 1 10; CallGet 1] in
  let st := move 0 (Holding (CallSet 1 10)) (mkRWMutex 0 true) (NewSafeMap [])
              (shared (NewSafeMap []) calls) in
  steps 0 (shared (NewSafeMap []) calls) st /\
  sum_list_with reads (goroutines st) = 0%nat.
Proof.
  intros calls st.
  assert (Hsteps : steps 0 (shared (NewSafeMap []) calls) st).
  { eapply steps_step; [apply steps_refl|].
    apply (step_Lock 0 (shared (NewSafeMap []) calls) 0 (CallSet 1 10)); reflexivity. }
  split; [assumption|].
  apply (proj1 (proj2 (SafeMap_accesses_are_exclusive 0 (NewSafeMap []) calls st Hsteps))).
  reflexivity.
Defined.

(** ** The pool: the wait group *)

(** Runs a scenario: names the state it ends in. *)
Ltac run_scenario p Hrun :=
  match goal with
  | |- context [run ?sched ?p0] =>
      destruct (run sched p0) as [p|] eqn:Hrun;
      [|vm_compute in Hrun; discriminate Hrun]
  end.

(** Computes a fact about the state a scenario ends in. *)
Ltac by_running Hrun :=
  let Hr := fresh in
  pose proof Hrun as Hr; vm_compute in Hr; injection Hr as <-; vm_compute; reflexivity.

Section WaitGroupFacts.

Context {T : Type}.
Implicit Types (p : Pool T) (w : Worker T) (ws : list (Worker T)) (a : Action T).

Lemma unfinished_cons w ws :
  unfinished (w :: ws) = (if exited w then 0 else 1) + unfinished ws.
Proof. reflexivity. Qed.

Lemma unfinished_app ws w :
  unfinished (ws ++ [w]) = unfinished ws + (if exited w then 0 else 1).
Proof.
  induction ws as [|w' ws IH]; [unfold unfinished; cbn; lia|].
  change ((w' :: ws) ++ [w]) with (w' :: (ws ++ [w])).
  rewrite !unfinished_cons, IH. lia.
Qed.

Lemma unfinished_insert ws (i : nat) w w' :
  ws !! i = Some w ->
  unfinished (<[i := w']> ws)
    = unfinished ws - (if exited w then 0 else 1) + (if exited w' then 0 else 1).
Proof.
  revert i. induction ws as [|w0 ws IH]; intros [|i] Hi; try discriminate.
  - injection Hi as ->. change (<[0%nat := w']> (w :: ws)) with (w' :: ws).
    rewrite !unfinished_cons. lia.
  - change (<[S i := w']> (w0 :: ws)) with (w0 :: <[i := w']> ws).
    rewrite !unfinished_cons, (IH i Hi). lia.
Qed.

Lemma unfinished_nonneg ws : 0 <= unfinished ws.
Proof.
  induction ws as [|w ws IH]; [unfold unfinished; cbn; lia|].
  rewrite unfinished_cons. destruct (exited w); lia.
Qed.

Lemma unfinished_start (n : nat) (d : Z) :
  unfinished (replicate n (mkWorker (WStart : WorkerPC T) d)) = Z.of_nat n.
Proof.
  induction n as [|n IH]; [reflexivity|].
  change (replicate (S n) (mkWorker (WStart : WorkerPC T) d))
    with (mkWorker (WStart : WorkerPC T) d :: replicate n (mkWorker WStart d)).
  rewrite unfinished_cons, IH. cbn. lia.
Qed.

Lemma unfinished_zero ws :
  unfinished ws = 0 -> Forall (λ w, pc w = WExited) ws.
Proof.
  induction ws as [|w ws IH]; intros Hz; [constructor|].
  rewrite unfinished_cons in Hz. pose proof (unfinished_nonneg ws).
  unfold exited in Hz. constructor.
  - destruct (pc w); try lia. reflexivity.
  - apply IH. destruct (pc w); lia.
Qed.

Lemma exec_registered a p p' :
  WG p = registered p -> exec a p = Some p' -> WG p' = registered p'.
Proof.
  unfold registered. intros Hwg Hx.
  destruct a as [d| |x| |i wa|sa|ba].
  1-4: exec_unfold Hx; cbn in *; assumption.
  - destruct wa; exec_unfold Hx; cbn in *.
    all: match goal with H : workers _ !! _ = Some _ |- _ =>
           rewrite (unfinished_insert _ _ _ _ H) end.
    all: unfold exited in *; cbn [pc] in *;
      repeat match goal with H : pc _ = _ |- _ => rewrite H in * end; lia.
  - destruct sa; exec_unfold Hx; cbn in *; rewrite ?unfinished_app; cbn; lia.
  - destruct ba; exec_unfold Hx; cbn in *; assumption.
Qed.

Lemma run_registered (sched : list (Action T)) p p' :
  WG p = registered p -> run sched p = Some p' -> WG p' = registered p'.
Proof.
  revert p. induction sched as [|a sched IH]; intros p Hwg Hrun.
  - injection Hrun as <-. assumption.
  - cbn in Hrun. destruct (exec a p) as [p1|] eqn:Hx; [|discriminate].
    cbn in Hrun. apply (IH p1); [|assumption]. now apply (exec_registered a p).
Qed.

Lemma registered_init minWorkers maxWorkers queueSize scaleThreshold idleTimeout
    (input : Chan T) :
  let p := NewAutoScaleWorkerPool minWorkers maxWorkers queueSize scaleThreshold
             idleTimeout input in
  WG p = registered p.
Proof.
  unfold registered, NewAutoScaleWorkerPool. cbn [WG workers scaler cfg].
  rewrite unfinished_start. unfold newConfig, DefaultMinWorkers. cbn [MinWorkers]. lia.
Qed.

(** X11: the wait group's counter is the number of workers that were started
    and have not yet called [Done], and one more between the scaling
    loop's [Add] and its [go]; it is never negative. *)
Theorem WaitGroup_counts_unfinished_workers
    (minWorkers maxWorkers queueSize scaleThreshold idleTimeout : Z)
    (input : Chan T) (sched : list (Action T)) p :
  run sched (NewAutoScaleWorkerPool minWorkers maxWorkers queueSize scaleThreshold
               idleTimeout input) = Some p ->
  WG p = unfinished (workers p) + match scaler p with SGo _ _ => 1 | _ => 0 end /\
  0 <= WG p.
Proof.
  intros Hrun.
  pose proof (run_registered sched _ p (registered_init _ _ _ _ _ input) Hrun) as Hwg.
  split; [exact Hwg|]. rewrite Hwg. unfold registered.
  pose proof (unfinished_nonneg (workers p)). destruct (scaler p); lia.
Qed.

(** X12: when [pool.WG.Wait()] returns, every worker started so far has
    returned, and the scaling loop is not between an [Add] and a [go]. *)
Theorem Wait_returns_after_the_workers
    (minWorkers maxWorkers queueSize scaleThreshold idleTimeout : Z)
    (input : Chan T) (sched : list (Action T)) p p' :
  run sched (NewAutoScaleWorkerPool minWorkers maxWorkers queueSize scaleThreshold
               idleTimeout input) = Some p ->
  exec (AStart BWaitReturn) p = Some p' ->
  starter p' = BReturned /\ workers p' = workers p /\
  Forall (λ w, pc w = WExited) (workers p') /\
  (forall additional remaining, scaler p' <> SGo additional remaining).
Proof.
  intros Hrun Hx.
  pose proof (run_registered sched _ p (registered_init _ _ _ _ _ input) Hrun) as Hwg.
  unfold registered in Hwg. pose proof (unfinished_nonneg (workers p)) as Hnn.
  exec_unfold Hx. cbn.
  match goal with H : (WG p =? 0) = true |- _ => apply Z.eqb_eq in H; rewrite H in Hwg end.
  split; [reflexivity|]. split; [reflexivity|]. split.
  - apply unfinished_zero. destruct (scaler p); lia.
  - intros additional remaining Hs. rewrite Hs in Hwg. lia.
Qed.

End WaitGroupFacts.

(** X11, an instance: the second worker of the small pool has just been
    started; two workers are registered. *)
Lemma WaitGroup_counts_unfinished_workers_witness :
  exists p, run uncounted_schedule small_pool = Some p /\
    WG p = unfinished (workers p) + match scaler p with SGo _ _ => 1 | _ => 0 end /\
    WG p = 2.
Proof.
  run_scenario p Hrun. exists p. split; [reflexivity|]. split.
  - exact (proj1 (WaitGroup_counts_unfinished_workers 1 2 1 1 0 (mkChan [] false)
                    uncounted_schedule p Hrun)).
  - by_running Hrun.
Defined.

(** X12, an instance: the pool whose input is closed from the start, drained;
    its only worker has returned when [Wait] does. *)
Lemma Wait_returns_after_the_workers_witness :
  exists p p',
    run (drain_schedule ++ [AWorker 0 WWgDone])
      (NewAutoScaleWorkerPool 1 1 1 50 0 (mkChan [] true)) = Some p /\
    exec (AStart BWaitReturn) p = Some p' /\
    Forall (λ w, pc w = WExited) (workers p').
Proof.
  run_scenario p Hrun.
  destruct (exec (AStart BWaitReturn) p) as [p'|] eqn:Hx.
  - exists p, p'. split; [reflexivity|]. split; [exact Hx|].
    exact (proj1 (proj2 (proj2 (Wait_returns_after_the_workers 1 1 1 50 0 (mkChan [] true)
                                  _ p p' Hrun Hx)))).
  - exfalso. pose proof Hrun as Hr. vm_compute in Hr. injection Hr as <-.
    vm_compute in Hx. discriminate Hx.
Defined.

(** ** The pool: the items, the queue and the returns *)

Section PoolGoroutinesFacts.

Context {T : Type}.
Implicit Types (p : Pool T) (w : Worker T) (ws : list (Worker T)) (a : Action T).

Lemma exec_return_inv a p p' :
  return_inv p -> exec a p = Some p' -> return_inv p'.
Proof.
  unfold return_inv, readChan_returned. intros [Hs Hr] Hx.
  destruct a as [d| |x| |i wa|sa|ba]; exec_unfold Hx; cbn in *;
    repeat match goal with H : starter _ = _ |- _ => rewrite H in * end;
    try (split; assumption).
  all: split; [intros; first [discriminate|reflexivity|assumption|auto]|].
  all: intros Hret; try discriminate Hret.
  all: try (destruct (Hr Hret) as [Hd|Hin];
            [left; first [reflexivity|assumption]
            |first [right; assumption
                   |rewrite Hin in *; discriminate]]).
  (* [readChan] returns: the input is closed and empty, or the context is
     cancelled *)
  all: first [left; assumption
             |right; destruct (InputChan p); cbn in *; congruence].
Qed.

Lemma run_return_inv (sched : list (Action T)) p p' :
  return_inv p -> run sched p = Some p' -> return_inv p'.
Proof.
  revert p. induction sched as [|a sched IH]; intros p Hinv Hrun.
  - injection Hrun as <-. assumption.
  - cbn in Hrun. destruct (exec a p) as [p1|] eqn:Hx; [|discriminate].
    cbn in Hrun. apply (IH p1); [|assumption]. now apply (exec_return_inv a p).
Qed.

Lemma return_inv_init minWorkers maxWorkers queueSize scaleThreshold idleTimeout
    (input : Chan T) :
  return_inv (NewAutoScaleWorkerPool minWorkers maxWorkers queueSize scaleThreshold
                idleTimeout input).
Proof. split; intros; discriminate. Qed.

(** X13: a goroutine returns only for its reason: the scaling loop when the
    context is cancelled, so that it outlives a normal drain; [readChan]
    when the context is cancelled or the input is closed and empty. *)
Theorem goroutines_return_for_cause
    (minWorkers maxWorkers queueSize scaleThreshold idleTimeout : Z)
    (input : Chan T) (sched : list (Action T)) p :
  run sched (NewAutoScaleWorkerPool minWorkers maxWorkers queueSize scaleThreshold
               idleTimeout input) = Some p ->
  (scaler p = SReturned -> Done p = true) /\
  (readChan_returned p = true -> Done p = true \/ InputChan p = mkChan [] true) /\
  (closed (Queue p) = true -> Done p = true \/ InputChan p = mkChan [] true).
Proof.
  intros Hrun.
  destruct (run_return_inv sched _ p (return_inv_init _ _ _ _ _ input) Hrun) as [Hs Hr].
  split; [assumption|]. split; [assumption|].
  intros Hc. apply Hr.
  assert (Hcl : closed (Queue p) = closed_by_start p)
    by (eapply run_closed; [|exact Hrun]; reflexivity).
  rewrite Hc in Hcl. unfold closed_by_start in Hcl. unfold readChan_returned.
  destruct (starter p); try discriminate; reflexivity.
Qed.

(** X14: the workers take the items from the queue in the order of their
    arrival, each item at most once, and the queue holds the items that
    follow in the same order.  (The order in which the calls of the work
    function start is another matter: a worker resets its timer between
    the receive and the call.) *)
Theorem items_taken_in_arrival_order
    (minWorkers maxWorkers queueSize scaleThreshold idleTimeout : Z)
    (input : Chan T) (sched : list (Action T)) p :
  run sched (NewAutoScaleWorkerPool minWorkers maxWorkers queueSize scaleThreshold
               idleTimeout input) = Some p ->
  invoked p `prefix_of` buf input ++ produced sched /\
  invoked p ++ buf (Queue p) `prefix_of` buf input ++ produced sched /\
  (length (invoked p) <= length (buf input) + length (produced sched))%nat.
Proof.
  intros Hrun.
  destruct (run_items sched _ p (eq_refl : abandoned_inv (NewAutoScaleWorkerPool _ _ _ _ _ _))
              Hrun) as [_ Hit].
  change (invoked p ++ buf (Queue p) ++ held p ++ abandoned p ++ buf (InputChan p)
          = buf input ++ produced sched) in Hit.
  assert (H1 : invoked p `prefix_of` buf input ++ produced sched)
    by (eexists; symmetry; exact Hit).
  split; [assumption|]. split.
  - eexists. rewrite <- Hit, <- app_assoc. reflexivity.
  - apply prefix_length in H1. rewrite length_app in H1. assumption.
Qed.

(** X15: without cancellation, once [readChan] has returned the input is
    closed and empty and every item that arrived has been put on the
    queue: it is queued or was handed to the work function, nothing was
    given up. *)
Theorem readChan_relays_every_item
    (minWorkers maxWorkers queueSize scaleThreshold idleTimeout : Z)
    (input : Chan T) (sched : list (Action T)) p :
  run sched (NewAutoScaleWorkerPool minWorkers maxWorkers queueSize scaleThreshold
               idleTimeout input) = Some p ->
  Done p = false -> readChan_returned p = true ->
  InputChan p = mkChan [] true /\ abandoned p = [] /\
  invoked p ++ buf (Queue p) = buf input ++ produced sched.
Proof.
  intros Hrun Hd Hret.
  destruct (run_return_inv sched _ p (return_inv_init _ _ _ _ _ input) Hrun) as [_ Hr].
  destruct (Hr Hret) as [Hd'|Hin]; [congruence|].
  destruct (run_items sched _ p (eq_refl : abandoned_inv (NewAutoScaleWorkerPool _ _ _ _ _ _))
              Hrun) as [Hab Hit].
  change (invoked p ++ buf (Queue p) ++ held p ++ abandoned p ++ buf (InputChan p)
          = buf input ++ produced sched) in Hit.
  assert (Ha : abandoned p = []).
  { unfold abandoned_inv, readChan_returned in *.
    destruct (starter p); try discriminate;
      destruct Hab as [_ Hab]; destruct (abandoned p); try reflexivity;
      rewrite Hab in Hd by discriminate; discriminate. }
  split; [assumption|]. split; [assumption|].
  rewrite <- Hit, Ha, Hin. unfold held, readChan_returned in *.
  destruct (starter p); try discriminate; cbn; now rewrite app_nil_r.
Qed.

(** X16: [readChan] gives up at most one item, and only under cancellation,
    when it returns; every item that arrived is in exactly one place, and
    the places in their order hold the items in the order of arrival: handed
    to the work function, queued, held by [readChan], given up, still in
    the input. *)
Theorem at_most_one_item_abandoned
    (minWorkers maxWorkers queueSize scaleThreshold idleTimeout : Z)
    (input : Chan T) (sched : list (Action T)) p :
  run sched (NewAutoScaleWorkerPool minWorkers maxWorkers queueSize scaleThreshold
               idleTimeout input) = Some p ->
  (length (abandoned p) <= 1)%nat /\
  (abandoned p <> [] -> Done p = true /\ readChan_returned p = true) /\
  invoked p ++ buf (Queue p) ++ held p ++ abandoned p ++ buf (InputChan p)
    = buf input ++ produced sched.
Proof.
  intros Hrun.
  destruct (run_items sched _ p (eq_refl : abandoned_inv (NewAutoScaleWorkerPool _ _ _ _ _ _))
              Hrun) as [Hab Hit].
  unfold abandoned_inv, readChan_returned in *.
  split; [|split].
  - destruct (starter p); try (rewrite Hab; cbn; lia); apply Hab.
  - intros Hne. destruct (starter p); try (now rewrite Hab in Hne);
      (split; [now apply Hab|reflexivity]).
  - exact Hit.
Qed.

Lemma exec_queue_bound a p p' :
  Z.of_nat (length (buf (Queue p))) <= QueueSize (cfg p) -> exec a p = Some p' ->
  Z.of_nat (length (buf (Queue p'))) <= QueueSize (cfg p').
Proof.
  intros Hq Hx.
  destruct a as [d| |x| |i wa|sa|ba]; exec_unfold Hx; cbn in *;
    repeat match goal with H : buf _ = _ |- _ => rewrite H in * end; cbn in *;
    try assumption; try lia.
  match goal with H : (_ <? _) = true |- _ => apply Z.ltb_lt in H end.
  rewrite length_app, Nat2Z.inj_add. cbn. lia.
Qed.

Lemma run_queue_bound (sched : list (Action T)) p p' :
  Z.of_nat (length (buf (Queue p))) <= QueueSize (cfg p) -> run sched p = Some p' ->
  Z.of_nat (length (buf (Queue p'))) <= QueueSize (cfg p').
Proof.
  revert p. induction sched as [|a sched IH]; intros p Hinv Hrun.
  - injection Hrun as <-. assumption.
  - cbn in Hrun. destruct (exec a p) as [p1|] eqn:Hx; [|discriminate].
    cbn in Hrun. apply (IH p1); [|assumption]. now apply (exec_queue_bound a p).
Qed.

Lemma run_cfg (sched : list (Action T)) p p' :
  run sched p = Some p' -> cfg p' = cfg p.
Proof.
  revert p. induction sched as [|a sched IH]; intros p Hrun.
  - now injection Hrun as <-.
  - cbn in Hrun. destruct (exec a p) as [p1|] eqn:Hx; [|discriminate].
    cbn in Hrun. rewrite (IH p1 Hrun). now apply (exec_cfg a).
Qed.

(** X17: the queue never holds more than [QueueSize] items, the capacity it
    was made with, so that the [int32] conversion of its length in the
    scaling loop is exact. *)
Theorem Queue_within_QueueSize
    (minWorkers maxWorkers queueSize scaleThreshold idleTimeout : Z)
    (input : Chan T) (sched : list (Action T)) p :
  in_int32 queueSize ->
  run sched (NewAutoScaleWorkerPool minWorkers maxWorkers queueSize scaleThreshold
               idleTimeout input) = Some p ->
  QueueSize (cfg p) = Z.max 1 queueSize /\
  Z.of_nat (length (buf (Queue p))) <= QueueSize (cfg p) /\
  wrap32 (Z.of_nat (length (buf (Queue p)))) = Z.of_nat (length (buf (Queue p))).
Proof.
  intros Hqs Hrun.
  pose proof (run_cfg sched _ p Hrun) as Hcfg.
  assert (Hq : Z.of_nat (length (buf (Queue p))) <= QueueSize (cfg p)).
  { eapply run_queue_bound; [|exact Hrun]. cbn. unfold DefaultMinQueueSize. lia. }
  assert (HQ : QueueSize (cfg p) = Z.max 1 queueSize) by (rewrite Hcfg; reflexivity).
  split; [assumption|]. split; [assumption|].
  apply wrap32_id. unfold in_int32, min_int32, max_int32 in *. lia.
Qed.

(** X18: the workers that have not yet run their deferred decrement are never
    more than [MaxWorkers], also while the count lags behind. *)
Theorem live_workers_le_MaxWorkers
    (minWorkers maxWorkers queueSize scaleThreshold idleTimeout : Z)
    (input : Chan T) (sched : list (Action T)) p :
  let p0 := NewAutoScaleWorkerPool minWorkers maxWorkers queueSize scaleThreshold
              idleTimeout input in
  in_int32 minWorkers -> in_int32 maxWorkers -> in_int32 queueSize ->
  MinWorkers (cfg p0) <= MaxWorkers (cfg p0) -> no_overflow (cfg p0) ->
  run sched p0 = Some p ->
  0 <= live p <= MaxWorkers (cfg p) /\ 0 <= pending p.
Proof.
  intros p0 Hmin Hmax Hqs Hle Hno Hrun.
  assert (Hwf : wf_config (cfg p0)) by (apply newConfig_wf; assumption).
  pose proof (run_pool_inv (cfg p0) sched p0 p Hwf Hno
                (pool_inv_init _ _ _ _ _ input Hle) Hrun) as (Hcfg & _ & Hcount & Hsc).
  rewrite Hcfg. unfold scaler_inv, pending in *. rewrite Hcfg in Hsc.
  pose proof (tally_nonneg (workers p)). unfold live in *.
  destruct (scaler p); intuition lia.
Qed.

End PoolGoroutinesFacts.

(** X13, an instance: the pool stopped with an item left in the input; the
    queue is closed and the context is cancelled. *)
Lemma goroutines_return_for_cause_witness :
  exists p,
    run stop_schedule (NewAutoScaleWorkerPool 1 2 1 50 0 (mkChan [7] false)) = Some p /\
    closed (Queue p) = true /\ Done p = true.
Proof.
  run_scenario p Hrun. exists p. split; [reflexivity|].
  assert (Hc : closed (Queue p) = true) by by_running Hrun.
  split; [assumption|].
  destruct (proj2 (proj2 (goroutines_return_for_cause 1 2 1 50 0 (mkChan [7] false)
                            stop_schedule p Hrun)) Hc) as [Hd|Hin]; [assumption|].
  exfalso. pose proof Hrun as Hr. vm_compute in Hr. injection Hr as <-. discriminate Hin.
Defined.

(** X14, an instance: two items were sent to the small pool and the two
    workers took one each, in their order. *)
Lemma items_taken_in_arrival_order_witness :
  exists p, run busy_schedule small_pool = Some p /\
    invoked p `prefix_of` [7; 8].
Proof.
  run_scenario p Hrun. exists p. split; [reflexivity|].
  exact (proj1 (items_taken_in_arrival_order 1 2 1 1 0 (mkChan [] false)
                  busy_schedule p Hrun)).
Defined.

(** X15, an instance: three items were sent and the input closed, nobody
    called [Stop]; all three went through the queue. *)
Lemma readChan_relays_every_item_witness :
  exists p, run race_schedule small_pool = Some p /\
    (Done p = false /\ readChan_returned p = true) /\
    invoked p ++ buf (Queue p) = [7; 8; 9].
Proof.
  run_scenario p Hrun. exists p. split; [reflexivity|].
  assert (Hd : Done p = false) by by_running Hrun.
  assert (Hret : readChan_returned p = true) by by_running Hrun.
  split; [auto|].
  exact (proj2 (proj2 (readChan_relays_every_item 1 2 1 1 0 (mkChan [] false)
                         race_schedule p Hrun Hd Hret))).
Defined.

(** X16, an instance: [Stop] is called while [readChan] holds the only item,
    which it gives up. *)
Lemma at_most_one_item_abandoned_witness :
  exists p,
    run [AStart BRecv; AStop; AStart BCtxDone]
      (NewAutoScaleWorkerPool 1 2 1 50 0 (mkChan [7] false)) = Some p /\
    abandoned p = [7] /\ (length (abandoned p) <= 1)%nat.
Proof.
  run_scenario p Hrun. exists p. split; [reflexivity|].
  split; [by_running Hrun|].
  exact (proj1 (at_most_one_item_abandoned 1 2 1 50 0 (mkChan [7] false) _ p Hrun)).
Defined.

(** X17, an instance: the queue of one slot of the small pool. *)
Lemma Queue_within_QueueSize_witness :
  in_int32 1 /\
  exists p, run busy_schedule small_pool = Some p /\
    Z.of_nat (length (buf (Queue p))) <= 1.
Proof.
  assert (H1 : in_int32 1) by config_arith.
  split; [assumption|].
  run_scenario p Hrun. exists p. split; [reflexivity|].
  destruct (Queue_within_QueueSize 1 2 1 1 0 (mkChan [] false) busy_schedule p H1 Hrun)
    as (HQ & Hlen & _).
  rewrite HQ in Hlen. exact Hlen.
Defined.

(** X18, an instance: the small pool with its second worker started and not
    yet counted. *)
Lemma live_workers_le_MaxWorkers_witness :
  let p0 := small_pool in
  (in_int32 1 /\ in_int32 2 /\ in_int32 1 /\
   MinWorkers (cfg p0) <= MaxWorkers (cfg p0) /\ no_overflow (cfg p0)) /\
  exists p, run uncounted_schedule p0 = Some p /\ 0 <= live p <= MaxWorkers (cfg p).
Proof.
  intros p0.
  assert (H1 : in_int32 1) by config_arith.
  assert (H2 : in_int32 2) by config_arith.
  assert (Hle : MinWorkers (cfg p0) <= MaxWorkers (cfg p0)) by (subst p0; config_arith).
  assert (Hno : no_overflow (cfg p0)) by (subst p0; config_arith).
  split; [auto 6|].
  run_scenario p Hrun. exists p. split; [reflexivity|].
  exact (proj1 (live_workers_le_MaxWorkers 1 2 1 1 0 (mkChan [] false)
                  uncounted_schedule p H1 H2 H1 Hle Hno Hrun)).
Defined.

(** ** The pool: cancellation *)

Section PoolRest.

Context {T : Type}.
Implicit Types (p : Pool T) (w : Worker T) (ws : list (Worker T)) (a : Action T).

Lemma settles_by_refl ok p : settles_by ok p p.
Proof. exists []. split; reflexivity. Qed.

Lemma settles_by_trans ok p1 p2 p3 :
  settles_by ok p1 p2 -> settles_by ok p2 p3 -> settles_by ok p1 p3.
Proof.
  intros (s1 & Hg1 & Hr1) (s2 & Hg2 & Hr2). exists (s1 ++ s2). split.
  - rewrite forallb_app, Hg1, Hg2. reflexivity.
  - rewrite run_app, Hr1. exact Hr2.
Qed.

Lemma settles_by_step (ok : Action T → bool) a p p' :
  ok a = true -> exec a p = Some p' -> settles_by ok p p'.
Proof.
  intros Hg Hx. exists [a]. split; [cbn; now rewrite Hg|]. cbn. now rewrite Hx.
Qed.

Lemma settles_by_scaler p p' : settles_by scaler_step p p' -> settles p p'.
Proof.
  intros (s & Hs & Hr). exists s. split; [|assumption].
  apply forallb_forall. intros a Ha.
  apply (proj1 (forallb_forall _ _) Hs) in Ha. now destruct a.
Qed.

Lemma settles_refl p : settles p p.
Proof. apply settles_by_refl. Qed.

Lemma settles_trans p1 p2 p3 : settles p1 p2 -> settles p2 p3 -> settles p1 p3.
Proof. apply settles_by_trans. Qed.

Lemma settles_step a p p' :
  goroutine_step a = true -> exec a p = Some p' -> settles p p'.
Proof. apply settles_by_step. Qed.

(** Under cancellation a worker that has not returned can move, towards
    its return. *)
Lemma worker_step (i : nat) w p :
  Done p = true -> workers p !! i = Some w -> pc w <> WExited ->
  exists wa w1 p1,
    exec (AWorker i wa) p = Some p1 /\ workers p1 = <[i := w1]> (workers p) /\
    (rank w1 < rank w)%nat /\
    Done p1 = true /\ scaler p1 = scaler p /\ starter p1 = starter p.
Proof.
  intros Hd Hw Hpc. unfold rank. cbn. unfold exec_worker. rewrite Hw. cbn.
  destruct (pc w) eqn:Hp; [exists WBegin|exists WCtxDone; rewrite Hd|exists WReturn
                          |exists WDecrement|exists WWgDone|contradiction].
  all: do 2 eexists; split; [reflexivity|]; split; [reflexivity|].
  all: cbn; repeat split; try assumption; lia.
Qed.

Lemma worker_finishes (n : nat) : forall (i : nat) w p,
  (rank w <= n)%nat -> Done p = true -> workers p !! i = Some w ->
  exists w1 p1,
    settles p p1 /\ workers p1 = <[i := w1]> (workers p) /\ pc w1 = WExited /\
    Done p1 = true /\ scaler p1 = scaler p /\ starter p1 = starter p.
Proof.
  induction n as [|n IH]; intros i w p Hr Hd Hw.
  - exists w, p. split; [apply settles_refl|]. split; [now rewrite list_insert_id|].
    split; [|auto]. unfold rank in Hr. destruct (pc w); try reflexivity; lia.
  - assert (Hdec : pc w = WExited \/ pc w <> WExited)
      by (destruct (pc w); auto; right; discriminate).
    destruct Hdec as [He|Hne].
    { exists w, p. split; [apply settles_refl|]. split; [now rewrite list_insert_id|]. auto. }
    destruct (worker_step i w p Hd Hw Hne) as (wa & w1 & p1 & Hx & Hws & Hlt & Hd1 & Hs1 & Hb1).
    assert (Hw1 : workers p1 !! i = Some w1).
    { rewrite Hws. apply list_lookup_insert_eq. now apply lookup_lt_Some in Hw. }
    destruct (IH i w1 p1 ltac:(lia) Hd1 Hw1) as (w2 & p2 & Hq & Hws2 & He2 & Hd2 & Hs2 & Hb2).
    exists w2, p2. split.
    { eapply settles_trans; [|exact Hq]. now apply (settles_step (AWorker i wa)). }
    split; [rewrite Hws2, Hws; apply list_insert_insert_eq|].
    repeat split; congruence.
Qed.

Lemma workers_finish (k : nat) : forall p,
  Done p = true -> (k <= length (workers p))%nat ->
  exists p1,
    settles p p1 /\ length (workers p1) = length (workers p) /\
    (forall (j : nat) w, (j < k)%nat -> workers p1 !! j = Some w -> pc w = WExited) /\
    Done p1 = true /\ scaler p1 = scaler p /\ starter p1 = starter p.
Proof.
  induction k as [|k IH]; intros p Hd Hk.
  - exists p. split; [apply settles_refl|]. repeat split; try assumption. intros; lia.
  - destruct (IH p Hd ltac:(lia)) as (p1 & Hq & Hlen & Hex & Hd1 & Hs1 & Hb1).
    destruct (lookup_lt_is_Some_2 (workers p1) k ltac:(lia)) as [w Hw].
    destruct (worker_finishes (rank w) k w p1 ltac:(lia) Hd1 Hw)
      as (w1 & p2 & Hq2 & Hws & He & Hd2 & Hs2 & Hb2).
    exists p2. split; [eapply settles_trans; eassumption|].
    split; [rewrite Hws, length_insert; assumption|].
    split; [|repeat split; congruence].
    intros j w' Hj Hw'. rewrite Hws in Hw'.
    destruct (decide (j = k)) as [->|Hne].
    + rewrite list_lookup_insert_eq in Hw' by lia. now injection Hw' as <-.
    + rewrite list_lookup_insert_ne in Hw' by congruence. apply (Hex j); [lia|assumption].
Qed.

(** The spawn loop of a tick runs to its end: the workers that remain to
    be started are registered and started, then the count is raised. *)
Lemma scaler_loop_finishes (n : nat) : forall p additional remaining,
  remaining <= Z.of_nat n -> scaler p = SLoop additional remaining ->
  exists p1, settles_by scaler_step p p1 /\ scaler p1 = SSelect /\ Done p1 = Done p /\
    CurrentWorkers p1 = wrap32 (CurrentWorkers p + additional) /\
    WG p1 = WG p + Z.max 0 remaining /\
    Z.of_nat (length (workers p1)) = Z.of_nat (length (workers p)) + Z.max 0 remaining /\
    Queue p1 = Queue p.
Proof.
  induction n as [|n IH]; intros p additional remaining Hr Hs.
  - exists (set_scaler SSelect (AddInt32 additional p)).
    split; [|cbn; repeat split; lia].
    apply (settles_by_step _ (AScaler SAtomicAdd)); [reflexivity|].
    cbn. unfold exec_scaler. rewrite Hs.
    replace (0 <? remaining) with false by (symmetry; apply Z.ltb_ge; lia). reflexivity.
  - destruct (Z_lt_le_dec 0 remaining) as [Hpos|Hle].
    2:{ apply (IH p additional remaining); [lia|assumption]. }
    set (p1 := set_scaler (SGo additional remaining) (set_WG (WG p + 1) p)).
    set (p2 := set_scaler (SLoop additional (remaining - 1))
                 (set_workers (workers p1 ++ [mkWorker WStart 0]) p1)).
    destruct (IH p2 additional (remaining - 1) ltac:(lia) eq_refl)
      as (p3 & Hq & Hs3 & Hd3 & Hc3 & Hwg3 & Hlen3 & Hq3).
    exists p3. split.
    { eapply settles_by_trans; [|exact Hq].
      eapply settles_by_trans.
      - apply (settles_by_step _ (AScaler SWgAdd) p p1); [reflexivity|].
        cbn. unfold exec_scaler. rewrite Hs.
        replace (0 <? remaining) with true by (symmetry; apply Z.ltb_lt; lia). reflexivity.
      - apply (settles_by_step _ (AScaler SSpawn) p1 p2); reflexivity. }
    cbn in Hd3, Hc3, Hwg3, Hlen3, Hq3. rewrite length_app in Hlen3. cbn in Hlen3.
    repeat split; try assumption; lia.
Qed.

(** Under cancellation the scaling loop returns. *)
Lemma scaler_finishes p :
  Done p = true -> exists p1, settles p p1 /\ scaler p1 = SReturned /\ Done p1 = true.
Proof.
  intros Hd.
  assert (Hsel : forall q : Pool T, Done q = true -> scaler q = SSelect ->
            exists q1, settles q q1 /\ scaler q1 = SReturned /\ Done q1 = true).
  { intros q Hdq Hsq. exists (set_scaler SReturned q). split; [|split; [reflexivity|exact Hdq]].
    apply (settles_step (AScaler SCtxDone)); [reflexivity|].
    cbn. unfold exec_scaler. rewrite Hsq, Hdq. reflexivity. }
  assert (Hloop : forall (q : Pool T) additional remaining, Done q = true ->
            scaler q = SLoop additional remaining ->
            exists q1, settles q q1 /\ scaler q1 = SReturned /\ Done q1 = true).
  { intros q additional remaining Hdq Hsq.
    destruct (scaler_loop_finishes (Z.to_nat remaining) q additional remaining
                ltac:(lia) Hsq) as (q1 & Hq1 & Hs1 & Hd1 & _).
    destruct (Hsel q1 ltac:(congruence) Hs1) as (q2 & Hq2 & Hs2 & Hd2).
    exists q2. split; [|auto].
    eapply settles_trans; [apply settles_by_scaler|]; eassumption. }
  destruct (scaler p) as [| |qLen|additional remaining|additional remaining|] eqn:Hs.
  - (* not yet started *)
    destruct (Hsel (set_scaler SSelect (set_ticker (now p + TickerPeriod) p)) Hd eq_refl)
      as (q & Hq & Hsq & Hdq).
    exists q. split; [|auto]. eapply settles_trans; [|exact Hq].
    apply (settles_step (AScaler SBegin)); [reflexivity|].
    cbn. unfold exec_scaler. now rewrite Hs.
  - now apply Hsel.
  - (* a tick under way *)
    destruct (tick_total (cfg p) qLen (CurrentWorkers p)) as [t Ht].
    destruct t as [|additional].
    + destruct (Hsel (set_scaler SSelect p) Hd eq_refl) as (q & Hq & Hsq & Hdq).
      exists q. split; [|auto]. eapply settles_trans; [|exact Hq].
      apply (settles_step (AScaler SLoad)); [reflexivity|].
      cbn. unfold exec_scaler. rewrite Hs, Ht. reflexivity.
    + destruct (Hloop (set_scaler (SLoop additional additional) p) additional additional
                  Hd eq_refl) as (q & Hq & Hsq & Hdq).
      exists q. split; [|auto]. eapply settles_trans; [|exact Hq].
      apply (settles_step (AScaler SLoad)); [reflexivity|].
      cbn. unfold exec_scaler. rewrite Hs, Ht. reflexivity.
  - now apply (Hloop p additional remaining).
  - destruct (Hloop (set_scaler (SLoop additional (remaining - 1))
                       (set_workers (workers p ++ [mkWorker WStart 0]) p))
                additional (remaining - 1) Hd eq_refl) as (q & Hq & Hsq & Hdq).
    exists q. split; [|auto]. eapply settles_trans; [|exact Hq].
    apply (settles_step (AScaler SSpawn)); [reflexivity|].
    cbn. unfold exec_scaler. now rewrite Hs.
  - exists p. split; [apply settles_refl|auto].
Qed.

(** Under cancellation [readChan] returns and [Start] closes the queue. *)
Lemma starter_finishes p :
  Done p = true ->
  exists p1, settles p p1 /\ (starter p1 = BWait \/ starter p1 = BReturned) /\
    Done p1 = true /\ scaler p1 = scaler p.
Proof.
  intros Hd.
  assert (Hclose : forall q : Pool T, Done q = true -> starter q = BClose ->
            exists q1, settles q q1 /\ (starter q1 = BWait \/ starter q1 = BReturned) /\
              Done q1 = true /\ scaler q1 = scaler q).
  { intros q Hdq Hsq. eexists. split.
    - apply (settles_step (AStart BCloseQueue)); [reflexivity|].
      cbn. unfold exec_start. rewrite Hsq. reflexivity.
    - cbn. auto. }
  destruct (starter p) as [|x| | |] eqn:Hs.
  - destruct (Hclose (set_starter BClose p) Hd eq_refl) as (q & Hq & Hsq & Hdq & Hcq).
    exists q. split; [|auto]. eapply settles_trans; [|exact Hq].
    apply (settles_step (AStart BCtxDone)); [reflexivity|].
    cbn. unfold exec_start. rewrite Hs, Hd. reflexivity.
  - destruct (Hclose (set_starter BClose (set_abandoned (abandoned p ++ [x]) p))
                Hd eq_refl) as (q & Hq & Hsq & Hdq & Hcq).
    exists q. split; [|auto]. eapply settles_trans; [|exact Hq].
    apply (settles_step (AStart BCtxDone)); [reflexivity|].
    cbn. unfold exec_start. rewrite Hs, Hd. reflexivity.
  - now apply Hclose.
  - exists p. split; [apply settles_refl|auto].
  - exists p. split; [apply settles_refl|auto].
Qed.

(** X19: when the queue is full and the count is below [MaxWorkers], the tick
    that is due takes the count to [MaxWorkers], whatever the threshold:
    the scaling loop reads the length, registers and starts the workers
    that are missing, then adds them to the count. *)
Theorem tick_on_full_queue_reaches_MaxWorkers p :
  wf_config (cfg p) -> scaler p = SSelect -> ticker p <= now p ->
  Z.of_nat (length (buf (Queue p))) = QueueSize (cfg p) ->
  0 <= CurrentWorkers p < MaxWorkers (cfg p) ->
  exists sched' p',
    forallb scaler_step sched' = true /\ run sched' p = Some p' /\
    scaler p' = SSelect /\
    CurrentWorkers p' = MaxWorkers (cfg p) /\
    WG p' = WG p + (MaxWorkers (cfg p) - CurrentWorkers p) /\
    Z.of_nat (length (workers p'))
      = Z.of_nat (length (workers p)) + (MaxWorkers (cfg p) - CurrentWorkers p) /\
    Queue p' = Queue p.
Proof.
  intros Hwf Hs Htick Hfull Hcur.
  pose proof Hwf as (_ & HM & HQ & _). unfold max_int32 in *.
  set (room := MaxWorkers (cfg p) - CurrentWorkers p).
  set (p1 := set_scaler (SGotLen (wrap32 (Z.of_nat (length (buf (Queue p))))))
               (set_ticker (next_tick (ticker p) (now p)) p)).
  set (p2 := set_scaler (SLoop room room) p1).
  assert (H1 : exec (AScaler STick) p = Some p1).
  { cbn. unfold exec_scaler. rewrite Hs.
    replace (ticker p <=? now p) with true by (symmetry; apply Z.leb_le; lia). reflexivity. }
  assert (H2 : exec (AScaler SLoad) p1 = Some p2).
  { cbn. unfold exec_scaler. cbn. rewrite Hfull.
    rewrite wrap32_id by (unfold in_int32, min_int32, max_int32; lia).
    rewrite (tick_full (cfg p) (CurrentWorkers p) Hwf Hcur). reflexivity. }
  destruct (scaler_loop_finishes (Z.to_nat room) p2 room room ltac:(lia) eq_refl)
    as (p3 & Hq & Hs3 & _ & Hc3 & Hwg3 & Hlen3 & Hq3).
  assert (Hsteps : settles_by scaler_step p p3).
  { eapply settles_by_trans; [apply (settles_by_step _ _ _ _ eq_refl H1)|].
    eapply settles_by_trans; [apply (settles_by_step _ _ _ _ eq_refl H2)|]. exact Hq. }
  destruct Hsteps as (sched' & Hok & Hrun).
  exists sched', p3. cbn in Hc3, Hwg3, Hlen3, Hq3.
  repeat split; try assumption; try (subst room; lia).
  rewrite Hc3. subst room.
  replace (CurrentWorkers p + (MaxWorkers (cfg p) - CurrentWorkers p))
    with (MaxWorkers (cfg p)) by lia.
  apply wrap32_id. unfold in_int32, min_int32, max_int32. lia.
Qed.

Lemma unfinished_exited ws :
  Forall (λ w, pc w = WExited) ws -> unfinished ws = 0.
Proof.
  induction 1 as [|w ws Hw _ IH]; [reflexivity|].
  rewrite unfinished_cons, IH. unfold exited. now rewrite Hw.
Qed.

(** X20: cancellation always brings the pool to rest: from any state the pool
    can be in, after [Stop] the goroutines by themselves -- no item
    arriving, no time passing, the work functions under way returning --
    can all return: the scaling loop, [readChan] and [Start] with its
    [Wait], and every worker; the queue is closed and the wait group is at
    zero.  No state is a deadlock under cancellation. *)
Theorem Stop_brings_the_pool_to_rest
    (minWorkers maxWorkers queueSize scaleThreshold idleTimeout : Z)
    (input : Chan T) (sched : list (Action T)) p :
  run sched (NewAutoScaleWorkerPool minWorkers maxWorkers queueSize scaleThreshold
               idleTimeout input) = Some p ->
  exists sched' p',
    forallb goroutine_step sched' = true /\
    run (AStop :: sched') p = Some p' /\
    at_rest p' /\ WG p' = 0 /\ closed (Queue p') = true.
Proof.
  intros Hrun.
  set (p0 := NewAutoScaleWorkerPool minWorkers maxWorkers queueSize scaleThreshold
               idleTimeout input) in *.
  destruct (scaler_finishes (set_Done true p) eq_refl) as (p1 & Hq1 & Hs1 & Hd1).
  destruct (starter_finishes p1 Hd1) as (p2 & Hq2 & Hb2 & Hd2 & Hs2).
  destruct (workers_finish (length (workers p2)) p2 Hd2 ltac:(lia))
    as (p3 & Hq3 & Hlen & Hex & Hd3 & Hs3 & Hb3).
  assert (Hall : Forall (λ w, pc w = WExited) (workers p3)).
  { apply Forall_lookup. intros j w Hw. apply (Hex j); [|assumption].
    apply lookup_lt_Some in Hw. lia. }
  destruct (settles_trans _ _ _ Hq1 (settles_trans _ _ _ Hq2 Hq3)) as (s & Hg & Hr).
  assert (Hreach : run (sched ++ AStop :: s) p0 = Some p3).
  { rewrite run_app, Hrun. cbn. exact Hr. }
  assert (Hwg : WG p3 = 0).
  { rewrite (run_registered _ _ _ (registered_init _ _ _ _ _ input) Hreach).
    unfold registered. rewrite (unfinished_exited _ Hall).
    replace (scaler p3) with (SReturned : ScalerPC) by congruence. reflexivity. }
  assert (Hcl : closed (Queue p3) = closed_by_start p3)
    by (eapply run_closed; [|exact Hreach]; reflexivity).
  rewrite <- Hb3 in Hb2.
  destruct Hb2 as [Hw|Hret].
  - exists (s ++ [AStart BWaitReturn]), (set_starter BReturned p3). split; [|split].
    + rewrite forallb_app, Hg. reflexivity.
    + change (AStop :: s ++ [AStart BWaitReturn]) with ((AStop :: s) ++ [AStart BWaitReturn]).
      rewrite run_app. cbn. rewrite Hr. cbn. unfold exec_start. rewrite Hw, Hwg. reflexivity.
    + split; [|split]; cbn; try assumption.
      * split; [reflexivity|]. split; [cbn; congruence|assumption].
      * rewrite Hcl. unfold closed_by_start. now rewrite Hw.
  - exists s, p3. split; [assumption|]. split; [exact Hr|].
    split; [|split]; try assumption.
    + split; [assumption|]. split; [congruence|assumption].
    + rewrite Hcl. unfold closed_by_start. now rewrite Hret.
Qed.

End PoolRest.

(** X19, an instance: the queue of one slot of the small pool is full when the
    first tick is due; the tick starts the second worker and the count is
    two. *)
Lemma tick_on_full_queue_reaches_MaxWorkers_witness :
  exists p,
    run [AScaler SBegin; AProduce 7; AStart BRecv; AStart BSend; AElapse (2 * second)]
      small_pool = Some p /\
    (wf_config (cfg p) /\ scaler p = SSelect /\ ticker p <= now p /\
     Z.of_nat (length (buf (Queue p))) = QueueSize (cfg p) /\
     0 <= CurrentWorkers p < MaxWorkers (cfg p)) /\
    exists sched' p', run sched' p = Some p' /\ CurrentWorkers p' = MaxWorkers (cfg p).
Proof.
  run_scenario p Hrun. exists p. split; [reflexivity|].
  assert (Hwf : wf_config (cfg p)).
  { pose proof Hrun as Hr. vm_compute in Hr. injection Hr as <-. config_arith. }
  assert (Hs : scaler p = SSelect) by by_running Hrun.
  assert (Ht : ticker p <= now p).
  { pose proof Hrun as Hr. vm_compute in Hr. injection Hr as <-. vm_compute. discriminate. }
  assert (Hq : Z.of_nat (length (buf (Queue p))) = QueueSize (cfg p)) by by_running Hrun.
  assert (Hc : 0 <= CurrentWorkers p < MaxWorkers (cfg p)).
  { pose proof Hrun as Hr. vm_compute in Hr. injection Hr as <-. cbn. lia. }
  split; [auto 6|].
  destruct (tick_on_full_queue_reaches_MaxWorkers p Hwf Hs Ht Hq Hc)
    as (sched' & p' & _ & Hr & _ & Hcount & _).
  exists sched', p'. auto.
Defined.

(** X20, an instance: the small pool stopped in the middle of its first
    scale-up. *)
Lemma Stop_brings_the_pool_to_rest_witness :
  exists p, run spawn_schedule small_pool = Some p /\
    exists sched' p',
      forallb goroutine_step sched' = true /\ run (AStop :: sched') p = Some p' /\
      at_rest p'.
Proof.
  run_scenario p Hrun. exists p. split; [reflexivity|].
  destruct (Stop_brings_the_pool_to_rest 1 2 1 1 0 (mkChan [] false) spawn_schedule p Hrun)
    as (sched' & p' & Hg & Hr & Hrest & _).
  exists sched', p'. auto.
Defined.

(** ** Claims about the scaling loop *)

(** C8, counterexample: a queue of 21474837 slots with a threshold of 100
    per cent.  The [int32] product [QueueSize * 100] wraps around, the
    threshold count is negative and [maxExcess] is not zero: the ratio of
    the full queue is one by the division, not by the test
    [maxExcess == 0]. *)
Lemma maxExcess_nonzero_at_threshold_100 :
  let c := newConfig 1 5 21474837 100 0 in
  ScaleThreshold c = 100 /\ QueueSize c = 21474837 /\
  thresholdCount c = -21474835 /\ maxExcess c = 42949672 /\ maxExcess c <> 0 /\
  ratio c (QueueSize c)
    = float64_quo (float64_of_int32 42949672) (float64_of_int32 42949672) /\
  ratio c (QueueSize c) = Some float64_one.
Proof.
  cbv zeta. split; [reflexivity|]. split; [reflexivity|].
  split; [vm_compute; reflexivity|]. split; [vm_compute; reflexivity|].
  split; [vm_compute; discriminate|]. split; [vm_compute; reflexivity|].
  vm_compute; reflexivity.
Qed.

Section ScalingClaims.

Context {T : Type}.
Implicit Types (p : Pool T) (w : Worker T) (ws : list (Worker T)) (a : Action T).

Lemma ticks_app (s1 s2 : list (Action T)) : ticks (s1 ++ s2) = (ticks s1 + ticks s2)%nat.
Proof.
  induction s1 as [|a s1 IH]; [reflexivity|].
  destruct a as [d| |x| |i wa|sa|ba]; cbn; try assumption.
  destruct sa; cbn; now rewrite ?IH.
Qed.

Lemma scaler_step_or_clock (s : list (Action T)) :
  forallb scaler_step s = true -> forallb scaler_or_clock s = true.
Proof.
  intros Hs. apply forallb_forall. intros a Ha.
  apply (proj1 (forallb_forall _ _) Hs) in Ha. now destruct a.
Qed.

(** The spawn loop of a tick, from its head to the select: [n] workers
    are registered and started, then the count is raised. *)
Lemma spawn_loop_runs (n : nat) : forall p additional,
  scaler p = SLoop additional (Z.of_nat n) ->
  exists sched',
    forallb scaler_step sched' = true /\ ticks sched' = 0%nat /\
    run sched' p
      = Some (set_scaler SSelect
                (AddInt32 additional
                   (set_workers (workers p ++ replicate n (mkWorker WStart 0))
                      (set_WG (WG p + Z.of_nat n) p)))).
Proof.
  induction n as [|n IH]; intros p additional Hs.
  - exists [AScaler SAtomicAdd]. split; [reflexivity|]. split; [reflexivity|].
    cbn [run mbind option_bind exec]. unfold exec_scaler. rewrite Hs.
    cbn [Z.of_nat Z.ltb Z.compare replicate].
    rewrite app_nil_r, Z.add_0_r. destruct p as [c cur wg dn q inp ws sc tk st nw inv ab].
    reflexivity.
  - set (p1 := set_scaler (SGo additional (Z.of_nat (S n))) (set_WG (WG p + 1) p)).
    set (p2 := set_scaler (SLoop additional (Z.of_nat n))
                 (set_workers (workers p1 ++ [mkWorker WStart 0]) p1)).
    destruct (IH p2 additional eq_refl) as (s & Hok & Hticks & Hrun).
    exists (AScaler SWgAdd :: AScaler SSpawn :: s).
    split; [exact Hok|]. split; [exact Hticks|].
    assert (H1 : exec (AScaler SWgAdd) p = Some p1).
    { cbn [exec]. unfold exec_scaler. rewrite Hs.
      replace (0 <? Z.of_nat (S n)) with true by (symmetry; apply Z.ltb_lt; lia).
      reflexivity. }
    assert (H2 : exec (AScaler SSpawn) p1 = Some p2).
    { cbn [exec]. unfold exec_scaler. subst p2 p1. cbn [scaler set_scaler set_WG].
      replace (Z.of_nat (S n) - 1) with (Z.of_nat n) by lia. reflexivity. }
    cbn [run]. rewrite H1. cbn [mbind option_bind]. rewrite H2. cbn [mbind option_bind].
    rewrite Hrun. subst p2 p1. destruct p as [c cur wg dn q inp ws sc tk st nw inv ab].
    cbv [set_scaler AddInt32 set_CurrentWorkers set_workers set_WG
         cfg CurrentWorkers WG Done Queue InputChan workers scaler ticker starter now invoked
         abandoned].
    rewrite <- app_assoc.
    replace (wg + 1 + Z.of_nat n) with (wg + Z.of_nat (S n)) by lia.
    reflexivity.
Qed.

(** One tick of the scaling loop, run without any other goroutine moving
    in between: the length of the queue is read, the count is loaded, and
    the workers [tick] asks for are registered, started and added. *)
Lemma tick_runs p t :
  scaler p = SSelect -> ticker p <= now p ->
  tick (cfg p) (wrap32 (Z.of_nat (length (buf (Queue p))))) (CurrentWorkers p) = Some t ->
  0 <= added t ->
  exists sched' p',
    forallb scaler_step sched' = true /\ ticks sched' = 1%nat /\
    run sched' p = Some p' /\
    scaler p' = SSelect /\
    CurrentWorkers p'
      = match t with
        | Idle => CurrentWorkers p
        | Spawn additional => wrap32 (CurrentWorkers p + additional)
        end /\
    WG p' = WG p + added t /\
    workers p' = workers p ++ replicate (Z.to_nat (added t)) (mkWorker WStart 0) /\
    cfg p' = cfg p /\ Queue p' = Queue p /\ now p' = now p /\
    ticker p' = next_tick (ticker p) (now p) /\ Done p' = Done p.
Proof.
  intros Hs Hdue Ht Hadd.
  set (p1 := set_scaler (SGotLen (wrap32 (Z.of_nat (length (buf (Queue p))))))
               (set_ticker (next_tick (ticker p) (now p)) p)).
  assert (H1 : exec (AScaler STick) p = Some p1).
  { cbn [exec]. unfold exec_scaler. rewrite Hs.
    replace (ticker p <=? now p) with true by (symmetry; apply Z.leb_le; lia). reflexivity. }
  destruct t as [|additional].
  - exists [AScaler STick; AScaler SLoad], (set_scaler SSelect p1).
    split; [reflexivity|]. split; [reflexivity|]. split.
    { cbn [run]. rewrite H1. cbn [mbind option_bind exec]. unfold exec_scaler.
      change (scaler p1) with (SGotLen (wrap32 (Z.of_nat (length (buf (Queue p)))))).
      change (cfg p1) with (cfg p). change (CurrentWorkers p1) with (CurrentWorkers p).
      cbv beta iota. rewrite Ht. reflexivity. }
    cbn [added Z.to_nat replicate]. rewrite app_nil_r, Z.add_0_r.
    repeat split; reflexivity.
  - cbn [added] in Hadd |- *.
    set (p2 := set_scaler (SLoop additional additional) p1).
    assert (H2 : exec (AScaler SLoad) p1 = Some p2).
    { cbn [exec]. unfold exec_scaler.
      change (scaler p1) with (SGotLen (wrap32 (Z.of_nat (length (buf (Queue p)))))).
      change (cfg p1) with (cfg p). change (CurrentWorkers p1) with (CurrentWorkers p).
      cbv beta iota. rewrite Ht. reflexivity. }
    assert (Hs2 : scaler p2 = SLoop additional (Z.of_nat (Z.to_nat additional))).
    { subst p2. cbn [scaler set_scaler]. now rewrite Z2Nat.id by lia. }
    destruct (spawn_loop_runs (Z.to_nat additional) p2 additional Hs2)
      as (s & Hok & Hticks & Hrun).
    eexists (AScaler STick :: AScaler SLoad :: s), _.
    split; [exact Hok|]. split; [cbn [ticks]; now rewrite Hticks|]. split.
    { cbn [run]. rewrite H1. cbn [mbind option_bind]. rewrite H2. cbn [mbind option_bind].
      exact Hrun. }
    rewrite Z2Nat.id by lia. repeat split; reflexivity.
Qed.

Lemma elapse_runs p :
  exists p', exec (AElapse TickerPeriod) p = Some p' /\
    now p' = now p + TickerPeriod /\ ticker p' = ticker p /\ scaler p' = scaler p /\
    CurrentWorkers p' = CurrentWorkers p /\ WG p' = WG p /\ workers p' = workers p /\
    cfg p' = cfg p /\ Queue p' = Queue p.
Proof. eexists. split; [reflexivity|]. repeat split; reflexivity. Qed.

Lemma next_tick_due t n : next_tick t n <= n + TickerPeriod.
Proof.
  unfold next_tick, TickerPeriod.
  pose proof (Z.mul_div_le (n - t) (2 * 1000000000) ltac:(lia)). lia.
Qed.

(** The threshold is zero when [QueueSize * ScaleThreshold < 100]. *)
Lemma thresholdCount_zero c :
  wf_config c -> QueueSize c * ScaleThreshold c < 100 ->
  no_overflow c /\ thresholdCount c = 0.
Proof.
  intros Hwf Hsmall.
  assert (Hno : no_overflow c) by (unfold no_overflow, max_int32; lia).
  split; [assumption|].
  destruct (thresholdCount_exact c Hwf Hno) as [Htc _].
  pose proof Hwf as (_ & _ & HQ & HS).
  rewrite Htc. apply Z.div_small. nia.
Qed.

Lemma tick_zero_threshold c qLen cur :
  wf_config c -> QueueSize c * ScaleThreshold c < 100 ->
  0 <= qLen <= QueueSize c -> 0 <= cur ->
  (cur < MaxWorkers c ->
   exists additional, tick c qLen cur = Some (Spawn additional) /\
     1 <= additional <= MaxWorkers c - cur) /\
  (MaxWorkers c <= cur -> tick c qLen cur = Some Idle).
Proof.
  intros Hwf Hsmall Hq Hcur.
  destruct (thresholdCount_zero c Hwf Hsmall) as [Hno H0].
  destruct (tick_cases c qLen cur Hwf Hno Hq Hcur) as (Hidle & Hspawn).
  split.
  - intros Hroom. destruct (Hspawn ltac:(lia) Hroom) as (x & _ & Hx & Ht).
    eexists. split; [exact Ht|]. lia.
  - intros Hfull. apply Hidle. now right.
Qed.

(** With a threshold count of zero one tick after the other takes the
    count to [MaxWorkers], whatever the queue holds. *)
Lemma ticks_reach_MaxWorkers (k : nat) : forall p,
  wf_config (cfg p) -> QueueSize (cfg p) * ScaleThreshold (cfg p) < 100 ->
  scaler p = SSelect -> ticker p <= now p ->
  Z.of_nat (length (buf (Queue p))) <= QueueSize (cfg p) ->
  0 <= CurrentWorkers p <= MaxWorkers (cfg p) ->
  MaxWorkers (cfg p) - CurrentWorkers p <= Z.of_nat k ->
  exists sched' p',
    forallb scaler_or_clock sched' = true /\
    Z.of_nat (ticks sched') <= MaxWorkers (cfg p) - CurrentWorkers p /\
    run sched' p = Some p' /\
    scaler p' = SSelect /\ CurrentWorkers p' = MaxWorkers (cfg p) /\
    WG p' = WG p + (MaxWorkers (cfg p) - CurrentWorkers p) /\
    workers p'
      = workers p ++ replicate (Z.to_nat (MaxWorkers (cfg p) - CurrentWorkers p))
                       (mkWorker WStart 0) /\
    Queue p' = Queue p.
Proof.
  induction k as [|k IH]; intros p Hwf Hsmall Hs Hdue Hq Hcur Hk.
  - exists [], p. assert (Hz : MaxWorkers (cfg p) - CurrentWorkers p = 0) by lia.
    rewrite Hz. cbn [Z.to_nat replicate]. rewrite app_nil_r, Z.add_0_r.
    repeat split; try reflexivity; try assumption; cbn; lia.
  - destruct (Z.eq_dec (CurrentWorkers p) (MaxWorkers (cfg p))) as [Heq|Hne].
    { apply (IH p); try assumption. lia. }
    pose proof Hwf as (_ & HM & HQ & _). unfold max_int32 in *.
    assert (Hlen : wrap32 (Z.of_nat (length (buf (Queue p))))
                   = Z.of_nat (length (buf (Queue p))))
      by (apply wrap32_id; unfold in_int32, min_int32, max_int32; lia).
    destruct (tick_zero_threshold (cfg p) (Z.of_nat (length (buf (Queue p))))
                (CurrentWorkers p) Hwf Hsmall ltac:(lia) ltac:(lia)) as [Hspawn _].
    destruct (Hspawn ltac:(lia)) as (additional & Ht & Hadd).
    rewrite <- Hlen in Ht.
    destruct (tick_runs p (Spawn additional) Hs Hdue Ht ltac:(cbn; lia))
      as (s1 & p1 & Hok1 & Htk1 & Hrun1 & Hs1 & Hc1 & Hwg1 & Hws1 & Hcfg1 & Hq1 & Hn1
          & Htick1 & _).
    cbn [added] in Hwg1, Hws1.
    rewrite wrap32_id in Hc1 by (unfold in_int32, min_int32, max_int32; lia).
    destruct (elapse_runs p1)
      as (p2 & Hx2 & Hn2 & Htick2 & Hs2 & Hc2 & Hwg2 & Hws2 & Hcfg2 & Hq2).
    assert (Hcfg : cfg p2 = cfg p) by congruence.
    destruct (IH p2) as (s3 & p3 & Hok3 & Htk3 & Hrun3 & Hs3 & Hc3 & Hwg3 & Hws3 & Hq3).
    + now rewrite Hcfg.
    + now rewrite Hcfg.
    + congruence.
    + rewrite Htick2, Hn2, Htick1, Hn1. apply next_tick_due.
    + rewrite Hcfg, Hq2, Hq1. assumption.
    + rewrite Hcfg, Hc2, Hc1. lia.
    + rewrite Hcfg, Hc2, Hc1. lia.
    + rewrite Hcfg, Hc2, Hc1 in *. rewrite Hwg2, Hwg1 in Hwg3.
      rewrite Hws2, Hws1 in Hws3.
      exists (s1 ++ AElapse TickerPeriod :: s3), p3.
      split; [|split; [|split; [|split; [|split; [|split; [|split]]]]]].
      * rewrite forallb_app, (scaler_step_or_clock s1 Hok1). cbn. exact Hok3.
      * rewrite ticks_app, Htk1. cbn [ticks]. lia.
      * rewrite run_app, Hrun1. cbn [run mbind option_bind]. rewrite Hx2. exact Hrun3.
      * assumption.
      * assumption.
      * lia.
      * rewrite Hws3, <- app_assoc, <- replicate_add. do 2 f_equal. lia.
      * congruence.
Qed.

(** With a threshold of 100 per cent [maxExcess] is zero exactly when the
    product [QueueSize * 100] fits in [int32]. *)
Lemma maxExcess_zero_iff c :
  wf_config c -> ScaleThreshold c = 100 -> (maxExcess c = 0 <-> no_overflow c).
Proof.
  intros Hwf HS. pose proof Hwf as (_ & _ & HQ & _). unfold max_int32 in *.
  pose proof (thresholdCount_le_QueueSize c Hwf) as Hle.
  unfold maxExcess.
  assert (Hw : wrap32 (QueueSize c - thresholdCount c) = 0
               <-> QueueSize c - thresholdCount c = 0).
  { split; [|intros ->; reflexivity]. unfold wrap32, min_int32. intros Hz.
    pose proof (Z.div_mod (QueueSize c - thresholdCount c - - 2 ^ 31) (2 ^ 32) ltac:(lia)).
    pose proof (Z.mod_pos_bound (QueueSize c - thresholdCount c - - 2 ^ 31) (2 ^ 32)
                  ltac:(lia)).
    assert ((QueueSize c - thresholdCount c - - 2 ^ 31) / 2 ^ 32 = 0); [|lia].
    assert (0 <= (QueueSize c - thresholdCount c - - 2 ^ 31) / 2 ^ 32)
      by (apply Z.div_pos; lia).
    assert ((QueueSize c - thresholdCount c - - 2 ^ 31) / 2 ^ 32 < 2)
      by (apply Z.div_lt_upper_bound; lia).
    lia. }
  rewrite Hw. split.
  - intros Hz. destruct (Z_le_gt_dec (QueueSize c * ScaleThreshold c) max_int32) as [|Hover];
      [assumption|].
    assert (Hn : ~ no_overflow c) by (unfold no_overflow; lia).
    pose proof (thresholdCount_overflow c Hwf Hn) as Hlt.
    rewrite HS, Z.div_mul in Hlt by lia. lia.
  - intros Hno. destruct (thresholdCount_exact c Hwf Hno) as [-> _].
    rewrite HS, Z.div_mul by lia. lia.
Qed.

(** C8, amended: with a threshold of 100 per cent and the queue filled to
    capacity, the tick that is due takes the count to [MaxWorkers]: the
    scaling loop reads the length, takes the ratio to be one, registers
    and starts the workers that are missing and adds them to the count.
    No tick ever divides by zero: the division is made only when
    [maxExcess] is not zero, so that [ratio], hence [tick], is always
    defined.  [maxExcess] is zero exactly when the product
    [QueueSize * 100] does not overflow [int32]; when it overflows the
    ratio of the full queue is one by the division. *)
Theorem threshold_100_scales_to_max p :
  wf_config (cfg p) -> ScaleThreshold (cfg p) = 100 ->
  scaler p = SSelect -> ticker p <= now p ->
  Z.of_nat (length (buf (Queue p))) = QueueSize (cfg p) ->
  0 <= CurrentWorkers p < MaxWorkers (cfg p) ->
  (forall qLen,
     ratio (cfg p) qLen
       = if maxExcess (cfg p) =? 0 then Some float64_one
         else float64_quo (float64_of_int32 (wrap32 (qLen - thresholdCount (cfg p))))
                (float64_of_int32 (maxExcess (cfg p)))) /\
  (forall qLen, exists r, ratio (cfg p) qLen = Some r) /\
  (forall qLen cur, exists t, tick (cfg p) qLen cur = Some t) /\
  (maxExcess (cfg p) = 0 <-> no_overflow (cfg p)) /\
  ratio (cfg p) (QueueSize (cfg p)) = Some float64_one /\
  tick (cfg p) (QueueSize (cfg p)) (CurrentWorkers p)
    = Some (Spawn (MaxWorkers (cfg p) - CurrentWorkers p)) /\
  exists sched' p',
    forallb scaler_step sched' = true /\ ticks sched' = 1%nat /\
    run sched' p = Some p' /\
    scaler p' = SSelect /\
    CurrentWorkers p' = MaxWorkers (cfg p) /\
    WG p' = WG p + (MaxWorkers (cfg p) - CurrentWorkers p) /\
    workers p'
      = workers p ++ replicate (Z.to_nat (MaxWorkers (cfg p) - CurrentWorkers p))
                       (mkWorker WStart 0) /\
    Queue p' = Queue p.
Proof.
  intros Hwf HS Hs Hdue Hfull Hcur.
  pose proof Hwf as (_ & HM & HQ & _). unfold max_int32 in *.
  split; [reflexivity|].
  split; [intros; apply ratio_total|].
  split; [intros; apply tick_total|].
  split; [now apply maxExcess_zero_iff|].
  split; [apply ratio_full|].
  pose proof (tick_full (cfg p) (CurrentWorkers p) Hwf Hcur) as Ht.
  split; [exact Ht|].
  assert (Hlen : wrap32 (Z.of_nat (length (buf (Queue p)))) = QueueSize (cfg p)).
  { rewrite Hfull. apply wrap32_id. unfold in_int32, min_int32, max_int32. lia. }
  rewrite <- Hlen in Ht.
  destruct (tick_runs p _ Hs Hdue Ht ltac:(cbn; lia))
    as (s & p' & Hok & Htk & Hrun & Hs' & Hc' & Hwg' & Hws' & _ & Hq' & _).
  cbn [added] in Hwg', Hws'.
  exists s, p'. repeat split; try assumption.
  rewrite Hc'.
  replace (CurrentWorkers p + (MaxWorkers (cfg p) - CurrentWorkers p))
    with (MaxWorkers (cfg p)) by lia.
  apply wrap32_id. unfold in_int32, min_int32, max_int32. lia.
Qed.

(** C9: when [QueueSize * ScaleThreshold < 100] the threshold count is
    zero, so that the scale-up test passes for every queue length, the
    empty queue included.  Every tick taken below [MaxWorkers] then
    registers, starts and adds to the count at least one worker and at
    most what is missing, whatever the backlog, and a tick at [MaxWorkers]
    adds nothing; tick after tick, in at most as many ticks as workers are
    missing, the count reaches [MaxWorkers]. *)
Theorem zero_threshold_scales_every_tick p :
  wf_config (cfg p) -> QueueSize (cfg p) * ScaleThreshold (cfg p) < 100 ->
  scaler p = SSelect -> ticker p <= now p ->
  Z.of_nat (length (buf (Queue p))) <= QueueSize (cfg p) ->
  0 <= CurrentWorkers p <= MaxWorkers (cfg p) ->
  thresholdCount (cfg p) = 0 /\
  (forall qLen cur, 0 <= qLen <= QueueSize (cfg p) -> 0 <= cur ->
     thresholdCount (cfg p) <= qLen /\
     (cur < MaxWorkers (cfg p) ->
      exists additional, tick (cfg p) qLen cur = Some (Spawn additional) /\
        1 <= additional <= MaxWorkers (cfg p) - cur) /\
     (MaxWorkers (cfg p) <= cur -> tick (cfg p) qLen cur = Some Idle)) /\
  (CurrentWorkers p < MaxWorkers (cfg p) ->
   exists additional sched' p',
     1 <= additional <= MaxWorkers (cfg p) - CurrentWorkers p /\
     forallb scaler_step sched' = true /\ ticks sched' = 1%nat /\
     run sched' p = Some p' /\
     scaler p' = SSelect /\
     CurrentWorkers p' = CurrentWorkers p + additional /\
     WG p' = WG p + additional /\
     workers p' = workers p ++ replicate (Z.to_nat additional) (mkWorker WStart 0) /\
     Queue p' = Queue p) /\
  (CurrentWorkers p = MaxWorkers (cfg p) ->
   exists sched' p',
     forallb scaler_step sched' = true /\ ticks sched' = 1%nat /\
     run sched' p = Some p' /\
     scaler p' = SSelect /\ CurrentWorkers p' = CurrentWorkers p /\
     WG p' = WG p /\ workers p' = workers p /\ Queue p' = Queue p) /\
  (exists sched' p',
     forallb scaler_or_clock sched' = true /\
     Z.of_nat (ticks sched') <= MaxWorkers (cfg p) - CurrentWorkers p /\
     run sched' p = Some p' /\
     scaler p' = SSelect /\ CurrentWorkers p' = MaxWorkers (cfg p) /\
     WG p' = WG p + (MaxWorkers (cfg p) - CurrentWorkers p) /\
     workers p'
       = workers p ++ replicate (Z.to_nat (MaxWorkers (cfg p) - CurrentWorkers p))
                        (mkWorker WStart 0) /\
     Queue p' = Queue p).
Proof.
  intros Hwf Hsmall Hs Hdue Hq Hcur.
  destruct (thresholdCount_zero (cfg p) Hwf Hsmall) as [Hno H0].
  pose proof Hwf as (_ & HM & HQ & _). unfold max_int32 in *.
  assert (Hlen : wrap32 (Z.of_nat (length (buf (Queue p))))
                 = Z.of_nat (length (buf (Queue p))))
    by (apply wrap32_id; unfold in_int32, min_int32, max_int32; lia).
  destruct (tick_zero_threshold (cfg p) (Z.of_nat (length (buf (Queue p))))
              (CurrentWorkers p) Hwf Hsmall ltac:(lia) ltac:(lia)) as [Hspawn Hidle].
  split; [assumption|]. split; [|split; [|split]].
  - intros qLen cur Hq' Hcur'. split; [lia|].
    now apply tick_zero_threshold.
  - intros Hroom. destruct (Hspawn Hroom) as (additional & Ht & Hadd).
    rewrite <- Hlen in Ht.
    destruct (tick_runs p (Spawn additional) Hs Hdue Ht ltac:(cbn; lia))
      as (s & p' & Hok & Htk & Hrun & Hs' & Hc' & Hwg' & Hws' & _ & Hq' & _).
    cbn [added] in Hwg', Hws'.
    rewrite wrap32_id in Hc' by (unfold in_int32, min_int32, max_int32; lia).
    exists additional, s, p'. repeat split; try assumption; lia.
  - intros Hmax. pose proof (Hidle ltac:(lia)) as Ht. rewrite <- Hlen in Ht.
    destruct (tick_runs p Idle Hs Hdue Ht ltac:(cbn; lia))
      as (s & p' & Hok & Htk & Hrun & Hs' & Hc' & Hwg' & Hws' & _ & Hq' & _).
    cbn [added Z.to_nat replicate] in Hwg', Hws'.
    rewrite app_nil_r in Hws'. rewrite Z.add_0_r in Hwg'.
    exists s, p'. repeat split; assumption.
  - apply (ticks_reach_MaxWorkers (Z.to_nat (MaxWorkers (cfg p) - CurrentWorkers p)) p);
      try assumption. lia.
Qed.

End ScalingClaims.

(** C8, an instance: one worker out of five, a queue of two slots that is
    full and a threshold of 100 per cent; the tick takes the count to
    five. *)
Lemma threshold_100_scales_to_max_witness :
  exists p,
    run full_queue_schedule (NewAutoScaleWorkerPool 1 5 2 100 0 (mkChan [] false)) = Some p /\
    (wf_config (cfg p) /\ ScaleThreshold (cfg p) = 100 /\ scaler p = SSelect /\
     ticker p <= now p /\ Z.of_nat (length (buf (Queue p))) = QueueSize (cfg p) /\
     0 <= CurrentWorkers p < MaxWorkers (cfg p)) /\
    exists sched' p', run sched' p = Some p' /\ CurrentWorkers p' = 5 /\
      length (workers p') = 5%nat.
Proof.
  run_scenario p Hrun. exists p. split; [reflexivity|].
  assert (Hwf : wf_config (cfg p)).
  { pose proof Hrun as Hr. vm_compute in Hr. injection Hr as <-. config_arith. }
  assert (HS : ScaleThreshold (cfg p) = 100) by by_running Hrun.
  assert (Hs : scaler p = SSelect) by by_running Hrun.
  assert (Ht : ticker p <= now p).
  { pose proof Hrun as Hr. vm_compute in Hr. injection Hr as <-. vm_compute. discriminate. }
  assert (Hq : Z.of_nat (length (buf (Queue p))) = QueueSize (cfg p)) by by_running Hrun.
  assert (Hc : 0 <= CurrentWorkers p < MaxWorkers (cfg p)).
  { pose proof Hrun as Hr. vm_compute in Hr. injection Hr as <-. cbn. lia. }
  split; [auto 7|].
  destruct (threshold_100_scales_to_max p Hwf HS Hs Ht Hq Hc)
    as (_ & _ & _ & _ & _ & _ & sched' & p' & _ & _ & Hr & _ & Hcount & _ & Hws & _).
  exists sched', p'. split; [exact Hr|].
  pose proof Hrun as Hr0. vm_compute in Hr0. injection Hr0 as <-.
  split; [exact Hcount|]. rewrite Hws. reflexivity.
Defined.

(** C9, an instance: the small pool, its queue of one slot empty and its
    threshold one per cent; the first tick starts the second worker and
    the count is two, the maximum. *)
Lemma zero_threshold_scales_every_tick_witness :
  exists p,
    run first_tick_schedule small_pool = Some p /\
    (wf_config (cfg p) /\ QueueSize (cfg p) * ScaleThreshold (cfg p) < 100 /\
     scaler p = SSelect /\ ticker p <= now p /\
     Z.of_nat (length (buf (Queue p))) <= QueueSize (cfg p) /\
     0 <= CurrentWorkers p <= MaxWorkers (cfg p)) /\
    buf (Queue p) = [] /\ thresholdCount (cfg p) = 0 /\
    exists sched' p', run sched' p = Some p' /\ CurrentWorkers p' = 2 /\
      length (workers p') = 2%nat.
Proof.
  run_scenario p Hrun. exists p. split; [reflexivity|].
  assert (Hwf : wf_config (cfg p)).
  { pose proof Hrun as Hr. vm_compute in Hr. injection Hr as <-. config_arith. }
  assert (Hsmall : QueueSize (cfg p) * ScaleThreshold (cfg p) < 100).
  { pose proof Hrun as Hr. vm_compute in Hr. injection Hr as <-. cbn. lia. }
  assert (Hs : scaler p = SSelect) by by_running Hrun.
  assert (Ht : ticker p <= now p).
  { pose proof Hrun as Hr. vm_compute in Hr. injection Hr as <-. vm_compute. discriminate. }
  assert (Hq : Z.of_nat (length (buf (Queue p))) <= QueueSize (cfg p)).
  { pose proof Hrun as Hr. vm_compute in Hr. injection Hr as <-. cbn. lia. }
  assert (Hc : 0 <= CurrentWorkers p <= MaxWorkers (cfg p)).
  { pose proof Hrun as Hr. vm_compute in Hr. injection Hr as <-. cbn. lia. }
  split; [auto 7|].
  split; [by_running Hrun|].
  destruct (zero_threshold_scales_every_tick p Hwf Hsmall Hs Ht Hq Hc)
    as (H0 & _ & _ & _ & sched' & p' & _ & _ & Hr & _ & Hcount & _ & Hws & _).
  split; [exact H0|].
  exists sched', p'. split; [exact Hr|].
  pose proof Hrun as Hr0. vm_compute in Hr0. injection Hr0 as <-.
  split; [exact Hcount|]. rewrite Hws. reflexivity.
Defined.

(** ** The pool: the idle timer *)

Section PoolTimer.

Context {T : Type}.
Implicit Types (p : Pool T) (w : Worker T) (ws : list (Worker T)) (a : Action T).

Lemma exec_timer_inv a p p' : timer_inv p -> exec a p = Some p' -> timer_inv p'.
Proof.
  unfold timer_inv. intros (Hnow & Hidle & Hall) Hx.
  destruct a as [d| |x| |i wa|sa|ba].
  - exec_unfold Hx; cbn in *.
    match goal with H : (0 <? d) = true |- _ => apply Z.ltb_lt in H end.
    split; [lia|]. split; [assumption|].
    eapply Forall_impl; [exact Hall|]. cbn. intros; lia.
  - exec_unfold Hx; cbn in *; auto.
  - exec_unfold Hx; cbn in *; auto.
  - exec_unfold Hx; cbn in *; auto.
  - destruct wa; exec_unfold Hx; cbn in *.
    all: split; [assumption|]; split; [assumption|].
    all: apply Forall_insert; [assumption|]; cbn; try lia.
    all: match goal with H : workers _ !! _ = Some _ |- _ =>
           apply (Forall_lookup_1 _ _ _ _ Hall) in H; cbn in H; lia end.
  - destruct sa; exec_unfold Hx; cbn in *; auto.
    split; [assumption|]. split; [assumption|].
    apply Forall_app. split; [assumption|]. constructor; [cbn; lia|constructor].
  - destruct ba; exec_unfold Hx; cbn in *; auto.
Qed.

Lemma run_timer_inv (sched : list (Action T)) p p' :
  timer_inv p -> run sched p = Some p' -> timer_inv p'.
Proof.
  revert p. induction sched as [|a sched IH]; intros p Hinv Hrun.
  - injection Hrun as <-. assumption.
  - cbn in Hrun. destruct (exec a p) as [p1|] eqn:Hx; [|discriminate].
    cbn in Hrun. apply (IH p1); [|assumption]. now apply (exec_timer_inv a p).
Qed.

Lemma timer_inv_init minWorkers maxWorkers queueSize scaleThreshold idleTimeout
    (input : Chan T) :
  timer_inv (NewAutoScaleWorkerPool minWorkers maxWorkers queueSize scaleThreshold
               idleTimeout input).
Proof.
  unfold timer_inv. cbn. unfold DefaultIdleTimeout.
  split; [lia|]. split; [lia|].
  apply Forall_forall. intros w Hw. apply elem_of_replicate in Hw as [-> _]. cbn. lia.
Qed.

(** X21: a worker that waits in its select has its timer case ready after at
    most [IdleTimeout]: the timer is never set further ahead.  The worker
    can then take that case, and leaves if the count is above [MinWorkers]
    or else sets the timer anew. *)
Theorem idle_timer_fires_within_IdleTimeout
    (minWorkers maxWorkers queueSize scaleThreshold idleTimeout : Z)
    (input : Chan T) (sched : list (Action T)) p (i : nat) w (d : Z) :
  run sched (NewAutoScaleWorkerPool minWorkers maxWorkers queueSize scaleThreshold
               idleTimeout input) = Some p ->
  workers p !! i = Some w -> pc w = WSelect -> IdleTimeout (cfg p) <= d ->
  DefaultIdleTimeout <= IdleTimeout (cfg p) /\
  deadline w <= now p + IdleTimeout (cfg p) /\
  exists p', exec (AElapse d) p = Some p' /\ timer_ready i p' = true /\
    exec (AWorker i WTimer) p'
      = Some (set_worker i
                (if CurrentWorkers p >? MinWorkers (cfg p)
                 then mkWorker WDeferAdd (deadline w)
                 else mkWorker WSelect (now p + d + IdleTimeout (cfg p))) p').
Proof.
  intros Hrun Hw Hpc Hd.
  destruct (run_timer_inv sched _ p (timer_inv_init _ _ _ _ _ input) Hrun)
    as (Hnow & Hidle & Hall).
  pose proof (Forall_lookup_1 _ _ _ _ Hall Hw) as Hdl. cbn in Hdl.
  split.
  { rewrite (run_cfg sched _ p Hrun). cbn. lia. }
  split; [assumption|].
  exists (set_now (now p + d) p). split; [|split].
  - cbn. replace (0 <? d) with true by (symmetry; apply Z.ltb_lt; lia). reflexivity.
  - unfold timer_ready. cbn. rewrite Hw, Hpc. apply Z.leb_le. lia.
  - cbn. unfold exec_worker. cbn. rewrite Hw. cbn. rewrite Hpc.
    replace (deadline w <=? now p + d) with true by (symmetry; apply Z.leb_le; lia).
    destruct (CurrentWorkers p >? MinWorkers (cfg p)); reflexivity.
Qed.

End PoolTimer.

(** X21, an instance: the first worker of the small pool, which set its timer
    at the start, five seconds later. *)
Lemma idle_timer_fires_within_IdleTimeout_witness :
  exists p, run uncounted_schedule small_pool = Some p /\
    (workers p !! 0%nat = Some (mkWorker WSelect (5 * second)) /\
     IdleTimeout (cfg p) <= 5 * second) /\
    exists p', exec (AElapse (5 * second)) p = Some p' /\ timer_ready 0 p' = true.
Proof.
  run_scenario p Hrun. exists p. split; [reflexivity|].
  assert (Hw : workers p !! 0%nat = Some (mkWorker WSelect (5 * second)))
    by by_running Hrun.
  assert (Hd : IdleTimeout (cfg p) <= 5 * second).
  { pose proof Hrun as Hr. vm_compute in Hr. injection Hr as <-. vm_compute. discriminate. }
  split; [auto|].
  destruct (idle_timer_fires_within_IdleTimeout 1 2 1 1 0 (mkChan [] false)
              uncounted_schedule p 0 _ (5 * second) Hrun Hw eq_refl Hd)
    as (_ & _ & p' & Hx & Hready & _).
  exists p'. auto.
Defined.

(** ** The pool of fixed size *)

Section PoolFixed.

Context {T : Type}.
Implicit Types (p : Pool T) (w : Worker T) (ws : list (Worker T)) (a : Action T).

Lemma exec_leave_inv a p p' :
  CurrentWorkers p <= MinWorkers (cfg p) ->
  closed (Queue p) = closed_by_start p ->
  leave_inv p -> exec a p = Some p' -> leave_inv p'.
Proof.
  unfold leave_inv, closed_by_start. intros Hcur Hcl Hinv Hx.
  destruct a as [d| |x| |i wa|sa|ba].
  - exec_unfold Hx; cbn in *; assumption.
  - exec_unfold Hx; cbn in *. now left.
  - exec_unfold Hx; cbn in *; assumption.
  - exec_unfold Hx; cbn in *; assumption.
  - (* a worker *)
    destruct Hinv as [Hd|[[Hc Hb]|Hall]].
    { left. destruct wa; exec_unfold Hx; cbn in *; assumption. }
    { right. left. destruct wa; exec_unfold Hx; cbn in *; try (split; assumption).
      all: match goal with H : buf _ = _ :: _ |- _ => rewrite Hb in H; discriminate end. }
    destruct wa; exec_unfold Hx; cbn in *.
    all: try (right; right; apply Forall_insert; [assumption|reflexivity]).
    + (* the queue is closed and empty *)
      right. left. split; assumption.
    + (* the idle exit needs a count above [MinWorkers] *)
      match goal with H : (_ >? _) = true |- _ => apply Z.gtb_lt in H end. lia.
    + (* cancellation *)
      left. assumption.
    + (* the deferred decrement: the worker had left its loop *)
      match goal with H : workers _ !! _ = Some _ |- _ =>
        apply (Forall_lookup_1 _ _ _ _ Hall) in H; unfold leaving in H end.
      match goal with H : pc _ = WDeferAdd |- _ => rewrite H in * end. discriminate.
    + match goal with H : workers _ !! _ = Some _ |- _ =>
        apply (Forall_lookup_1 _ _ _ _ Hall) in H; unfold leaving in H end.
      match goal with H : pc _ = WDeferDone |- _ => rewrite H in * end. discriminate.
  - (* the scaling loop *)
    destruct sa; exec_unfold Hx; cbn in *; try assumption.
    all: destruct Hinv as [Hd|[Hq|Hall]];
      [left; first [assumption|reflexivity]|right; now left|right; right].
    all: first [assumption|apply Forall_app; split; [assumption|]].
    constructor; [reflexivity|constructor].
  - (* [Start] *)
    destruct ba; exec_unfold Hx; cbn in *; try assumption;
      repeat match goal with H : starter _ = _ |- _ => rewrite H in * end.
    + (* a send: the queue is open *)
      destruct Hinv as [Hd|[[Hc Hb]|Hall]]; [now left|congruence|right; now right].
    + (* cancellation *)
      left. assumption.
    + left. assumption.
    + (* the close *)
      destruct Hinv as [Hd|[[Hc Hb]|Hall]]; [now left|congruence|right; now right].
Qed.

Lemma exec_first_worker_inv a p p' :
  WG p = registered p ->
  first_worker_inv p -> exec a p = Some p' -> first_worker_inv p'.
Proof.
  unfold first_worker_inv. intros Hwg (w0 & Hw0 & Hret) Hx.
  destruct a as [d| |x| |i wa|sa|ba].
  1-4: exec_unfold Hx; cbn in *; eauto.
  - (* a worker *)
    assert (Hmove : forall w', workers p !! i = Some w' ->
              exists w1, workers p' = <[i := w1]> (workers p) /\ starter p' = starter p /\
                pc w' <> WExited).
    { intros w' Hw'. cbn in Hx. unfold exec_worker in Hx. rewrite Hw' in Hx. cbn in Hx.
      destruct wa; exec_cases; cbn;
        eexists; (split; [reflexivity|split; [reflexivity|congruence]]). }
    destruct (workers p !! i) as [w'|] eqn:Hw'.
    2:{ cbn in Hx. unfold exec_worker in Hx. rewrite Hw' in Hx. discriminate. }
    destruct (Hmove w' eq_refl) as (w1 & Hws & Hst & Hne).
    destruct i as [|i].
    + rewrite Hw' in Hw0. injection Hw0 as ->. exists w1. split.
      * rewrite Hws. apply list_lookup_insert_eq. now apply lookup_lt_Some in Hw'.
      * rewrite Hst. intros Hr. now specialize (Hret Hr).
    + exists w0. split; [|now rewrite Hst].
      rewrite Hws. now rewrite list_lookup_insert_ne by discriminate.
  - (* the scaling loop *)
    destruct sa; exec_unfold Hx; cbn in *; eauto.
    exists w0. split; [|assumption]. now apply lookup_app_l_Some.
  - (* [Start] *)
    destruct ba; exec_unfold Hx; cbn in *;
      repeat match goal with H : starter _ = _ |- _ => rewrite H in * end;
      try (exists w0; split; [assumption|intros; discriminate]).
    (* [Wait] returns: every worker has returned *)
    exists w0. split; [assumption|]. intros _.
    match goal with H : (WG p =? 0) = true |- _ => apply Z.eqb_eq in H; rewrite H in Hwg end.
    unfold registered in Hwg. pose proof (unfinished_nonneg (workers p)).
    assert (Hz : unfinished (workers p) = 0) by (destruct (scaler p); lia).
    apply unfinished_zero in Hz. apply (Forall_lookup_1 _ _ _ _ Hz Hw0).
Qed.

Lemma exec_work_done_inv a p p' :
  WG p = registered p -> leave_inv p -> first_worker_inv p ->
  work_done_inv p -> exec a p = Some p' -> work_done_inv p'.
Proof.
  unfold work_done_inv. intros Hwg Hl (w0 & Hw0 & Hex) Hinv Hx Hd' Hret'.
  destruct a as [d| |x| |i wa|sa|ba].
  - exec_unfold Hx; cbn in *; auto.
  - exec_unfold Hx; cbn in *. discriminate.
  - exec_unfold Hx; cbn in *; auto.
  - exec_unfold Hx; cbn in *; auto.
  - (* a worker *)
    destruct wa; exec_unfold Hx; cbn in *; try (exfalso; congruence);
      specialize (Hinv Hd' Hret');
      try (apply Forall_insert; [assumption|reflexivity]).
    (* an item is taken: [Start] has not returned *)
    exfalso. specialize (Hex Hret').
    destruct Hl as [Hd|[[_ Hb]|Hall]]; [congruence|congruence|].
    apply (Forall_lookup_1 _ _ _ _ Hall) in Hw0. unfold leaving in Hw0.
    rewrite Hex in Hw0. discriminate.
  - (* the scaling loop *)
    destruct sa; exec_unfold Hx; cbn in *; try (exfalso; congruence);
      specialize (Hinv Hd' Hret'); try assumption.
    apply Forall_app. split; [assumption|]. constructor; [reflexivity|constructor].
  - (* [Start] *)
    destruct ba; exec_unfold Hx; cbn in *; try discriminate.
    (* [Wait] returns: every worker has returned *)
    match goal with H : (WG p =? 0) = true |- _ => apply Z.eqb_eq in H; rewrite H in Hwg end.
    unfold registered in Hwg. pose proof (unfinished_nonneg (workers p)).
    assert (Hz : unfinished (workers p) = 0) by (destruct (scaler p); lia).
    apply unfinished_zero in Hz. apply (Forall_impl _ _ _ Hz).
    intros w Hw. unfold running. now rewrite Hw.
Qed.

Lemma run_fixed_inv c (sched : list (Action T)) p p' :
  wf_config c -> no_overflow c -> MinWorkers c = MaxWorkers c ->
  pool_inv c p -> closed (Queue p) = closed_by_start p -> WG p = registered p ->
  leave_inv p -> first_worker_inv p -> work_done_inv p ->
  run sched p = Some p' ->
  leave_inv p' /\ first_worker_inv p' /\ work_done_inv p'.
Proof.
  intros Hwf Hno Hfix. revert p.
  induction sched as [|a sched IH]; intros p Hinv Hcl Hwg Hl Hf Hw Hrun.
  - injection Hrun as <-. repeat split; assumption.
  - cbn in Hrun. destruct (exec a p) as [p1|] eqn:Hx; [|discriminate].
    cbn in Hrun. apply (IH p1); try assumption.
    + now apply (exec_pool_inv c a p).
    + now apply (exec_closed a p).
    + now apply (exec_registered a p).
    + apply (exec_leave_inv a p); try assumption.
      destruct Hinv as (Hcfg & _ & _ & Hsc). unfold scaler_inv in Hsc.
      rewrite Hcfg in *. rewrite Hfix. destruct (scaler p); lia.
    + now apply (exec_first_worker_inv a p).
    + now apply (exec_work_done_inv a p).
Qed.

(** X22: a pool of fixed size loses no item on a normal drain.  When
    [MinWorkers = MaxWorkers] the count never exceeds [MinWorkers], so no
    worker takes the idle exit; without cancellation a worker then leaves
    only on finding the queue closed and empty.  So when [Start] has
    returned, and [Join] with it, the queue and the input are closed and
    empty, every item that arrived was taken by a worker, and no worker is
    still at work on an item: the work function has run on every item and
    has returned.  Nothing is said of the order of the calls. *)
Theorem fixed_size_pool_loses_no_item
    (minWorkers maxWorkers queueSize scaleThreshold idleTimeout : Z)
    (input : Chan T) (sched : list (Action T)) p :
  let p0 := NewAutoScaleWorkerPool minWorkers maxWorkers queueSize scaleThreshold
              idleTimeout input in
  in_int32 minWorkers -> in_int32 maxWorkers -> in_int32 queueSize ->
  MinWorkers (cfg p0) = MaxWorkers (cfg p0) -> no_overflow (cfg p0) ->
  run sched p0 = Some p ->
  Done p = false -> starter p = BReturned ->
  Queue p = mkChan [] true /\ InputChan p = mkChan [] true /\
  held p = [] /\ abandoned p = [] /\
  invoked p = buf input ++ produced sched /\
  Forall (λ w, running w = false) (workers p).
Proof.
  intros p0 Hmin Hmax Hqs Hfix Hno Hrun Hd Hret.
  assert (Hwf : wf_config (cfg p0)) by (apply newConfig_wf; assumption).
  assert (Hf0 : first_worker_inv p0).
  { exists (mkWorker WStart 0). split; [|intros; discriminate].
    subst p0. unfold NewAutoScaleWorkerPool. cbn [workers].
    apply lookup_replicate_2. cbn. unfold DefaultMinWorkers. lia. }
  assert (Hl0 : leave_inv p0).
  { right. right. apply Forall_forall. intros w Hw.
    apply elem_of_replicate in Hw as [-> _]. reflexivity. }
  assert (Hle : MinWorkers (cfg p0) <= MaxWorkers (cfg p0)) by lia.
  assert (Hw0 : work_done_inv p0) by (intros _ Hs; discriminate Hs).
  destruct (run_fixed_inv (cfg p0) sched p0 p Hwf Hno Hfix
              (pool_inv_init _ _ _ _ _ input Hle) eq_refl
              (registered_init _ _ _ _ _ input) Hl0 Hf0 Hw0 Hrun) as (Hl & Hf & Hwd).
  assert (Hcl : closed (Queue p) = closed_by_start p)
    by (eapply run_closed; [|exact Hrun]; reflexivity).
  unfold closed_by_start in Hcl. rewrite Hret in Hcl.
  (* the first worker has returned, so the queue is closed and empty *)
  assert (Hq : buf (Queue p) = []).
  { destruct Hl as [Hd'|[[_ Hb]|Hall]]; [congruence|assumption|].
    destruct Hf as (w & Hw & Hex). specialize (Hex Hret).
    apply (Forall_lookup_1 _ _ _ _ Hall) in Hw. unfold leaving in Hw.
    rewrite Hex in Hw. discriminate. }
  (* [readChan] returned on the end of the input, having relayed it all *)
  destruct (run_return_inv sched _ p (return_inv_init _ _ _ _ _ input) Hrun) as [_ Hr].
  destruct (Hr ltac:(unfold readChan_returned; now rewrite Hret)) as [Hd'|Hin];
    [congruence|].
  destruct (run_items sched _ p (eq_refl : abandoned_inv (NewAutoScaleWorkerPool _ _ _ _ _ _))
              Hrun) as [Hab Hit].
  unfold abandoned_inv in Hab. rewrite Hret in Hab. destruct Hab as [_ Hab].
  assert (Ha : abandoned p = []).
  { destruct (abandoned p); [reflexivity|]. rewrite Hab in Hd by discriminate.
    discriminate. }
  assert (Hall : invoked p = buf input ++ produced sched).
  { change (invoked p ++ buf (Queue p) ++ held p ++ abandoned p ++ buf (InputChan p)
            = buf input ++ produced sched) in Hit.
    unfold held in Hit. rewrite Hret, Hq, Ha, Hin in Hit. cbn in Hit.
    now rewrite app_nil_r in Hit. }
  split; [destruct (Queue p); cbn in *; congruence|].
  split; [assumption|].
  split; [unfold held; now rewrite Hret|].
  split; [assumption|].
  split; [assumption|].
  now apply Hwd.
Qed.

End PoolFixed.

(** X22, an instance: two workers, no more, and an input that holds two
    items and is closed; each worker takes an item, the second worker is
    the first to return from the work function, then both find the queue
    closed and empty. *)
Lemma fixed_size_pool_loses_no_item_witness :
  let p0 := NewAutoScaleWorkerPool 2 2 2 50 0 (mkChan [7; 8] true) in
  (in_int32 2 /\ MinWorkers (cfg p0) = MaxWorkers (cfg p0) /\ no_overflow (cfg p0)) /\
  exists p, run two_workers_schedule p0 = Some p /\
    (Done p = false /\ starter p = BReturned) /\
    invoked p = [7; 8] /\ Forall (λ w, running w = false) (workers p).
Proof.
  intros p0.
  assert (H2 : in_int32 2) by config_arith.
  assert (Hfix : MinWorkers (cfg p0) = MaxWorkers (cfg p0)) by reflexivity.
  assert (Hno : no_overflow (cfg p0)) by (subst p0; config_arith).
  split; [auto|].
  run_scenario p Hrun. exists p. split; [reflexivity|].
  assert (Hd : Done p = false) by by_running Hrun.
  assert (Hret : starter p = BReturned) by by_running Hrun.
  split; [auto|].
  destruct (fixed_size_pool_loses_no_item 2 2 2 50 0 (mkChan [7; 8] true)
              two_workers_schedule p H2 H2 H2 Hfix Hno Hrun Hd Hret)
    as (_ & _ & _ & _ & Hall & Hw).
  split; [exact Hall|exact Hw].
Defined.
